(** * A shallow embedding of the regexp package (parser, NFA nodes, matcher)

    The Go package compiles a small regular-expression syntax into an NFA
    whose nodes live on the heap and are linked by pointers, and matches
    whole strings by simulating the NFA on a set of live nodes.

    The embedding keeps that shape: nodes are objects in an explicit heap
    (a list updated by index), a [node] is a pointer into it or [nil], the
    parser is a state-and-error monad over the scanner and the heap, and the
    live-node set is a finite set of pointers. *)

From Stdlib Require Import ZArith String Ascii.
From stdpp Require Import base decidable countable list gmap sets.

Local Open Scope Z_scope.

(** ** Runes, bytes and UTF-8 decoding *)

Abbreviation rune := Z.

(** A Go string is a sequence of bytes. *)
Definition bytes_of_string (s : string) : list Z :=
  (λ c, Z.of_N (N_of_ascii c)) <$> list_ascii_of_string s.

Definition chr (c : ascii) : rune := Z.of_N (N_of_ascii c).

(** Model of the Go standard library's [unicode/utf8] decoder (it is not
    part of the package; the package calls it from [parser.next] and through
    the [range] loop over the input of [MatchString]).  The definitions
    follow the library's [first] table, [acceptRanges] and
    [DecodeRuneInString]. *)
Module utf8.

Definition RuneError : rune := 0xFFFD.

Definition locb : Z := 0x80.
Definition hicb : Z := 0xBF.
Definition maskx : Z := 0x3F.
Definition mask2 : Z := 0x1F.
Definition mask3 : Z := 0x0F.
Definition mask4 : Z := 0x07.

Definition xx : Z := 0xF1. (* invalid: size 1 *)
Definition as_ : Z := 0xF0. (* ASCII: size 1 *)
Definition s1 : Z := 0x02. (* accept 0, size 2 *)
Definition s2 : Z := 0x13. (* accept 1, size 3 *)
Definition s3 : Z := 0x03. (* accept 0, size 3 *)
Definition s4 : Z := 0x23. (* accept 2, size 3 *)
Definition s5 : Z := 0x34. (* accept 3, size 4 *)
Definition s6 : Z := 0x04. (* accept 0, size 4 *)
Definition s7 : Z := 0x44. (* accept 4, size 4 *)

(** The 256-entry table [first], written by ranges of the first byte. *)
Definition first (b : Z) : Z :=
  if b <? 0x80 then as_
  else if b <? 0xC2 then xx
  else if b <? 0xE0 then s1
  else if b =? 0xE0 then s2
  else if b <? 0xED then s3
  else if b =? 0xED then s4
  else if b <? 0xF0 then s3
  else if b =? 0xF0 then s5
  else if b <? 0xF4 then s6
  else if b =? 0xF4 then s7
  else xx.

Definition acceptRanges (i : Z) : Z * Z :=
  if i =? 0 then (locb, hicb)
  else if i =? 1 then (0xA0, hicb)
  else if i =? 2 then (locb, 0x9F)
  else if i =? 3 then (0x90, hicb)
  else if i =? 4 then (locb, 0x8F)
  else (0, 0).

(** The code point assembled from the payload bits of two, three and four
    bytes. *)
Definition rune2 (b0 b1 : Z) : rune :=
  Z.lor (Z.shiftl (Z.land b0 mask2) 6) (Z.land b1 maskx).

Definition rune3 (b0 b1 b2 : Z) : rune :=
  Z.lor (Z.lor (Z.shiftl (Z.land b0 mask3) 12)
               (Z.shiftl (Z.land b1 maskx) 6))
        (Z.land b2 maskx).

Definition rune4 (b0 b1 b2 b3 : Z) : rune :=
  Z.lor (Z.lor (Z.lor (Z.shiftl (Z.land b0 mask4) 18)
                      (Z.shiftl (Z.land b1 maskx) 12))
               (Z.shiftl (Z.land b2 maskx) 6))
        (Z.land b3 maskx).

Definition DecodeRuneInString (s : list Z) : rune * nat :=
  match s with
  | [] => (RuneError, 0%nat)
  | s0 :: _ =>
    let x := first s0 in
    if as_ <=? x then
      (* the mask trick: [xx] is odd and yields RuneError, [as] is even
         and yields the byte itself *)
      (if Z.testbit x 0 then RuneError else s0, 1%nat)
    else
      let sz := Z.to_nat (Z.land x 7) in
      let '(lo, hi) := acceptRanges (Z.shiftr x 4) in
      if (length s <? sz)%nat then (RuneError, 1%nat) else
      let b1 := nth 1 s 0 in
      if (b1 <? lo) || (hi <? b1) then (RuneError, 1%nat) else
      if (sz <=? 2)%nat then (rune2 s0 b1, 2%nat) else
      let b2 := nth 2 s 0 in
      if (b2 <? locb) || (hicb <? b2) then (RuneError, 1%nat) else
      if (sz <=? 3)%nat then (rune3 s0 b1 b2, 3%nat) else
      let b3 := nth 3 s 0 in
      if (b3 <? locb) || (hicb <? b3) then (RuneError, 1%nat) else
      (rune4 s0 b1 b2 b3, 4%nat)
  end.

End utf8.

Arguments utf8.DecodeRuneInString : simpl never.
Arguments utf8.rune2 : simpl never.
Arguments utf8.rune3 : simpl never.
Arguments utf8.rune4 : simpl never.

(** [for _, r := range s]: the runes of a string, decoded one after the
    other; an invalid byte yields [RuneError] and advances by one byte.
    [skip] counts the bytes of the current rune still to be passed over. *)
Fixpoint runes_aux (skip : nat) (s : list Z) : list rune :=
  match s with
  | [] => []
  | _ :: s' =>
    match skip with
    | S k => runes_aux k s'
    | O => let '(r, w) := utf8.DecodeRuneInString s in r :: runes_aux (w - 1) s'
    end
  end.

Definition runes (s : list Z) : list rune := runes_aux 0 s.

(** ** NFA nodes on the heap *)

(** A value of interface type [node]: [nil], or a pointer to a node object.
    Pointers are indices into the heap; identity is pointer identity. *)
Inductive node : Type := nil | ptr (a : nat).

#[global] Instance node_eq_dec : EqDecision node.
Proof. solve_decision. Defined.

#[global] Instance node_countable : Countable node.
Proof.
  apply (inj_countable'
           (λ n, match n with nil => None | ptr a => Some a end)
           (λ o, match o with None => nil | Some a => ptr a end)).
  by intros [].
Defined.

(** [type nodeBase []node] *)
Abbreviation nodeBase := (list node).

(** [type matchBase struct { nodeBase; n node }] *)
Record matchBase : Type := MatchBase { mb_nodeBase : nodeBase; mb_n : node }.

(** The concrete node types. *)
Inductive object : Type :=
| starNode (b : nodeBase)
| qmarkNode (b : nodeBase)
| plusNode (b : nodeBase)
| terminalNode (b : nodeBase)
| leftParenNode (b : nodeBase)
| rightParenNode (b : nodeBase)
| pipeNode (b : nodeBase)
| dotNode (m : matchBase)
| literalNode (m : matchBase) (r : rune).

Definition epsilons (o : object) : list node :=
  match o with
  | starNode b | qmarkNode b | plusNode b | terminalNode b
  | leftParenNode b | rightParenNode b | pipeNode b => b
  | dotNode m | literalNode m _ => mb_nodeBase m
  end.

(** [*n = append( *n, e)] on the embedded [nodeBase]. *)
Definition addEpsilon (e : node) (o : object) : object :=
  match o with
  | starNode b => starNode (b ++ [e])
  | qmarkNode b => qmarkNode (b ++ [e])
  | plusNode b => plusNode (b ++ [e])
  | terminalNode b => terminalNode (b ++ [e])
  | leftParenNode b => leftParenNode (b ++ [e])
  | rightParenNode b => rightParenNode (b ++ [e])
  | pipeNode b => pipeNode (b ++ [e])
  | dotNode m => dotNode (MatchBase (mb_nodeBase m ++ [e]) (mb_n m))
  | literalNode m r => literalNode (MatchBase (mb_nodeBase m ++ [e]) (mb_n m)) r
  end.

(** The type assertions [n.(matchNode)] and [e.end.(matchBuilder)] succeed
    exactly on dot and literal nodes. *)
Definition is_matchNode (o : object) : bool :=
  match o with dotNode _ | literalNode _ _ => true | _ => false end.

Definition matches (o : object) (r : rune) : bool :=
  match o with
  | dotNode _ => true
  | literalNode _ c => r =? c
  | _ => false
  end.

Definition next (o : object) : node :=
  match o with dotNode m | literalNode m _ => mb_n m | _ => nil end.

Definition setNext (nx : node) (o : object) : object :=
  match o with
  | dotNode m => dotNode (MatchBase (mb_nodeBase m) nx)
  | literalNode m r => literalNode (MatchBase (mb_nodeBase m) nx) r
  | _ => o
  end.

Abbreviation heap := (list object).

(** ** Outcomes *)

Inductive error : Type :=
| IllegalAt (c : rune) (pos : nat)
    (* "illegal %c at pos %d" *)
| EmptyLeftOf (c : rune) (pos : nat) (lhs_start lhs_end : node)
    (* "invalid empty expression to the left of %c at pos %d %#v %#v" *)
| InvalidCharacter (c : rune) (pos : nat)
    (* "Invalid character %c at pos %d" *)
| UnknownEscape (c : rune)
    (* "unknown escape sequence \\%c" *)
| UnterminatedSubexp (start : nat)
    (* "unterminated subexp starting at pos %d" *).

(** A call returns a value, returns a non-nil [error], panics (a method
    call through a nil interface, or a pointer that the heap does not
    hold), or, in the model only, runs out of fuel. *)
Inductive result (A : Type) : Type :=
| Ok (a : A)
| Err (e : error)
| Panic
| OutOfFuel.
Arguments Ok {A} a.
Arguments Err {A} e.
Arguments Panic {A}.
Arguments OutOfFuel {A}.

#[global] Instance result_ret : MRet result := λ A a, Ok a.
#[global] Instance result_bind : MBind result := λ A B f m,
  match m with
  | Ok a => f a
  | Err e => Err e
  | Panic => Panic
  | OutOfFuel => OutOfFuel
  end.

(** ** nodeSet *)

(** [type nodeSet map[node]struct{}] *)
Abbreviation nodeSet := (gset node).

(** [func (s nodeSet) add(n node)].  The recursion of the source descends
    only into nodes that were not in the set, so its depth is bounded by the
    number of heap objects; [fuel] bounds the depth. *)
Fixpoint add_fuel (fuel : nat) (h : heap) (s : nodeSet) (n : node)
  : result nodeSet :=
  match fuel with
  | O => OutOfFuel
  | S fuel =>
    if decide (n ∈ s) then Ok s
    else
      let s := {[n]} ∪ s in
      match n with
      | nil => Panic
      | ptr a =>
        match h !! a with
        | None => Panic
        | Some o =>
          foldl (λ acc e, s ← acc; add_fuel fuel h s e) (Ok s) (epsilons o)
        end
      end
  end.

Definition add (h : heap) (s : nodeSet) (n : node) : result nodeSet :=
  add_fuel (S (length h)) h s n.

(** [for n := range s { delete(s, n) }] *)
Definition clear (s : nodeSet) : nodeSet :=
  foldl (λ acc n, acc ∖ {[n]}) s (elements s).

(** ** Regexp and MatchString *)

Record Regexp : Type :=
  { r_start : node; r_term : node; r_pattern : string }.

(** The inner loop of [MatchString]: every live match node that accepts
    [r] adds its successor to [next]. *)
Definition advance (h : heap) (r : rune) (cur : list node) (next_ : nodeSet)
  : result nodeSet :=
  foldl (λ acc n,
           nx ← acc;
           match n with
           | nil => Ok nx
           | ptr a =>
             match h !! a with
             | None => Panic
             | Some m =>
               if is_matchNode m && matches m r then add h nx (next m)
               else Ok nx
             end
           end) (Ok next_) cur.

Fixpoint MatchString_loop (h : heap) (term : node) (cur next_ : nodeSet)
    (rs : list rune) : result bool :=
  match rs with
  | [] => Ok (bool_decide (term ∈ cur))
  | r :: rs =>
    nx ← advance h r (elements cur) next_;
    if (size nx =? 0)%nat then Ok false
    else MatchString_loop h term nx (clear cur) rs
  end.

Definition MatchString (h : heap) (r : Regexp) (input : string) : result bool :=
  cur ← add h ∅ (r_start r);
  MatchString_loop h (r_term r) cur ∅ (runes (bytes_of_string input)).

(** ** The scanner *)

Record parser : Type := Parser { p_in : list Z; pos : nat; width : nat }.

(** The parser's functions mutate the scanner and the node graph; both are
    threaded through a state-and-error monad. *)
Record state : Type := State { st_p : parser; st_heap : heap }.

Definition M (A : Type) : Type := state → result (A * state).

#[global] Instance M_ret : MRet M := λ A a st, Ok (a, st).
#[global] Instance M_bind : MBind M := λ A B f m st,
  match m st with
  | Ok (a, st') => f a st'
  | Err e => Err e
  | Panic => Panic
  | OutOfFuel => OutOfFuel
  end.

Definition fail {A} (e : error) : M A := λ _, Err e.
Definition panic {A} : M A := λ _, Panic.
Definition outOfFuel {A} : M A := λ _, OutOfFuel.

Definition get_pos : M nat := λ st, Ok (pos (st_p st), st).

(** [r, p.width = utf8.DecodeRuneInString(p.in[p.pos:]); p.pos += p.width].
    The slice is in range as long as [pos] is not past the end of [in];
    the scanner starts at 0 and [next] keeps it there. *)
Definition p_next : M rune := λ st,
  let p := st_p st in
  let '(r, w) := utf8.DecodeRuneInString (drop (pos p) (p_in p)) in
  Ok (r, State (Parser (p_in p) (pos p + w) w) (st_heap st)).

(** [p.pos -= p.width; p.width = 0].  [width] never exceeds [pos], so the
    subtraction on [nat] is the one on [int]. *)
Definition backup : M unit := λ st,
  let p := st_p st in
  Ok (tt, State (Parser (p_in p) (pos p - width p) 0) (st_heap st)).

Definition peek : M rune :=
  r ← p_next; _ ← backup; mret r.

(** ** Heap access *)

(** [&T{...}]: a fresh object at the next free address. *)
Definition alloc (o : object) : M node := λ st,
  Ok (ptr (length (st_heap st)), State (st_p st) (st_heap st ++ [o])).

(** A method call through an interface value: panics on [nil]. *)
Definition deref (n : node) : M object := λ st,
  match n with
  | nil => Panic
  | ptr a =>
    match st_heap st !! a with
    | Some o => Ok (o, st)
    | None => Panic
    end
  end.

Definition update (n : node) (f : object → object) : M unit := λ st,
  match n with
  | nil => Panic
  | ptr a =>
    match st_heap st !! a with
    | Some o => Ok (tt, State (st_p st) (<[a := f o]> (st_heap st)))
    | None => Panic
    end
  end.

(** [n.addEpsilon(e)] and [n.setNext(nx)] on the node that [n] points to. *)
Definition addEpsilon_at (n e : node) : M unit := update n (addEpsilon e).
Definition setNext_at (n nx : node) : M unit := update n (setNext nx).

(** ** Fragments *)

(** [type expr struct{ start, end nodeBuilder }] *)
Record expr : Type := Expr { e_start : node; e_end : node }.

Definition empty_expr : expr := Expr nil nil.

#[global] Instance expr_eq_dec : EqDecision expr.
Proof. solve_decision. Defined.

(** [e == expr{}] *)
Definition isEmpty (e : expr) : bool := bool_decide (e = empty_expr).

Definition concat (e nxt : expr) : M expr :=
  if isEmpty e then mret nxt
  else if isEmpty nxt then mret e
  else
    match e_end e with
    | nil =>
      (* the type assertion fails on nil, then [e.end.addEpsilon] panics *)
      panic
    | ptr _ =>
      o ← deref (e_end e);
      _ ← (if is_matchNode o then setNext_at (e_end e) (e_start nxt)
            else addEpsilon_at (e_end e) (e_start nxt));
      mret (Expr (e_start e) (e_end nxt))
    end.

Definition concatNode (e : expr) (n : node) : M expr := concat e (Expr n n).

(** ** The recursive-descent parser *)

Definition is_quantifier (r : rune) : bool :=
  (r =? chr "?") || (r =? chr "+") || (r =? chr "*").

Definition parseDot : M expr :=
  _ ← p_next;
  n ← alloc (dotNode (MatchBase [] nil));
  mret (Expr n n).

Definition parseLiteral : M expr :=
  r ← p_next;
  n ← alloc (literalNode (MatchBase [] nil) r);
  mret (Expr n n).

Definition parseEscape : M expr :=
  _ ← p_next;
  r ← peek;
  if (r =? chr "?") || (r =? chr "*") || (r =? chr "+")
     || (r =? chr "(") || (r =? chr ")") || (r =? chr "|")
  then parseLiteral
  else fail (UnknownEscape r).

Definition parseMeta (term : expr) : M expr :=
  mc ← p_next;
  n ← (if mc =? chr "+" then
         n ← alloc (plusNode []);
         _ ← addEpsilon_at n (e_start term);
         mret n
       else if mc =? chr "*" then
         n ← alloc (starNode []);
         _ ← addEpsilon_at n (e_start term);
         _ ← addEpsilon_at (e_start term) n;
         mret n
       else if mc =? chr "?" then
         n ← alloc (qmarkNode []);
         _ ← addEpsilon_at (e_start term) n;
         mret n
       else mret nil);
  concatNode term n.

(** [parseSubexp], [parseTerm] and [parsePipe] call [parseClause]
    recursively; they take it as an argument, and [parseClause_loop] ties
    the knot. *)
Definition parseSubexp (parseClause : M expr) : M expr :=
  start ← get_pos;
  _ ← p_next;
  e ← parseClause;
  r ← p_next;
  (* on a missing ')' the source sets [err] and still builds the group *)
  lp ← alloc (leftParenNode []);
  rp ← alloc (rightParenNode []);
  e ← concat (Expr lp lp) e;
  e ← concatNode e rp;
  if r =? chr ")" then mret e else fail (UnterminatedSubexp start).

Definition parseTerm (parseClause : M expr) : M expr :=
  r ← peek;
  if is_quantifier r then
    p ← get_pos; fail (InvalidCharacter r p)
  else
    e ← (if r =? chr "(" then parseSubexp parseClause
         else if r =? chr "\" then parseEscape
         else if r =? chr "." then parseDot
         else parseLiteral);
    r ← peek;
    if is_quantifier r then parseMeta e else mret e.

Definition parsePipe (parseClause : M expr) (lhs : expr) : M expr :=
  _ ← p_next;
  if isEmpty lhs then
    c ← peek; p ← get_pos;
    fail (EmptyLeftOf c p (e_start lhs) (e_end lhs))
  else
    e ← parseClause;
    _ ← addEpsilon_at (e_start e) (e_start lhs);
    n ← alloc (pipeNode []);
    e ← concatNode e n;
    _ ← concatNode lhs n;
    mret e.

(** [parseClause] is a loop around the fragment [e] built so far; each turn
    of the loop and each recursive call spends one unit of fuel. *)
Fixpoint parseClause_loop (fuel : nat) (e : expr) : M expr :=
  match fuel with
  | O => outOfFuel
  | S fuel =>
    r ← peek;
    if (r =? utf8.RuneError) || (r =? chr ")") then mret e
    else if r =? chr "|" then
      e ← parsePipe (parseClause_loop fuel empty_expr) e;
      parseClause_loop fuel e
    else
      nxt ← parseTerm (parseClause_loop fuel empty_expr);
      e ← concat e nxt;
      parseClause_loop fuel e
  end.

Definition parseClause (fuel : nat) : M expr := parseClause_loop fuel empty_expr.

Definition parse_body (fuel : nat) (len : nat) : M (node * node) :=
  e ← parseClause fuel;
  p ← get_pos;
  if negb (p =? len)%nat then
    _ ← backup;
    c ← peek; p ← get_pos;
    fail (IllegalAt c p)
  else
    term ← alloc (terminalNode []);
    e ← concatNode e term;
    mret (e_start e, e_end e).

Definition parse_fuel (fuel : nat) (inp : list Z) : result (node * node * heap) :=
  match parse_body fuel (length inp) (State (Parser inp 0 0) []) with
  | Ok (se, st) => Ok (se, st_heap st)
  | Err e => Err e
  | Panic => Panic
  | OutOfFuel => OutOfFuel
  end.

(** Every turn of the clause loop consumes at least one byte, so twice the
    length of the pattern (plus one) is fuel enough. *)
Definition parse (inp : list Z) : result (node * node * heap) :=
  parse_fuel (2 * length inp + 1) inp.

(** [Compile] returns the compiled pattern together with the heap that
    holds its nodes. *)
Definition Compile (pattern : string) : result (Regexp * heap) :=
  '(s, t, h) ← parse (bytes_of_string pattern);
  mret (Build_Regexp s t pattern, h).

(** [MustCompile] panics where [Compile] returns an error. *)
Definition MustCompile (pattern : string) : result (Regexp * heap) :=
  match Compile pattern with
  | Err _ => Panic
  | r => r
  end.

(** [Compile] followed by [MatchString]. *)
Definition match_pattern (pattern input : string) : result bool :=
  '(r, h) ← Compile pattern;
  MatchString h r input.


(** * Vocabulary of the statements

    Notions that the properties below are stated with: epsilon edges and
    reachability in a heap, well-formed heaps, the heaps of the patterns of
    the claims, and the predicates of the proofs about the parser. *)

Local Open Scope string_scope.
Local Open Scope list_scope.
Local Open Scope Z_scope.

(** The epsilon successors of a node, as the heap holds them. *)
Definition eps_of (h : heap) (n : node) : list node :=
  match n with
  | nil => []
  | ptr a => match h !! a with Some o => epsilons o | None => [] end
  end.

(** Reachability along epsilon edges, in zero or more steps. *)
Inductive reach (h : heap) : node → node → Prop :=
| reach_refl n : reach h n n
| reach_step n e m : e ∈ eps_of h n → reach h e m → reach h n m.

(** A set is epsilon-closed when it holds the epsilon successors of each of
    its members. *)
Definition closed (h : heap) (s : nodeSet) : Prop :=
  ∀ n e, n ∈ s → e ∈ eps_of h n → e ∈ s.

(** Pointers that the heap holds. *)
Definition valid (h : heap) (n : node) : Prop :=
  match n with nil => False | ptr a => (a < length h)%nat end.

#[global] Instance valid_dec h n : Decision (valid h n).
Proof. destruct n; simpl; apply _. Defined.

(** Go never leaves a dangling pointer; a heap is well formed when, in
    addition, no epsilon list holds [nil]. *)
Definition heap_wf (h : heap) : Prop :=
  Forall (λ o, Forall (valid h) (epsilons o)) h.

#[global] Instance closed_dec h s : Decision (closed h s).
Proof.
  refine (cast_if (decide (set_Forall
            (λ n, Forall (λ e, e ∈ s) (eps_of h n)) s)));
    unfold closed, set_Forall in *.
  - intros n e Hn He. specialize (s0 n Hn).
    rewrite Forall_forall in s0. by apply s0.
  - intros Hc. apply n. intros m Hm. apply Forall_forall. eauto.
Defined.

(** The invariant of the recursion of [add]: [G] holds the nodes whose
    epsilon lists are still being traversed by enclosing calls; every other
    member of the set has its successors in the set. *)
Definition closed_but (h : heap) (G : node → Prop) (s : nodeSet) : Prop :=
  ∀ m e, m ∈ s → ¬ G m → e ∈ eps_of h m → e ∈ s.

Record add_post (h : heap) (G : node → Prop) (s : nodeSet) (n : node)
    (s' : nodeSet) : Prop :=
  { add_post_mono : s ⊆ s';
    add_post_in : n ∈ s';
    add_post_closed : closed_but h G s';
    add_post_reach : ∀ m, m ∈ s' → m ∈ s ∨ reach h n m }.

(** The pointers to all the objects of a heap. *)
Definition heap_nodes (h : heap) : nodeSet :=
  list_to_set (ptr <$> seq 0 (length h)).

(** The heap of the compiled pattern [a*]: the literal, the star junction
    and the terminal. *)
Definition star_heap : heap :=
  [literalNode (MatchBase [ptr 1%nat] (ptr 1%nat)) 97;
   starNode [ptr 0%nat; ptr 2%nat];
   terminalNode []].

(** [strings.Repeat] *)
Fixpoint Repeat (s : string) (count : nat) : string :=
  match count with
  | O => ""
  | S k => (s ++ Repeat s k)%string
  end.

(** The heaps of the compiled patterns [a+] and [a?b]. *)
Definition plus_heap : heap :=
  [literalNode (MatchBase [] (ptr 1%nat)) 97;
   plusNode [ptr 0%nat; ptr 2%nat];
   terminalNode []].

Definition qmark_heap : heap :=
  [literalNode (MatchBase [ptr 1%nat] (ptr 1%nat)) 97;
   qmarkNode [ptr 2%nat];
   literalNode (MatchBase [] (ptr 3%nat)) 98;
   terminalNode []].

(** The rune that starts at byte [p] of a string, and its width. *)
Definition rune_at (inp : list Z) (p : nat) : rune :=
  (utf8.DecodeRuneInString (drop p inp)).1.

Definition width_at (inp : list Z) (p : nat) : nat :=
  (utf8.DecodeRuneInString (drop p inp)).2.

(** The metacharacters of the pattern syntax. *)
Definition is_meta (r : rune) : bool :=
  (r =? chr ".") || (r =? chr "?") || (r =? chr "+") || (r =? chr "*")
  || (r =? chr "(") || (r =? chr ")") || (r =? chr "|") || (r =? chr "\").

(** A literal node with no epsilon edges. *)
Definition lit (r : rune) (nx : node) : object :=
  literalNode (MatchBase [] nx) r.

(** What the parser has built after reading the literals [rs]: node [i]
    accepts [rs !! i] and leads to node [i + 1]; the successor of the last
    node is still unset. *)
Definition open_chain (h : heap) (rs : list rune) : Prop :=
  length h = length rs
  ∧ ∀ i r, rs !! i = Some r →
      h !! i = Some (lit r (if decide (S i = length rs) then nil else ptr (S i))).

(** The fragment for the chain of the literals [rs]. *)
Definition chain_expr (rs : list rune) : expr :=
  match rs with
  | [] => empty_expr
  | _ => Expr (ptr 0%nat) (ptr (length rs - 1))
  end.

(** The compiled pattern: the chain of literals closed by the terminal. *)
Definition compiled_chain (h : heap) (rs : list rune) : Prop :=
  length h = S (length rs)
  ∧ (∀ i r, rs !! i = Some r → h !! i = Some (lit r (ptr (S i))))
  ∧ h !! length rs = Some (terminalNode []).

(** Wiring a fragment whose exit is [o] at address [a] to the entry of the
    next fragment: through [setNext] when [o] is a match node, through
    [addEpsilon] otherwise. *)
Definition wire (nx : node) (o : object) : object :=
  if is_matchNode o then setNext nx o else addEpsilon nx o.

(** The heap of a literal [c] under [+]. *)
Definition plus_heap_of (c : rune) : heap :=
  [lit c (ptr 1%nat); plusNode [ptr 0%nat; ptr 2%nat]; terminalNode []].

(** The smiling face U+1F603, four bytes in UTF-8. *)
Definition smiley : string :=
  String "240" (String "159" (String "152" (String "131" EmptyString))).

(** The replacement character U+FFFD, three bytes in UTF-8. *)
Definition replacement_char : string :=
  String "239" (String "191" (String "189" EmptyString)).

(** The exit [n] of a fragment is wired to [m]: [m] is its consuming
    successor when it is a match node, and one of its epsilon successors
    otherwise. *)
Definition wired (h : heap) (n m : node) : Prop :=
  match n with
  | nil => False
  | ptr a =>
    match h !! a with
    | Some o => if is_matchNode o then next o = m else m ∈ epsilons o
    | None => False
    end
  end.

#[global] Instance wired_dec h n m : Decision (wired h n m).
Proof.
  unfold wired. destruct n; [apply _|].
  destruct (h !! a) as [o|]; [|apply _].
  destruct (is_matchNode o); apply _.
Defined.

(** The scanner and the graph of [a|b] when the parser reaches the [|]:
    the literal [a] has been read and is the clause so far. *)
Definition pipe_state : state :=
  State (Parser (bytes_of_string "a|b") 1 0) [lit 97 nil].

Definition pipe_lhs : expr := Expr (ptr 0%nat) (ptr 0%nat).

Definition pipe_heap : heap :=
  [lit 97 (ptr 2%nat);
   literalNode (MatchBase [ptr 0%nat] (ptr 2%nat)) 98;
   pipeNode []].

(** [retarget] replaces the pattern text of the scanner in a result.  A
    graph operation neither reads nor moves the scanner: run on another
    scanner, it gives the same result with that scanner in it. *)
Definition set_in (inp : list Z) (st : state) : state :=
  State (Parser inp (pos (st_p st)) (width (st_p st))) (st_heap st).

Definition retarget {A} (inp : list Z) (r : result (A * state))
  : result (A * state) :=
  match r with
  | Ok (a, st) => Ok (a, set_in inp st)
  | Err e => Err e
  | Panic => Panic
  | OutOfFuel => OutOfFuel
  end.

Definition with_parser {A} (pr : parser) (r : result (A * state))
  : result (A * state) :=
  match r with
  | Ok (a, st) => Ok (a, State pr (st_heap st))
  | Err e => Err e
  | Panic => Panic
  | OutOfFuel => OutOfFuel
  end.

Definition graph_op {A} (m : M A) : Prop :=
  ∀ pr pr' h, m (State pr' h) = with_parser pr' (m (State pr h)).

(** An outcome obtained with less fuel is out-of-fuel or the same. *)
Definition grows {A} (r r' : result A) : Prop := r = OutOfFuel ∨ r' = r.

Definition M_grows {A} (m m' : M A) : Prop := ∀ st, grows (m st) (m' st).

(** Graph operations do not depend on fuel. *)
Definition total_op {A} (m : M A) : Prop := ∀ st, m st ≠ OutOfFuel.

(** [hoare m st Q]: from [st], [m] does not run out of fuel, and if it
    returns, its value and final state satisfy [Q]. *)
Definition hoare {A} (m : M A) (st : state) (Q : A → state → Prop) : Prop :=
  match m st with
  | Ok (a, st') => Q a st'
  | OutOfFuel => False
  | _ => True
  end.

(** ** The inner loop of [MatchString] *)

(** One turn of the inner loop of [MatchString], on the outcome so far. *)
Definition advance_step (h : heap) (r : rune) (acc : result nodeSet)
    (n : node) : result nodeSet :=
  nx ← acc;
  match n with
  | nil => Ok nx
  | ptr a =>
    match h !! a with
    | None => Panic
    | Some m =>
      if is_matchNode m && matches m r then add h nx (next m) else Ok nx
    end
  end.

(** The outcomes of the inner loop: a panic, or an epsilon-closed set of
    valid nodes. *)
Definition good_set (h : heap) (acc : result nodeSet) : Prop :=
  match acc with
  | Ok s => closed h s ∧ ∀ m, m ∈ s → valid h m
  | Panic => True
  | _ => False
  end.

(** [MatchString]'s loop with the live nodes visited in the order [enum]. *)
Fixpoint MatchString_loop_by (enum : nodeSet → list node) (h : heap)
    (term : node) (cur next_ : nodeSet) (rs : list rune) : result bool :=
  match rs with
  | [] => Ok (bool_decide (term ∈ cur))
  | r :: rs =>
    nx ← advance h r (enum cur) next_;
    if (size nx =? 0)%nat then Ok false
    else MatchString_loop_by enum h term nx (clear cur) rs
  end.

(** ** Runs of the automaton *)

(** Every edge of the graph leads to a node of the heap: no epsilon list
    holds [nil], and every match node has its successor. *)
Definition graph_wf (h : heap) : Prop :=
  heap_wf h ∧ Forall (λ o, is_matchNode o = true → valid h (next o)) h.

(** [consumes h r n m]: [n] is a match node that accepts the rune [r] and
    leads to [m]. *)
Definition consumes (h : heap) (r : rune) (n m : node) : Prop :=
  ∃ a o, n = ptr a ∧ h !! a = Some o ∧ is_matchNode o = true
         ∧ matches o r = true ∧ next o = m.

(** [accepts h n rs t]: a path from [n] to [t] that reads the runes [rs],
    along epsilon edges and one consuming edge for each rune. *)
Inductive accepts (h : heap) : node → list rune → node → Prop :=
| accepts_nil n t : reach h n t → accepts h n [] t
| accepts_cons n k m r rs t :
    reach h n k → consumes h r k m → accepts h m rs t →
    accepts h n (r :: rs) t.

(** ** Graphs under construction *)

(** While the parser runs, the exits of the fragments built so far may be
    match nodes whose successor is not set yet.  [open_wf h D]: every
    epsilon edge leads to a node, and every match node has its successor
    or is one of the pending exits [D]. *)
Definition open_wf (h : heap) (D : node → Prop) : Prop :=
  heap_wf h
  ∧ ∀ a o, h !! a = Some o → is_matchNode o = true →
           valid h (next o) ∨ D (ptr a).

(** A fragment is empty, or its entry and its exit are nodes of the heap. *)
Definition expr_ok (h : heap) (e : expr) : Prop :=
  e = empty_expr ∨ (valid h (e_start e) ∧ valid h (e_end e)).

(** [ensures m st Q]: if [m] returns from [st], its value and final state
    satisfy [Q]. *)
Definition ensures {A} (m : M A) (st : state) (Q : A → state → Prop) : Prop :=
  ∀ a st', m st = Ok (a, st') → Q a st'.

(** From [st] to [st'] the parser has kept the pattern text, and has
    allocated at most one node for each byte that it has read. *)
Definition grown (st st' : state) : Prop :=
  p_in (st_p st') = p_in (st_p st)
  ∧ (length (st_heap st) ≤ length (st_heap st'))%nat
  ∧ (length (st_heap st') + pos (st_p st)
     ≤ length (st_heap st) + pos (st_p st'))%nat.

(** What a call of the parser leaves behind when it returns the fragment
    [e]: the fragment is in the heap, and its exit is the only new pending
    exit. *)
Definition built (D : node → Prop) (st : state) (e : expr) (st' : state)
  : Prop :=
  grown st st'
  ∧ expr_ok (st_heap st') e
  ∧ open_wf (st_heap st') (λ n, D n ∨ n = e_end e).

Definition builds_clause (rec : M expr) : Prop :=
  ∀ D st, open_wf (st_heap st) D → ensures rec st (built D st).

#[global] Instance graph_wf_dec h : Decision (graph_wf h).
Proof. unfold graph_wf, heap_wf. apply _. Defined.

(** [MatchString] with the live nodes visited in the order [enum]. *)
Definition MatchString_by (enum : nodeSet → list node) (h : heap)
    (r : Regexp) (input : string) : result bool :=
  cur ← add h ∅ (r_start r);
  MatchString_loop_by enum h (r_term r) cur ∅ (runes (bytes_of_string input)).

(** ** The graphs of small patterns *)

(** The graph of the pattern [.]: the dot node and the terminal. *)
Definition dot_heap : heap :=
  [dotNode (MatchBase [] (ptr 1%nat)); terminalNode []].

(** The graph of the pattern [.*]. *)
Definition dot_star_heap : heap :=
  [dotNode (MatchBase [ptr 1%nat] (ptr 1%nat));
   starNode [ptr 0%nat; ptr 2%nat];
   terminalNode []].

(** The graphs of a literal [c] under [*] and under [?]. *)
Definition star_heap_of (c : rune) : heap :=
  [literalNode (MatchBase [ptr 1%nat] (ptr 1%nat)) c;
   starNode [ptr 0%nat; ptr 2%nat];
   terminalNode []].

Definition qmark_heap_of (c : rune) : heap :=
  [literalNode (MatchBase [ptr 1%nat] (ptr 1%nat)) c;
   qmarkNode [ptr 2%nat];
   terminalNode []].

(** The graph of [c] followed by the quantifier character [q]. *)
Definition quantified_heap (q c : rune) : heap :=
  if q =? chr "+" then plus_heap_of c
  else if q =? chr "*" then star_heap_of c
  else qmark_heap_of c.

(** The characters that a backslash turns into literals. *)
Definition is_escapable (r : rune) : bool :=
  (r =? chr "?") || (r =? chr "*") || (r =? chr "+")
  || (r =? chr "(") || (r =? chr ")") || (r =? chr "|").

(** The graph of the pattern [a|b*]: the literals [a] and [b], the star
    junction, the pipe junction and the terminal.  The entry is the
    literal [b]; it carries the epsilon edge to the left operand. *)
Definition alt_star_heap : heap :=
  [lit 97 (ptr 3%nat);
   literalNode (MatchBase [ptr 2%nat; ptr 0%nat] (ptr 2%nat)) 98;
   starNode [ptr 1%nat; ptr 3%nat];
   pipeNode [ptr 4%nat];
   terminalNode []].

(** ** The syntax of patterns *)

(** The runes of the patterns that the parser accepts, as a grammar:
    an atom is a literal rune (any rune but the metacharacters and
    [utf8.RuneError]), a dot, an escaped metacharacter or a group; a
    term is an atom, with or without a quantifier; a clause is a
    sequence of terms, or a non-empty sequence of terms, a [|] and a
    non-empty clause. *)
Inductive Atom : list rune → Prop :=
| Atom_literal r : is_meta r = false → r ≠ utf8.RuneError → Atom [r]
| Atom_dot : Atom [chr "."]
| Atom_escape r : is_escapable r = true → Atom [chr "\"; r]
| Atom_group cs : Clause cs → Atom (chr "(" :: cs ++ [chr ")"])
with Term : list rune → Prop :=
| Term_atom a : Atom a → Term a
| Term_quantified a q : Atom a → is_quantifier q = true → Term (a ++ [q])
with Terms : list rune → Prop :=
| Terms_nil : Terms []
| Terms_cons t ts : Term t → Terms ts → Terms (t ++ ts)
with Clause : list rune → Prop :=
| Clause_terms ts : Terms ts → Clause ts
| Clause_alt ts cs :
    Terms ts → ts ≠ [] → Clause cs → cs ≠ [] →
    Clause (ts ++ chr "|" :: cs).

Scheme Atom_mut := Minimality for Atom Sort Prop
  with Term_mut := Minimality for Term Sort Prop
  with Terms_mut := Minimality for Terms Sort Prop
  with Clause_mut := Minimality for Clause Sort Prop.

Combined Scheme syntax_mut from Atom_mut, Term_mut, Terms_mut, Clause_mut.

(** What the clause loop reads when it starts with the fragment [e]: a
    clause, whose alternation may have no terms of its own to the left
    of the [|] when [e] already holds some ([P]). *)
Definition Tail (P : Prop) (cs : list rune) : Prop :=
  Terms cs
  ∨ ∃ ts cs', cs = ts ++ chr "|" :: cs' ∧ Terms ts ∧ (P ∨ ts ≠ [])
              ∧ Clause cs' ∧ cs' ≠ [].

(** The dispatch of [parseTerm] on the first rune of an atom. *)
Definition parse_atom (rec : M expr) (r : rune) : M expr :=
  if r =? chr "(" then parseSubexp rec
  else if r =? chr "\" then parseEscape
  else if r =? chr "." then parseDot
  else parseLiteral.

(** [proceeds m st Q]: from [st], [m] neither fails nor panics, and if it
    returns, its value and final state satisfy [Q]. *)
Definition proceeds {A} (m : M A) (st : state) (Q : A → state → Prop) : Prop :=
  match m st with
  | Ok (a, st') => Q a st'
  | OutOfFuel => True
  | _ => False
  end.

(** The runes at which a term starts, and those that follow the terms of
    a clause. *)
Definition starts_term (r : rune) : Prop :=
  is_quantifier r = false
  ∧ (r =? utf8.RuneError) || (r =? chr ")") = false
  ∧ (r =? chr "|") = false.

Definition ends_terms (r : rune) : Prop :=
  r = utf8.RuneError ∨ r = chr ")" ∨ r = chr "|".

(** [Compile] returns a compiled pattern. *)
Definition compiles (pattern : string) : Prop :=
  ∃ r h, Compile pattern = Ok (r, h).

(** * Properties *)

(** ** The outcome monads *)

Lemma result_bind_Ok {A B} (m : result A) (f : A → result B) b :
  m ≫= f = Ok b ↔ ∃ a, m = Ok a ∧ f a = Ok b.
Proof.
  destruct m; simpl; split; try (intros (? & ? & ?)); try done; eauto.
  by simplify_eq.
Qed.

Lemma foldl_result_not_Ok {A B} (f : A → B → result A) (l : list B) r :
  (∀ a, r ≠ Ok a) → foldl (λ acc b, a ← acc; f a b) r l = r.
Proof.
  intros Hr. induction l as [|b l IH]; [done|]. simpl.
  destruct r; simpl; try apply IH; try done. by destruct (Hr a).
Qed.

Lemma foldl_result_Ok_inv {A B} (f : A → B → result A) (l : list B) r a' :
  foldl (λ acc b, a ← acc; f a b) r l = Ok a' → ∃ a, r = Ok a.
Proof.
  intros Hf. destruct r; eauto;
    rewrite foldl_result_not_Ok in Hf; done.
Qed.

(** ** The UTF-8 decoder *)

Lemma first_cases b :
  (b < 0x80 ∧ utf8.first b = utf8.as_)
  ∨ (0x80 ≤ b < 0xC2 ∧ utf8.first b = utf8.xx)
  ∨ (0xC2 ≤ b < 0xE0 ∧ utf8.first b = utf8.s1)
  ∨ (b = 0xE0 ∧ utf8.first b = utf8.s2)
  ∨ (0xE1 ≤ b < 0xED ∧ utf8.first b = utf8.s3)
  ∨ (b = 0xED ∧ utf8.first b = utf8.s4)
  ∨ (0xEE ≤ b < 0xF0 ∧ utf8.first b = utf8.s3)
  ∨ (b = 0xF0 ∧ utf8.first b = utf8.s5)
  ∨ (0xF1 ≤ b < 0xF4 ∧ utf8.first b = utf8.s6)
  ∨ (b = 0xF4 ∧ utf8.first b = utf8.s7)
  ∨ (0xF5 ≤ b ∧ utf8.first b = utf8.xx).
Proof.
  unfold utf8.first.
  repeat match goal with
         | |- context [if (b <? ?c) then _ else _] =>
           destruct (Z.ltb_spec b c); [left; split; [lia|done]|right]
         | |- context [if (b =? ?c) then _ else _] =>
           destruct (Z.eqb_spec b c); [left; split; [lia|done]|right]
         end.
  split; [lia|done].
Qed.

Lemma first_values b :
  utf8.first b = utf8.as_ ∨ utf8.first b = utf8.xx
  ∨ utf8.first b = utf8.s1 ∨ utf8.first b = utf8.s2
  ∨ utf8.first b = utf8.s3 ∨ utf8.first b = utf8.s4
  ∨ utf8.first b = utf8.s5 ∨ utf8.first b = utf8.s6
  ∨ utf8.first b = utf8.s7.
Proof.
  destruct (first_cases b)
    as [[_ ->]|[[_ ->]|[[_ ->]|[[_ ->]|[[_ ->]|[[_ ->]|[[_ ->]
       |[[_ ->]|[[_ ->]|[[_ ->]|[_ ->]]]]]]]]]]]; tauto.
Qed.

(** Case analysis on a call of the decoder: on the class of the first
    byte, then on the range tests of the continuation bytes. *)
Ltac decode_first b :=
  unfold utf8.DecodeRuneInString;
  let Hf := fresh "Hf" in
  destruct (first_values b)
    as [Hf|[Hf|[Hf|[Hf|[Hf|[Hf|[Hf|[Hf|Hf]]]]]]]];
  rewrite !Hf; simpl.

Ltac decode_first_range b :=
  unfold utf8.DecodeRuneInString;
  let Hb := fresh "Hb" in
  let Hf := fresh "Hf" in
  destruct (first_cases b)
    as [[Hb Hf]|[[Hb Hf]|[[Hb Hf]|[[Hb Hf]|[[Hb Hf]|[[Hb Hf]|[[Hb Hf]
       |[[Hb Hf]|[[Hb Hf]|[[Hb Hf]|[Hb Hf]]]]]]]]]]];
  rewrite !Hf; simpl.

Ltac decode_tests :=
  unfold utf8.locb, utf8.hicb in *;
  repeat match goal with
         | |- context [(?a <? ?c)%Z] => destruct (Z.ltb_spec a c)
         end; simpl; try done; try lia;
  repeat match goal with
         | |- context [if ?c then _ else _] => destruct c
         end; try done.

Lemma decode_nil : utf8.DecodeRuneInString [] = (utf8.RuneError, 0%nat).
Proof. done. Qed.

(** A rune of a non-empty string is at least one byte wide and lies within
    the string. *)
Lemma decode_width b l :
  (1 ≤ (utf8.DecodeRuneInString (b :: l)).2 ≤ length (b :: l))%nat.
Proof.
  destruct l as [|b1 [|b2 [|b3 l]]]; decode_first b; decode_tests.
Qed.

Lemma decode_ascii b l :
  0 ≤ b < 128 → utf8.DecodeRuneInString (b :: l) = (b, 1%nat).
Proof.
  intros Hb. unfold utf8.DecodeRuneInString, utf8.first.
  destruct (Z.ltb_spec b 128); [done|lia].
Qed.

(** An ASCII byte never continues a rune: bytes appended after an ASCII
    byte do not change what the string in front of it decodes to. *)
Lemma decode_app_ascii s c v :
  s ≠ [] → 0 ≤ c < 128 →
  utf8.DecodeRuneInString (s ++ c :: v) = utf8.DecodeRuneInString s.
Proof.
  intros Hs Hc. destruct s as [|b [|b1 [|b2 [|b3 l]]]]; [done|..];
    simpl app; decode_first b; decode_tests.
Qed.

(** A rune that is more than one byte wide was decoded from bytes that are
    all there: appending to the string does not change it. *)
Lemma decode_app_wide s t :
  (2 ≤ (utf8.DecodeRuneInString s).2)%nat →
  utf8.DecodeRuneInString (s ++ t) = utf8.DecodeRuneInString s.
Proof.
  destruct s as [|b [|b1 [|b2 [|b3 l]]]]; [simpl; lia|..];
    simpl app; decode_first b; decode_tests.
Qed.

(** ** Epsilon edges, reachability and closed sets *)

Lemma valid_ptr h n : valid h n ↔ ∃ a, n = ptr a ∧ (a < length h)%nat.
Proof.
  destruct n; simpl; split; try done.
  - by intros (? & ? & ?).
  - eauto.
  - by intros (? & [= ->] & ?).
Qed.

Lemma heap_wf_lookup h a o e :
  heap_wf h → h !! a = Some o → e ∈ epsilons o → valid h e.
Proof.
  intros Hwf Ho He. unfold heap_wf in Hwf.
  rewrite Forall_forall in Hwf.
  specialize (Hwf o (list_elem_of_lookup_2 _ _ _ Ho)).
  rewrite Forall_forall in Hwf. by apply Hwf.
Qed.

Lemma closed_reach h s n m : closed h s → n ∈ s → reach h n m → m ∈ s.
Proof. intros Hc Hn Hr. induction Hr; eauto. Qed.

Lemma reach_trans h a b c : reach h a b → reach h b c → reach h a c.
Proof. induction 1; eauto using reach. Qed.

(** *** Partial correctness of [add] *)

Lemma add_fuel_post fuel h : ∀ G s n s',
  closed_but h G s → add_fuel fuel h s n = Ok s' → add_post h G s n s'.
Proof.
  induction fuel as [|fuel IH]; intros G s n s' HG Hadd; [done|].
  simpl in Hadd. destruct (decide (n ∈ s)) as [Hin|Hin].
  { simplify_eq. split; eauto. }
  destruct n as [|a]; [done|].
  destruct (h !! a) as [o|] eqn:Ho; [|done].
  (* the loop over the epsilons of [n] *)
  assert (Hloop : ∀ es s1 s2,
    closed_but h (λ m, G m ∨ m = ptr a) s1 →
    foldl (λ acc e, s ← acc; add_fuel fuel h s e) (Ok s1) es = Ok s2 →
    s1 ⊆ s2 ∧ (∀ e, e ∈ es → e ∈ s2) ∧
    closed_but h (λ m, G m ∨ m = ptr a) s2 ∧
    (∀ m, m ∈ s2 → m ∈ s1 ∨ ∃ e, e ∈ es ∧ reach h e m)).
  { induction es as [|e es IHes]; intros s1 s2 H1 Hf; simpl in Hf.
    - simplify_eq. split_and!; eauto. intros e He. by apply elem_of_nil in He.
    - destruct (add_fuel fuel h s1 e) as [s1'| | |] eqn:He;
        try (rewrite foldl_result_not_Ok in Hf; done).
      destruct (IH _ _ _ _ H1 He) as [Hm Hi Hc Hr].
      destruct (IHes _ _ Hc Hf) as (Hm' & Hi' & Hc' & Hr').
      split_and!; [set_solver| |done|].
      + intros e' [->|He']%elem_of_cons; [set_solver|eauto].
      + intros m Hm2. destruct (Hr' m Hm2) as [Hm1|(e' & He' & Hre)].
        * destruct (Hr m Hm1) as [?|?]; [by left|right].
          exists e. split; [left|done].
        * right. exists e'. split; [by right|done]. }
  destruct (Hloop (epsilons o) ({[ptr a]} ∪ s) s') as (Hm & Hi & Hc & Hr);
    [|done|].
  { intros m e Hm HGm He. apply elem_of_union in Hm as [Hm|Hm].
    - apply elem_of_singleton in Hm. destruct HGm. by right.
    - apply elem_of_union_r. apply (HG m e); [done| |done].
      intros ?. apply HGm. by left. }
  split.
  - set_solver.
  - set_solver.
  - intros m e Hm0 HGm He. destruct (decide (m = ptr a)) as [->|Hne].
    + apply Hi. simpl in He. by rewrite Ho in He.
    + apply (Hc m e); [done| |done]. by intros [?|?].
  - intros m Hm2. destruct (Hr m Hm2) as [Hm1|(e & He & Hre)].
    + apply elem_of_union in Hm1 as [Hm1|Hm1]; [|by left].
      apply elem_of_singleton in Hm1 as ->. right. constructor.
    + right. apply reach_step with e; [|done]. simpl. by rewrite Ho.
Qed.

Lemma add_fuel_mono fuel h s n s' : add_fuel fuel h s n = Ok s' → s ⊆ s'.
Proof.
  intros Hadd. eapply (add_fuel_post fuel h (λ _, True)); [|done].
  intros m e _ HG. by destruct HG.
Qed.

(** Adding a member changes nothing: the source returns at once. *)
Lemma add_member h s n : n ∈ s → add h s n = Ok s.
Proof. intros Hin. unfold add. simpl. by rewrite decide_True. Qed.

(** *** [add] returns *)

Lemma elem_of_heap_nodes h n : n ∈ heap_nodes h ↔ valid h n.
Proof.
  unfold heap_nodes. rewrite elem_of_list_to_set, list_elem_of_fmap.
  rewrite valid_ptr. split.
  - intros (a & -> & Ha). apply elem_of_seq in Ha. exists a. split; [done|lia].
  - intros (a & -> & Ha). exists a. split; [done|]. apply elem_of_seq. lia.
Qed.

Lemma size_heap_nodes h : size (heap_nodes h) = length h.
Proof.
  unfold heap_nodes. rewrite size_list_to_set.
  - by rewrite length_fmap, length_seq.
  - apply NoDup_fmap_2; [by intros ?? [=]|apply NoDup_seq].
Qed.

Lemma add_fuel_returns fuel h : ∀ s n,
  heap_wf h → valid h n → (size (heap_nodes h ∖ s) < fuel)%nat →
  ∃ s', add_fuel fuel h s n = Ok s'.
Proof.
  induction fuel as [|fuel IH]; intros s n Hwf Hn Hsz; [lia|].
  simpl. destruct (decide (n ∈ s)) as [Hin|Hin]; [eauto|].
  apply valid_ptr in Hn as (a & -> & Ha).
  destruct (lookup_lt_is_Some_2 h a Ha) as [o Ho]. rewrite Ho.
  assert (Hlt : (size (heap_nodes h ∖ ({[ptr a]} ∪ s)) < fuel)%nat).
  { apply Nat.lt_le_trans with (size (heap_nodes h ∖ s)); [|lia].
    apply subset_size. apply strict_spec_alt. split; [set_solver|].
    intros Heq. assert (Hin' : ptr a ∈ heap_nodes h ∖ s).
    { apply elem_of_difference. split; [|done].
      by apply elem_of_heap_nodes. }
    rewrite <- Heq in Hin'. set_solver. }
  assert (Hes : ∀ e, e ∈ epsilons o → valid h e)
    by (intros e He; by eapply heap_wf_lookup).
  revert Hes Hlt. generalize ({[ptr a]} ∪ s). generalize (epsilons o).
  induction l as [|e es IHes]; intros s1 Hes Hlt; simpl; [eauto|].
  destruct (IH s1 e Hwf) as [s1' He]; [apply Hes; by left|done|].
  rewrite He. apply IHes.
  - intros e' He'. apply Hes. by right.
  - apply Nat.le_lt_trans with (size (heap_nodes h ∖ s1)); [|done].
    apply subseteq_size. apply add_fuel_mono in He. set_solver.
Qed.

Lemma add_returns h s n : heap_wf h → valid h n → ∃ s', add h s n = Ok s'.
Proof.
  intros Hwf Hn. apply add_fuel_returns; [done..|].
  apply Nat.le_lt_trans with (size (heap_nodes h)).
  - apply subseteq_size. set_solver.
  - rewrite size_heap_nodes. lia.
Qed.

Lemma clear_empty (s : nodeSet) : clear s = ∅.
Proof.
  unfold clear. apply set_eq. intros n. split; [|set_solver].
  assert (H : ∀ l (t : nodeSet), n ∈ foldl (λ acc m, acc ∖ {[m]}) t l →
                n ∈ t ∧ n ∉ l).
  { induction l as [|m l IH]; intros t Hn; simpl in *; [set_solver|].
    apply IH in Hn. set_solver. }
  intros Hn. apply H in Hn as [Hn1 Hn2]. by apply elem_of_elements in Hn1.
Qed.

(** ** C9: the live-node set *)

Lemma star_heap_compiled :
  Compile "a*" = Ok (Build_Regexp (ptr 0%nat) (ptr 2%nat) "a*", star_heap).
Proof. vm_compute. reflexivity. Qed.

(** C9, as stated, fails on a set that is not epsilon-closed: in the heap of
    [a*] the star node has the terminal as epsilon successor; adding the
    star node to the set that holds only the star node returns at once, and
    the terminal, which is epsilon-reachable from it, is not in the set. *)
Lemma nodeSet_add_not_closing :
  add star_heap {[ptr 1%nat]} (ptr 1%nat) = Ok {[ptr 1%nat]}
  ∧ reach star_heap (ptr 1%nat) (ptr 2%nat)
  ∧ ptr 2%nat ∉ ({[ptr 1%nat]} : nodeSet).
Proof.
  split_and!.
  - vm_compute. reflexivity.
  - apply reach_step with (ptr 2%nat); [|constructor].
    compute_done.
  - compute_done.
Qed.

(** C9 (amended): adding a node that is already present leaves the set
    unchanged, on every heap and for every set.  On a well-formed heap,
    for every node set [s] and every node [n] of the heap, [add] returns a
    set that is free of duplicates and holds [s] and [n]; when [s] is
    epsilon-closed (the empty set is, and so is every set that [add]
    returns from one), the result is again epsilon-closed, it holds every
    node epsilon-reachable from [n], and it holds nothing else new. *)
Theorem nodeSet_add_closure (h : heap) (s : nodeSet) (n : node) :
  (∀ m, m ∈ s → add h s m = Ok s)
  ∧ (heap_wf h → valid h n →
     ∃ s', add h s n = Ok s'
           ∧ NoDup (elements s')
           ∧ s ⊆ s'
           ∧ n ∈ s'
           ∧ (closed h s →
              closed h s'
              ∧ (∀ m, reach h n m → m ∈ s')
              ∧ (∀ m, m ∈ s' ↔ m ∈ s ∨ reach h n m))).
Proof.
  split; [intros m Hm; by apply add_member|].
  intros Hwf Hn. destruct (add_returns h s n Hwf Hn) as [s' Hadd].
  exists s'. split; [done|].
  destruct (add_fuel_post (S (length h)) h (λ _, True) s n s')
    as [Hm Hi _ _]; [|exact Hadd|].
  { intros m e _ HG. by destruct HG. }
  split_and!; [apply NoDup_elements|done|done|].
  intros Hs.
  destruct (add_fuel_post (S (length h)) h (λ _, False) s n s')
    as [_ _ Hc Hr]; [|exact Hadd|].
  { intros m e Hm' _ He. by apply (Hs m e). }
  assert (Hs' : closed h s').
  { intros m e Hm' He. apply (Hc m e); [done| |done]. by intros []. }
  split_and!; [done| |].
  - intros m Hreach. by apply (closed_reach h s' n m).
  - intros m. split; [apply Hr|].
    intros [Hms|Hreach]; [by apply Hm|by apply (closed_reach h s' n m)].
Qed.

Lemma nodeSet_add_closure_witness :
  add star_heap {[ptr 2%nat]} (ptr 2%nat) = Ok {[ptr 2%nat]}
  ∧ ∃ s', add star_heap {[ptr 2%nat]} (ptr 0%nat) = Ok s'
          ∧ NoDup (elements s')
          ∧ ({[ptr 2%nat]} : nodeSet) ⊆ s'
          ∧ ptr 0%nat ∈ s'
          ∧ closed star_heap s'
          ∧ (∀ m, reach star_heap (ptr 0%nat) m → m ∈ s')
          ∧ (∀ m, m ∈ s'
                  ↔ m ∈ ({[ptr 2%nat]} : nodeSet)
                    ∨ reach star_heap (ptr 0%nat) m).
Proof.
  destruct (nodeSet_add_closure star_heap {[ptr 2%nat]} (ptr 0%nat))
    as [Hidem Hadd].
  split.
  - apply Hidem. by apply elem_of_singleton.
  - destruct Hadd as (s' & Hs' & Hnd & Hsub & Hin & Hcl);
      [compute_done|compute_done|].
    destruct Hcl as (Hc & Hr & Hx); [compute_done|].
    exists s'. by split_and!.
Defined.

(** ** Matching on a given heap *)

Lemma MatchString_loop_step h t cur nx r rs nx' :
  advance h r (elements cur) nx = Ok nx' → size nx' ≠ 0%nat →
  MatchString_loop h t cur nx (r :: rs) = MatchString_loop h t nx' ∅ rs.
Proof.
  intros Hadv Hsz. simpl. rewrite Hadv. simpl.
  destruct (Nat.eqb_spec (size nx') 0); [done|]. by rewrite clear_empty.
Qed.

Lemma MatchString_loop_dead h t cur nx r rs :
  advance h r (elements cur) nx = Ok ∅ →
  MatchString_loop h t cur nx (r :: rs) = Ok false.
Proof. intros Hadv. simpl. by rewrite Hadv. Qed.

(** ** The order in which the live nodes are visited

    [for n := range cur] visits the members of the map in an order that Go
    leaves open; [advance] takes the order of [elements].  The result is
    the same for every order. *)

Lemma reach_valid h n m : heap_wf h → valid h n → reach h n m → valid h m.
Proof.
  intros Hwf Hn Hr. induction Hr as [|n e m He _ IH]; [done|].
  apply IH. apply valid_ptr in Hn as (a & -> & Ha). simpl in He.
  destruct (h !! a) as [o|] eqn:Ho; [|by apply elem_of_nil in He].
  by eapply heap_wf_lookup.
Qed.

Lemma add_invalid h s n : ¬ valid h n → n ∉ s → add h s n = Panic.
Proof.
  intros Hn Hs. unfold add. simpl. rewrite decide_False by done.
  destruct n as [|a]; [done|]. simpl in Hn.
  by rewrite lookup_ge_None_2 by lia.
Qed.

(** [add] on an epsilon-closed set of valid nodes. *)
Lemma add_closed h s n :
  heap_wf h → closed h s → (∀ m, m ∈ s → valid h m) →
  match add h s n with
  | Ok s' => valid h n ∧ closed h s' ∧ (∀ m, m ∈ s' ↔ m ∈ s ∨ reach h n m)
  | Panic => ¬ valid h n
  | _ => False
  end.
Proof.
  intros Hwf Hs Hv. destruct (decide (valid h n)) as [Hn|Hn].
  - destruct (add_returns h s n Hwf Hn) as [s' Hadd]. rewrite Hadd.
    destruct (add_fuel_post (S (length h)) h (λ _, False) s n s')
      as [Hm Hi Hc Hr]; [|exact Hadd|].
    { intros m e Hm _ He. by apply (Hs m e). }
    assert (Hs' : closed h s').
    { intros m e Hm' He. apply (Hc m e); [done| |done]. by intros []. }
    split_and!; [done..|]. intros m. split; [apply Hr|].
    intros [Hms|Hreach]; [by apply Hm|by apply (closed_reach h s' n m)].
  - rewrite add_invalid; [done..|]. intros Hin. by apply Hn, Hv.
Qed.

Lemma advance_foldl h r l nx :
  advance h r l nx = foldl (advance_step h r) (Ok nx) l.
Proof. done. Qed.

Lemma advance_step_good h r acc n :
  heap_wf h → good_set h acc → good_set h (advance_step h r acc n).
Proof.
  intros Hwf Hg. destruct acc as [s| | |]; try done. simpl.
  destruct n as [|a]; [done|]. destruct (h !! a) as [o|]; [|done].
  destruct (is_matchNode o && matches o r); [|done].
  destruct Hg as [Hc Hv].
  pose proof (add_closed h s (next o) Hwf Hc Hv) as Ha.
  destruct (add h s (next o)) as [s'| | |]; try done.
  destruct Ha as (Hn & Hc' & Hs'). split; [done|].
  intros m [Hm|Hm]%Hs'; [by apply Hv|exact (reach_valid h _ m Hwf Hn Hm)].
Qed.

Lemma add_add_comm h s a b :
  heap_wf h → closed h s → (∀ m, m ∈ s → valid h m) →
  (s' ← add h s a; add h s' b) = (s' ← add h s b; add h s' a).
Proof.
  intros Hwf Hc Hv.
  pose proof (add_closed h s a Hwf Hc Hv) as Ha.
  pose proof (add_closed h s b Hwf Hc Hv) as Hb.
  destruct (add h s a) as [sa| | |] eqn:Hsa; try done;
    destruct (add h s b) as [sb| | |] eqn:Hsb; try done; simpl.
  - destruct Ha as (Hva & Hca & Hsa'). destruct Hb as (Hvb & Hcb & Hsb').
    assert (Hvsa : ∀ m, m ∈ sa → valid h m).
    { intros m [Hm|Hm]%Hsa'; [by apply Hv|exact (reach_valid h a m Hwf Hva Hm)]. }
    assert (Hvsb : ∀ m, m ∈ sb → valid h m).
    { intros m [Hm|Hm]%Hsb'; [by apply Hv|exact (reach_valid h b m Hwf Hvb Hm)]. }
    pose proof (add_closed h sa b Hwf Hca Hvsa) as Hab.
    pose proof (add_closed h sb a Hwf Hcb Hvsb) as Hba.
    destruct (add h sa b) as [sab| | |]; try done;
      destruct (add h sb a) as [sba| | |]; try done.
    f_equal. apply set_eq. intros m.
    destruct Hab as (_ & _ & ->). destruct Hba as (_ & _ & ->).
    rewrite Hsa', Hsb'. tauto.
  - destruct Ha as (Hva & Hca & Hsa').
    assert (Hvsa : ∀ m, m ∈ sa → valid h m).
    { intros m [Hm|Hm]%Hsa'; [by apply Hv|exact (reach_valid h a m Hwf Hva Hm)]. }
    pose proof (add_closed h sa b Hwf Hca Hvsa) as Hab.
    destruct (add h sa b) as [sab| | |]; [|done..]. by destruct Hab as [? _].
  - destruct Hb as (Hvb & Hcb & Hsb').
    assert (Hvsb : ∀ m, m ∈ sb → valid h m).
    { intros m [Hm|Hm]%Hsb'; [by apply Hv|exact (reach_valid h b m Hwf Hvb Hm)]. }
    pose proof (add_closed h sb a Hwf Hcb Hvsb) as Hba.
    destruct (add h sb a) as [sba| | |]; [|done..]. by destruct Hba as [? _].
Qed.

Lemma advance_step_ptr h r acc a :
  advance_step h r acc (ptr a)
  = match h !! a with
    | None => _ ← acc; Panic
    | Some o =>
      if is_matchNode o && matches o r then nx ← acc; add h nx (next o)
      else acc
    end.
Proof.
  unfold advance_step. destruct acc, (h !! a) as [o|]; try done;
    by destruct (is_matchNode o && matches o r).
Qed.

Lemma advance_step_comm h r acc x y :
  heap_wf h → good_set h acc →
  advance_step h r (advance_step h r acc x) y
  = advance_step h r (advance_step h r acc y) x.
Proof.
  intros Hwf Hg. destruct acc as [s| | |]; try done.
  destruct Hg as [Hc Hv].
  destruct x as [|a], y as [|b]; try done.
  - rewrite !advance_step_ptr. destruct (h !! b) as [ob|]; [|done].
    destruct (is_matchNode ob && matches ob r); [|done].
    simpl. by destruct (add h s (next ob)).
  - rewrite !advance_step_ptr. destruct (h !! a) as [oa|]; [|done].
    destruct (is_matchNode oa && matches oa r); [|done].
    simpl. by destruct (add h s (next oa)).
  - rewrite !advance_step_ptr.
    destruct (h !! a) as [oa|], (h !! b) as [ob|]; try done.
    + destruct (is_matchNode oa && matches oa r),
        (is_matchNode ob && matches ob r); try done.
      by apply add_add_comm.
    + destruct (is_matchNode oa && matches oa r); [|done].
      pose proof (add_closed h s (next oa) Hwf Hc Hv).
      simpl. by destruct (add h s (next oa)).
    + destruct (is_matchNode ob && matches ob r); [|done].
      pose proof (add_closed h s (next ob) Hwf Hc Hv).
      simpl. by destruct (add h s (next ob)).
Qed.

Lemma advance_order_irrelevant h r l l' nx :
  heap_wf h → closed h nx → (∀ m, m ∈ nx → valid h m) →
  l ≡ₚ l' → advance h r l nx = advance h r l' nx.
Proof.
  intros Hwf Hc Hv Hp. rewrite !advance_foldl.
  assert (Hg : good_set h (Ok nx)) by done.
  revert Hg. generalize (Ok nx). induction Hp as [|x l l' _ IH|x y l|l1 l2 l3 _ IH1 _ IH2];
    intros acc Hg; simpl.
  - done.
  - apply IH. by apply advance_step_good.
  - by rewrite advance_step_comm.
  - by rewrite IH1, IH2.
Qed.

Lemma MatchString_loop_order h t enum rs : ∀ cur nx,
  (∀ s, enum s ≡ₚ elements s) →
  heap_wf h → closed h nx → (∀ m, m ∈ nx → valid h m) →
  MatchString_loop_by enum h t cur nx rs = MatchString_loop h t cur nx rs.
Proof.
  induction rs as [|r rs IH]; intros cur nx He Hwf Hc Hv; [done|]. simpl.
  rewrite (advance_order_irrelevant h r (enum cur) (elements cur)) by done.
  destruct (advance h r (elements cur) nx) as [nx'| | |]; try done. simpl.
  destruct (size nx' =? 0)%nat; [done|].
  rewrite clear_empty. apply IH; [done..| |].
  - intros m e Hm. by apply not_elem_of_empty in Hm.
  - intros m Hm. by apply not_elem_of_empty in Hm.
Qed.

(** ** Strings and their runes *)

Lemma bytes_of_string_app s t :
  bytes_of_string (s ++ t)%string = bytes_of_string s ++ bytes_of_string t.
Proof.
  unfold bytes_of_string. rewrite <- fmap_app. f_equal.
  induction s as [|c s IH]; simpl; [done|]. by rewrite IH.
Qed.

Lemma runes_ascii_cons b l : 0 ≤ b < 128 → runes (b :: l) = b :: runes l.
Proof.
  intros Hb. unfold runes. simpl.
  unfold utf8.DecodeRuneInString, utf8.first.
  destruct (Z.ltb_spec b 128); [|lia]. reflexivity.
Qed.

Lemma runes_Repeat_a n : runes (bytes_of_string (Repeat "a" n)) = replicate n 97.
Proof.
  induction n as [|n IH]; [done|].
  change (Repeat "a" (S n)) with (String "a" (Repeat "a" n)).
  change (bytes_of_string (String "a" (Repeat "a" n)))
    with (97 :: bytes_of_string (Repeat "a" n)).
  rewrite runes_ascii_cons by lia. by rewrite IH.
Qed.

(** ** C2: quantifiers *)

(** Once one [a] has been read, all three nodes of [a+] (and of [a*]) stay
    live for as long as the input goes on with [a]. *)
Lemma plus_loop n :
  MatchString_loop plus_heap (ptr 2%nat)
    {[ptr 0%nat; ptr 1%nat; ptr 2%nat]} ∅ (replicate n 97) = Ok true.
Proof.
  induction n as [|n IH]; [vm_compute; reflexivity|].
  simpl replicate.
  rewrite (MatchString_loop_step _ _ _ _ _ _
             {[ptr 0%nat; ptr 1%nat; ptr 2%nat]}) by compute_done.
  exact IH.
Qed.

Lemma star_loop n :
  MatchString_loop star_heap (ptr 2%nat)
    {[ptr 0%nat; ptr 1%nat; ptr 2%nat]} ∅ (replicate n 97) = Ok true.
Proof.
  induction n as [|n IH]; [vm_compute; reflexivity|].
  simpl replicate.
  rewrite (MatchString_loop_step _ _ _ _ _ _
             {[ptr 0%nat; ptr 1%nat; ptr 2%nat]}) by compute_done.
  exact IH.
Qed.

(** C2: the compiled [a+] rejects the empty string and accepts [n] times
    [a] for every [n >= 1] (written [S n]); the compiled [a*] accepts [n]
    times [a] for every [n]; the compiled [a?b] accepts [b] and [ab] and
    rejects [aab]. *)
Theorem quantifier_semantics :
  (∃ r h, Compile "a+" = Ok (r, h)
          ∧ MatchString h r "" = Ok false
          ∧ ∀ n, MatchString h r (Repeat "a" (S n)) = Ok true)
  ∧ (∃ r h, Compile "a*" = Ok (r, h)
            ∧ ∀ n, MatchString h r (Repeat "a" n) = Ok true)
  ∧ (∃ r h, Compile "a?b" = Ok (r, h)
            ∧ MatchString h r "b" = Ok true
            ∧ MatchString h r "ab" = Ok true
            ∧ MatchString h r "aab" = Ok false).
Proof.
  split_and!.
  - exists (Build_Regexp (ptr 0%nat) (ptr 2%nat) "a+"), plus_heap.
    split_and!; [vm_compute; reflexivity..|].
    intros n. unfold MatchString. rewrite runes_Repeat_a.
    change (add plus_heap ∅ (r_start _)) with (add plus_heap ∅ (ptr 0%nat)).
    replace (add plus_heap ∅ (ptr 0%nat))
      with (Ok ({[ptr 0%nat]} : nodeSet)) by (symmetry; compute_done).
    change (MatchString_loop plus_heap (ptr 2%nat) {[ptr 0%nat]} ∅
              (97 :: replicate n 97) = Ok true).
    rewrite (MatchString_loop_step _ _ _ _ _ _
               {[ptr 0%nat; ptr 1%nat; ptr 2%nat]}) by compute_done.
    apply plus_loop.
  - exists (Build_Regexp (ptr 0%nat) (ptr 2%nat) "a*"), star_heap.
    split; [vm_compute; reflexivity|].
    intros n. unfold MatchString. rewrite runes_Repeat_a.
    change (add star_heap ∅ (r_start _)) with (add star_heap ∅ (ptr 0%nat)).
    replace (add star_heap ∅ (ptr 0%nat))
      with (Ok ({[ptr 0%nat; ptr 1%nat; ptr 2%nat]} : nodeSet))
      by (symmetry; compute_done).
    apply star_loop.
  - exists (Build_Regexp (ptr 0%nat) (ptr 3%nat) "a?b"), qmark_heap.
    split_and!; vm_compute; reflexivity.
Qed.

(** ** C3: alternation *)

(** C3: the compiled [a|b] accepts [a] and [b] and rejects [ab]. *)
Theorem alternation_semantics :
  ∃ r h, Compile "a|b" = Ok (r, h)
         ∧ MatchString h r "a" = Ok true
         ∧ MatchString h r "b" = Ok true
         ∧ MatchString h r "ab" = Ok false.
Proof.
  eexists _, _. split; [vm_compute; reflexivity|]. split_and!; vm_compute; reflexivity.
Qed.

(** ** C4: the empty pattern *)

Lemma runes_nonempty b l : ∃ r rs, runes (b :: l) = r :: rs.
Proof.
  unfold runes. simpl runes_aux.
  destruct (utf8.DecodeRuneInString (b :: l)) as [r w]. by eexists _, _.
Qed.

(** C4: the empty pattern compiles; the result accepts the empty input and
    rejects every non-empty input (written [String c s]); its entry node is
    the terminal node, and the epsilon-closure of the entry is the
    singleton of the terminal node. *)
Theorem empty_pattern :
  ∃ r h, Compile "" = Ok (r, h)
         ∧ MatchString h r "" = Ok true
         ∧ (∀ c s, MatchString h r (String c s) = Ok false)
         ∧ (∃ a b, r_term r = ptr a ∧ h !! a = Some (terminalNode b))
         ∧ add h ∅ (r_start r) = Ok {[r_term r]}.
Proof.
  exists (Build_Regexp (ptr 0%nat) (ptr 0%nat) ""), [terminalNode []].
  split_and!; [vm_compute; reflexivity..| | |vm_compute; reflexivity].
  - intros c s. unfold MatchString.
    change (bytes_of_string (String c s))
      with (Z.of_N (N_of_ascii c) :: bytes_of_string s).
    destruct (runes_nonempty (Z.of_N (N_of_ascii c)) (bytes_of_string s))
      as (r & rs & ->).
    change (add [terminalNode []] ∅ (r_start _))
      with (add [terminalNode []] ∅ (ptr 0%nat)).
    replace (add [terminalNode []] ∅ (ptr 0%nat))
      with (Ok ({[ptr 0%nat]} : nodeSet)) by (symmetry; compute_done).
    apply MatchString_loop_dead.
    by rewrite elements_singleton.
  - by exists 0%nat, [].
Qed.

(** ** Runes of a string *)

Lemma runes_aux_drop k l : runes_aux k l = runes (drop k l).
Proof.
  revert k. induction l as [|b l IH]; intros [|k]; try done.
  simpl. apply IH.
Qed.

Lemma runes_cons b l :
  runes (b :: l)
  = (utf8.DecodeRuneInString (b :: l)).1
      :: runes (drop (utf8.DecodeRuneInString (b :: l)).2 (b :: l)).
Proof.
  unfold runes at 1. simpl runes_aux.
  pose proof (decode_width b l) as Hw.
  destruct (utf8.DecodeRuneInString (b :: l)) as [r w]. simpl in *.
  rewrite runes_aux_drop. destruct w as [|w]; [lia|].
  simpl. by rewrite Nat.sub_0_r.
Qed.

(** The rune that the scanner sees at a position is the first rune of the
    rest of the string, or [RuneError] at its end. *)
Lemma decode_hd l :
  (utf8.DecodeRuneInString l).1 = hd utf8.RuneError (runes l).
Proof. destruct l as [|b l]; [done|]. by rewrite runes_cons. Qed.

Lemma runes_nil_inv l : runes l = [] → l = [].
Proof. destruct l as [|b l]; [done|]. by rewrite runes_cons. Qed.

Lemma runes_app_ascii l c :
  0 ≤ c < 128 → runes (l ++ [c]) = runes l ++ [c].
Proof.
  intros Hc. remember (length l) as n eqn:Hn. revert l Hn.
  induction n as [n IH] using lt_wf_ind. intros l ->.
  destruct l as [|b l].
  - simpl. by rewrite runes_ascii_cons.
  - change ((b :: l) ++ [c]) with (b :: (l ++ [c])).
    rewrite (runes_cons b (l ++ [c])), (runes_cons b l).
    change (b :: (l ++ [c])) with ((b :: l) ++ [c]).
    rewrite decode_app_ascii by done.
    pose proof (decode_width b l) as Hw.
    destruct (utf8.DecodeRuneInString (b :: l)) as [r w]. simpl fst. simpl snd in *.
    rewrite drop_app_le by lia.
    rewrite (IH (length (drop w (b :: l)))); [done| |done].
    rewrite length_drop. simpl. lia.
Qed.

(** ** Running the scanner and the heap operations *)

Lemma run_bind {A B} (m : M A) (f : A → M B) st :
  (m ≫= f) st
  = match m st with
    | Ok (a, st') => f a st'
    | Err e => Err e
    | Panic => Panic
    | OutOfFuel => OutOfFuel
    end.
Proof. done. Qed.

Lemma run_bind_Ok {A B} (m : M A) (f : A → M B) st a st' :
  m st = Ok (a, st') → (m ≫= f) st = f a st'.
Proof. intros H. by rewrite run_bind, H. Qed.

Lemma run_bind_Err {A B} (m : M A) (f : A → M B) st e :
  m st = Err e → (m ≫= f) st = Err e.
Proof. intros H. by rewrite run_bind, H. Qed.

Lemma run_p_next inp p w h :
  p_next (State (Parser inp p w) h)
  = Ok (rune_at inp p,
        State (Parser inp (p + width_at inp p) (width_at inp p)) h).
Proof.
  unfold p_next, rune_at, width_at. simpl.
  by destruct (utf8.DecodeRuneInString (drop p inp)).
Qed.

Lemma run_peek inp p w h :
  peek (State (Parser inp p w) h)
  = Ok (rune_at inp p, State (Parser inp p 0) h).
Proof.
  unfold peek. rewrite (run_bind_Ok _ _ _ _ _ (run_p_next _ _ _ _)).
  unfold backup. rewrite run_bind. simpl.
  replace (p + width_at inp p - width_at inp p)%nat with p by lia. done.
Qed.

Lemma run_get_pos inp p w h :
  get_pos (State (Parser inp p w) h) = Ok (p, State (Parser inp p w) h).
Proof. done. Qed.

Lemma run_alloc o pr h :
  alloc o (State pr h) = Ok (ptr (length h), State pr (h ++ [o])).
Proof. done. Qed.

Lemma width_at_bounds inp p :
  (p < length inp)%nat → (1 ≤ width_at inp p ∧ p + width_at inp p ≤ length inp)%nat.
Proof.
  intros Hp. unfold width_at.
  destruct (drop p inp) as [|b l] eqn:Hd.
  { apply (f_equal length) in Hd. rewrite length_drop in Hd. simpl in Hd. lia. }
  pose proof (decode_width b l) as Hw.
  apply (f_equal length) in Hd. rewrite length_drop in Hd. simpl in *. lia.
Qed.

Lemma rune_at_end inp p :
  (length inp ≤ p)%nat → rune_at inp p = utf8.RuneError ∧ width_at inp p = 0%nat.
Proof. intros Hp. unfold rune_at, width_at. by rewrite drop_ge. Qed.

Lemma runes_drop_step inp p :
  (p < length inp)%nat →
  runes (drop p inp) = rune_at inp p :: runes (drop (p + width_at inp p) inp).
Proof.
  intros Hp. unfold rune_at, width_at.
  destruct (drop p inp) as [|b l] eqn:Hd.
  { apply (f_equal length) in Hd. rewrite length_drop in Hd. simpl in Hd. lia. }
  rewrite runes_cons. f_equal. rewrite <- Hd, drop_drop. done.
Qed.

Lemma rune_at_hd inp p : rune_at inp p = hd utf8.RuneError (runes (drop p inp)).
Proof. apply decode_hd. Qed.

(** ** C1: patterns without metacharacters *)

Lemma is_meta_false r :
  is_meta r = false →
  (r =? chr ".") = false ∧ (r =? chr "?") = false ∧ (r =? chr "+") = false
  ∧ (r =? chr "*") = false ∧ (r =? chr "(") = false ∧ (r =? chr ")") = false
  ∧ (r =? chr "|") = false ∧ (r =? chr "\") = false.
Proof.
  unfold is_meta. intros H.
  repeat (apply orb_false_elim in H as [H ?]). by split_and!.
Qed.

Lemma is_meta_quantifier r : is_meta r = false → is_quantifier r = false.
Proof.
  intros (_ & H1 & H2 & H3 & _)%is_meta_false.
  unfold is_quantifier. by rewrite H1, H2, H3.
Qed.

Lemma parseTerm_literal rec inp p w h :
  is_meta (rune_at inp p) = false →
  is_quantifier (rune_at inp (p + width_at inp p)) = false →
  parseTerm rec (State (Parser inp p w) h)
  = Ok (Expr (ptr (length h)) (ptr (length h)),
        State (Parser inp (p + width_at inp p) 0)
              (h ++ [lit (rune_at inp p) nil])).
Proof.
  intros Hm Hq. unfold parseTerm.
  rewrite (run_bind_Ok _ _ _ _ _ (run_peek _ _ _ _)).
  rewrite (is_meta_quantifier _ Hm).
  destruct (is_meta_false _ Hm) as (H1 & _ & _ & _ & H2 & _ & _ & H3).
  rewrite H1, H2, H3.
  unfold parseLiteral at 1. rewrite !run_bind, run_p_next. simpl.
  rewrite run_bind, run_peek. simpl. by rewrite Hq.
Qed.

Lemma open_chain_snoc h rs r :
  rs ≠ [] → open_chain h rs →
  ∀ o, (h ++ [lit r nil]) !! (length rs - 1)%nat = Some o →
  open_chain (<[(length rs - 1)%nat := setNext (ptr (length h)) o]>
                (h ++ [lit r nil])) (rs ++ [r]).
Proof.
  intros Hne [Hlen Hch] o Ho. split.
  { rewrite length_insert, !length_app. simpl. lia. }
  assert (Hk : (0 < length rs)%nat) by (destruct rs; simpl; [done|lia]).
  intros i c Hi. rewrite length_app. simpl.
  destruct (decide (i = length rs - 1)%nat) as [->|Hne'].
  - rewrite list_lookup_insert_eq by (rewrite length_app; simpl; lia).
    rewrite lookup_app_l in Ho by lia.
    rewrite lookup_app_l in Hi by lia.
    rewrite (Hch _ _ Hi) in Ho. simplify_eq.
    rewrite decide_True by lia. rewrite decide_False by lia.
    replace (S (length rs - 1)) with (length h) by lia. done.
  - rewrite list_lookup_insert_ne by done.
    destruct (decide (i < length rs)%nat) as [Hlt|Hge].
    + rewrite lookup_app_l in Hi by lia. rewrite lookup_app_l by lia.
      rewrite (Hch _ _ Hi). rewrite !decide_False by lia. done.
    + assert (i = length rs) as ->.
      { apply lookup_lt_Some in Hi. rewrite length_app in Hi. simpl in Hi. lia. }
      rewrite lookup_app_r in Hi by lia. rewrite lookup_app_r by lia.
      rewrite Hlen. rewrite Nat.sub_diag in *. simpl in *. simplify_eq.
      rewrite decide_True by lia. done.
Qed.

Lemma concat_empty_l nxt st : concat empty_expr nxt st = Ok (nxt, st).
Proof. done. Qed.

Lemma concat_empty_r e st : concat e empty_expr st = Ok (e, st).
Proof. unfold concat. destruct (isEmpty e) eqn:He; [|done].
  apply bool_decide_eq_true in He. by subst. Qed.

Lemma concat_wire pr (h : heap) e nxt a o :
  e ≠ empty_expr → nxt ≠ empty_expr → e_end e = ptr a → h !! a = Some o →
  concat e nxt (State pr h)
  = Ok (Expr (e_start e) (e_end nxt),
        State pr (<[a := wire (e_start nxt) o]> h)).
Proof.
  intros He Hn Ha Ho. unfold concat, isEmpty.
  rewrite !bool_decide_eq_false_2 by done. rewrite Ha.
  rewrite run_bind. unfold deref. simpl st_heap. rewrite Ho.
  cbv beta iota. unfold wire.
  destruct (is_matchNode o); rewrite run_bind;
    unfold setNext_at, addEpsilon_at, update; simpl st_heap; by rewrite Ho.
Qed.

Lemma chain_expr_ne rs :
  rs ≠ [] → chain_expr rs = Expr (ptr 0%nat) (ptr (length rs - 1)).
Proof. by destruct rs. Qed.

Lemma open_chain_nil : open_chain [] [].
Proof. split; [done|]. intros i r Hi. by rewrite lookup_nil in Hi. Qed.

Lemma chain_expr_snoc rs r :
  chain_expr (rs ++ [r]) = Expr (ptr 0%nat) (ptr (length rs)).
Proof.
  unfold chain_expr. destruct rs as [|c rs]; [done|].
  simpl. rewrite length_app. simpl. do 2 f_equal. lia.
Qed.

(** Concatenating the next literal onto the chain. *)
Lemma concat_chain pr h rs r :
  open_chain h rs →
  ∃ h', concat (chain_expr rs) (Expr (ptr (length h)) (ptr (length h)))
          (State pr (h ++ [lit r nil]))
        = Ok (chain_expr (rs ++ [r]), State pr h')
        ∧ open_chain h' (rs ++ [r]).
Proof.
  intros Hch. destruct (decide (rs = [])) as [->|Hne].
  - destruct Hch as [Hlen _]. destruct h; [|done].
    exists [lit r nil]. split; [done|].
    split; [done|]. intros [|i] c Hi; simpl in *; by simplify_eq.
  - pose proof Hch as [Hlen Hall].
    assert (Hk : (0 < length rs)%nat) by (destruct rs; simpl; [done|lia]).
    destruct (lookup_lt_is_Some_2 rs (length rs - 1)) as [c Hc]; [lia|].
    pose proof (Hall _ _ Hc) as Ho.
    assert (Ho' : (h ++ [lit r nil]) !! (length rs - 1)%nat
                  = Some (lit c nil)).
    { rewrite lookup_app_l by lia. rewrite Ho.
      by rewrite decide_True by lia. }
    eexists. split; [|by apply (open_chain_snoc h rs r Hne Hch _ Ho')].
    rewrite chain_expr_snoc, (chain_expr_ne rs) by done.
    erewrite concat_wire; [|done|done|reflexivity|exact Ho'].
    simpl. by rewrite Hlen.
Qed.

(** The clause loop on a stretch of literals: it reads them one by one and
    extends the chain, up to the end of the pattern or to a byte that does
    not decode. *)
Lemma literal_loop inp : ∀ rs fuel p w done h,
  runes (drop p inp) = rs → Forall (λ c, is_meta c = false) rs →
  (length rs < fuel)%nat → open_chain h done →
  ∃ done' p' h',
    parseClause_loop fuel (chain_expr done) (State (Parser inp p w) h)
    = Ok (chain_expr (done ++ done'), State (Parser inp p' 0) h')
    ∧ open_chain h' (done ++ done')
    ∧ (p' = length inp → done' = rs).
Proof.
  induction rs as [|r rs IH]; intros fuel p w done h Hrs Hmeta Hfuel Hch.
  - destruct fuel as [|fuel]; [simpl in Hfuel; lia|].
    exists [], p, h. rewrite app_nil_r. split_and!; [|done..].
    simpl. rewrite run_bind, run_peek. simpl.
    rewrite rune_at_hd, Hrs. done.
  - destruct fuel as [|fuel]; [simpl in Hfuel; lia|].
    assert (Hp : (p < length inp)%nat).
    { destruct (decide (p < length inp)%nat); [done|].
      rewrite drop_ge in Hrs by lia. done. }
    rewrite runes_drop_step in Hrs by done.
    injection Hrs as Hr Hrs'.
    apply Forall_cons in Hmeta as [Hm Hmeta].
    simpl parseClause_loop. rewrite run_bind, run_peek. simpl.
    rewrite Hr.
    destruct (Z.eqb_spec r utf8.RuneError) as [->|Hne].
    { exists [], p, h. rewrite app_nil_r. split_and!; [done..|lia]. }
    destruct (is_meta_false _ Hm) as (_ & _ & _ & _ & _ & H1 & H2 & _).
    rewrite H1, H2. simpl.
    rewrite run_bind.
    rewrite parseTerm_literal; [|by rewrite Hr|]; last first.
    { rewrite rune_at_hd, Hrs'. destruct rs as [|r2 rs]; [done|].
      apply Forall_cons in Hmeta as [Hm2 _]. by apply is_meta_quantifier. }
    rewrite run_bind.
    destruct (concat_chain (Parser inp (p + width_at inp p) 0) h done
                (rune_at inp p) Hch) as (h1 & -> & Hch1).
    rewrite Hr in *.
    destruct (IH fuel (p + width_at inp p)%nat 0%nat (done ++ [r]) h1)
      as (done' & p' & h' & Hrun & Hch' & Hend); [done|done|simpl in Hfuel; lia|done|].
    exists (r :: done'), p', h'.
    rewrite <- app_assoc in Hrun, Hch'. simpl in Hrun, Hch'.
    split_and!; [done|done|]. intros Hp'. by rewrite Hend.
Qed.

Lemma runes_length l : (length (runes l) ≤ length l)%nat.
Proof.
  remember (length l) as n eqn:Hn. revert l Hn.
  induction n as [n IH] using lt_wf_ind. intros l ->.
  destruct l as [|b l]; [done|].
  rewrite runes_cons. pose proof (decode_width b l) as Hw.
  destruct (utf8.DecodeRuneInString (b :: l)) as [r w]. simpl fst. simpl snd in *.
  assert (H : (length (runes (drop w (b :: l))) ≤ length (drop w (b :: l)))%nat).
  { eapply IH; [|reflexivity]. rewrite length_drop. simpl. lia. }
  rewrite length_drop in H. simpl in *. lia.
Qed.

(** What a pattern without metacharacters compiles to. *)
Lemma parse_literals inp s t h :
  Forall (λ c, is_meta c = false) (runes inp) →
  parse inp = Ok (s, t, h) →
  s = ptr 0%nat ∧ t = ptr (length (runes inp)) ∧ compiled_chain h (runes inp).
Proof.
  intros Hmeta Hparse. unfold parse, parse_fuel, parse_body in Hparse.
  destruct (literal_loop inp (runes inp) (2 * length inp + 1) 0 0 [] [])
    as (rs & p' & h' & Hrun & Hch & Hend);
    [done|done|pose proof (runes_length inp); lia|apply open_chain_nil|].
  simpl app in *. unfold parseClause in Hparse.
  change empty_expr with (chain_expr []) in Hparse.
  rewrite run_bind, Hrun in Hparse. cbv beta iota in Hparse.
  rewrite run_bind, run_get_pos in Hparse. cbv beta iota in Hparse.
  destruct (Nat.eqb_spec p' (length inp)) as [Hp|Hp]; cbn [negb] in Hparse;
    last first.
  { rewrite run_bind in Hparse. unfold backup in Hparse. simpl in Hparse.
    rewrite run_bind, run_peek in Hparse. cbv beta iota in Hparse.
    rewrite run_bind, run_get_pos in Hparse. done. }
  specialize (Hend Hp). subst rs.
  rewrite run_bind, run_alloc in Hparse. cbv beta iota in Hparse.
  destruct Hch as [Hlen Hall].
  destruct (decide (runes inp = [])) as [Hnil|Hne].
  - rewrite Hnil in *. destruct h'; [|done]. simpl in Hparse.
    simplify_eq. split_and!; [done..|]. by split_and!.
  - assert (Hk : (0 < length (runes inp))%nat)
      by (destruct (runes inp); simpl; [done|lia]).
    destruct (lookup_lt_is_Some_2 (runes inp) (length (runes inp) - 1))
      as [c Hc]; [lia|].
    pose proof (Hall _ _ Hc) as Ho. rewrite decide_True in Ho by lia.
    assert (Ho' : (h' ++ [terminalNode []]) !! (length (runes inp) - 1)%nat
                  = Some (lit c nil)) by (by rewrite lookup_app_l by lia).
    unfold concatNode in Hparse. rewrite (chain_expr_ne _ Hne) in Hparse.
    rewrite run_bind in Hparse.
    erewrite concat_wire in Hparse; [|done|done|reflexivity|exact Ho'].
    simpl in Hparse.
    simplify_eq. split_and!; [done|by rewrite Hlen|].
    split_and!.
    + rewrite length_insert, length_app. simpl. lia.
    + intros i r Hi.
      destruct (decide (i = length (runes inp) - 1)%nat) as [->|Hne'].
      * rewrite list_lookup_insert_eq by (rewrite length_app; simpl; lia).
        simplify_eq. unfold lit. simpl.
        replace (S (length (runes inp) - 1)) with (length h') by lia. done.
      * rewrite list_lookup_insert_ne by done.
        pose proof (lookup_lt_Some _ _ _ Hi).
        rewrite lookup_app_l by lia. rewrite (Hall _ _ Hi).
        by rewrite decide_False by lia.
    + rewrite list_lookup_insert_ne by lia.
      rewrite lookup_app_r by lia. rewrite Hlen, Nat.sub_diag. done.
Qed.

(** The closure of a node without epsilon edges is the node alone. *)
Lemma add_no_epsilons (h : heap) a o :
  h !! a = Some o → epsilons o = [] → add h ∅ (ptr a) = Ok {[ptr a]}.
Proof.
  intros Ho He. unfold add. simpl. rewrite decide_False by set_solver.
  rewrite Ho, He. simpl. f_equal. set_solver.
Qed.

Lemma advance_singleton (h : heap) r a o nx :
  h !! a = Some o →
  advance h r [ptr a] nx
  = if is_matchNode o && matches o r then add h nx (next o) else Ok nx.
Proof. intros Ho. unfold advance. simpl. by rewrite Ho. Qed.

(** Matching along the compiled chain: with node [i] live, the rest of the
    pattern's runes leads to the terminal; anything after that is
    rejected. *)
Lemma chain_match h rs tail : compiled_chain h rs →
  ∀ n i, (n = length rs - i)%nat → (i ≤ length rs)%nat →
  MatchString_loop h (ptr (length rs)) {[ptr i]} ∅ (drop i rs ++ tail)
  = Ok (bool_decide (tail = [])).
Proof.
  intros (Hlen & Hall & Hterm). induction n as [|n IH]; intros i Hn Hi.
  - assert (i = length rs) as -> by lia. rewrite drop_all. simpl app.
    destruct tail as [|c tail].
    + simpl. by rewrite bool_decide_eq_true_2 by set_solver.
    + rewrite bool_decide_eq_false_2 by done.
      apply MatchString_loop_dead. rewrite elements_singleton.
      by rewrite (advance_singleton _ _ _ _ _ Hterm).
  - destruct (lookup_lt_is_Some_2 rs i) as [r Hr]; [lia|].
    rewrite (drop_S _ _ _ Hr). simpl app.
    rewrite (MatchString_loop_step _ _ _ _ _ _ {[ptr (S i)]}).
    + apply IH; lia.
    + rewrite elements_singleton.
      rewrite (advance_singleton _ _ _ _ _ (Hall _ _ Hr)). simpl.
      rewrite Z.eqb_refl.
      destruct (decide (S i = length rs)) as [He|He].
      * rewrite He. by apply (add_no_epsilons _ _ _ Hterm).
      * destruct (lookup_lt_is_Some_2 rs (S i)) as [r' Hr']; [lia|].
        by apply (add_no_epsilons _ _ _ (Hall _ _ Hr')).
    + by rewrite size_singleton.
Qed.

(** C1: for every pattern without metacharacters that compiles, the
    compiled pattern accepts the pattern's own text and rejects the text
    followed by [x]. *)
Theorem literal_pattern_whole_string (p : string) (r : Regexp) (h : heap) :
  Forall (λ c, is_meta c = false) (runes (bytes_of_string p)) →
  Compile p = Ok (r, h) →
  MatchString h r p = Ok true
  ∧ MatchString h r (p ++ "x")%string = Ok false.
Proof.
  intros Hmeta Hcomp. unfold Compile in Hcomp.
  destruct (parse (bytes_of_string p)) as [[[s t] h0]| | |] eqn:Hparse;
    try done.
  simpl in Hcomp. injection Hcomp as <- <-.
  destruct (parse_literals _ _ _ _ Hmeta Hparse) as (-> & -> & Hch).
  assert (Hadd : add h0 ∅ (ptr 0%nat) = Ok {[ptr 0%nat]}).
  { destruct Hch as (Hlen & Hall & Hterm).
    destruct (runes (bytes_of_string p)) as [|c rs] eqn:Hrs.
    - by apply (add_no_epsilons _ _ _ Hterm).
    - by apply (add_no_epsilons _ _ (lit c (ptr 1%nat)) (Hall 0%nat c eq_refl)). }
  unfold MatchString. simpl r_start. simpl r_term. rewrite Hadd. simpl.
  split.
  - pose proof (chain_match h0 _ [] Hch _ 0%nat eq_refl ltac:(lia)) as Hm.
    rewrite drop_0, app_nil_r in Hm. by rewrite Hm.
  - rewrite bytes_of_string_app.
    change (bytes_of_string "x") with [120].
    rewrite runes_app_ascii by lia.
    pose proof (chain_match h0 _ [120] Hch _ 0%nat eq_refl ltac:(lia)) as Hm.
    rewrite drop_0 in Hm. by rewrite Hm.
Qed.

Lemma literal_pattern_whole_string_witness :
  MatchString
    [lit 97 (ptr 1%nat); lit 98 (ptr 2%nat); lit 99 (ptr 3%nat); terminalNode []]
    (Build_Regexp (ptr 0%nat) (ptr 3%nat) "abc") "abc" = Ok true
  ∧ MatchString
      [lit 97 (ptr 1%nat); lit 98 (ptr 2%nat); lit 99 (ptr 3%nat); terminalNode []]
      (Build_Regexp (ptr 0%nat) (ptr 3%nat) "abc") ("abc" ++ "x")%string
    = Ok false.
Proof.
  apply (literal_pattern_whole_string "abc").
  - vm_compute. repeat constructor.
  - vm_compute. reflexivity.
Defined.

(** ** C8: a multi-byte literal under [+] *)

Lemma lor_ge_l x y : 0 ≤ y → x ≤ Z.lor x y.
Proof.
  intros Hy. pose proof (Z.sub_lor_l_same_l y x) as H.
  pose proof (proj2 (Z.land_nonneg y (Z.lnot x)) (or_introl Hy)).
  lia.
Qed.

Lemma lor_ge_r x y : 0 ≤ x → y ≤ Z.lor x y.
Proof. intros Hx. rewrite Z.lor_comm. by apply lor_ge_l. Qed.

Lemma land_nonneg_r x m : 0 ≤ m → 0 ≤ Z.land x m.
Proof. intros. apply Z.land_nonneg. by right. Qed.

Lemma land_ones_5 x : Z.land x utf8.mask2 = x mod 32.
Proof. change utf8.mask2 with (Z.ones 5). by rewrite Z.land_ones. Qed.
Lemma land_ones_4 x : Z.land x utf8.mask3 = x mod 16.
Proof. change utf8.mask3 with (Z.ones 4). by rewrite Z.land_ones. Qed.
Lemma land_ones_3 x : Z.land x utf8.mask4 = x mod 8.
Proof. change utf8.mask4 with (Z.ones 3). by rewrite Z.land_ones. Qed.
Lemma land_ones_6 x : Z.land x utf8.maskx = x mod 64.
Proof. change utf8.maskx with (Z.ones 6). by rewrite Z.land_ones. Qed.

Lemma rune2_lower b b1 : (b mod 32) * 64 ≤ utf8.rune2 b b1.
Proof.
  unfold utf8.rune2. rewrite land_ones_5, Z.shiftl_mul_pow2 by lia.
  apply lor_ge_l. by apply land_nonneg_r.
Qed.

Lemma rune3_lower b b1 b2 :
  (b mod 16) * 4096 ≤ utf8.rune3 b b1 b2
  ∧ (b1 mod 64) * 64 ≤ utf8.rune3 b b1 b2.
Proof.
  unfold utf8.rune3. rewrite land_ones_4, land_ones_6, !Z.shiftl_mul_pow2 by lia.
  assert (0 ≤ b mod 16) by (apply Z.mod_pos_bound; lia).
  assert (0 ≤ b1 mod 64) by (apply Z.mod_pos_bound; lia).
  assert (0 ≤ Z.land b2 utf8.maskx) by (by apply land_nonneg_r).
  pose proof (lor_ge_l (Z.lor (b mod 16 * 2 ^ 12) (b1 mod 64 * 2 ^ 6))
                (Z.land b2 utf8.maskx)).
  pose proof (lor_ge_l (b mod 16 * 2 ^ 12) (b1 mod 64 * 2 ^ 6)).
  pose proof (lor_ge_r (b mod 16 * 2 ^ 12) (b1 mod 64 * 2 ^ 6)).
  lia.
Qed.

Lemma rune4_lower b b1 b2 b3 :
  (b mod 8) * 262144 ≤ utf8.rune4 b b1 b2 b3
  ∧ (b1 mod 64) * 4096 ≤ utf8.rune4 b b1 b2 b3.
Proof.
  unfold utf8.rune4.
  rewrite land_ones_3, !land_ones_6, !Z.shiftl_mul_pow2 by lia.
  assert (0 ≤ b mod 8) by (apply Z.mod_pos_bound; lia).
  assert (0 ≤ b1 mod 64) by (apply Z.mod_pos_bound; lia).
  assert (0 ≤ b2 mod 64) by (apply Z.mod_pos_bound; lia).
  assert (0 ≤ b3 mod 64) by (apply Z.mod_pos_bound; lia).
  pose proof (lor_ge_l (Z.lor (Z.lor (b mod 8 * 2 ^ 18) (b1 mod 64 * 2 ^ 12))
                              (b2 mod 64 * 2 ^ 6)) (b3 mod 64)).
  pose proof (lor_ge_l (Z.lor (b mod 8 * 2 ^ 18) (b1 mod 64 * 2 ^ 12))
                       (b2 mod 64 * 2 ^ 6)).
  pose proof (lor_ge_l (b mod 8 * 2 ^ 18) (b1 mod 64 * 2 ^ 12)).
  pose proof (lor_ge_r (b mod 8 * 2 ^ 18) (b1 mod 64 * 2 ^ 12)).
  lia.
Qed.

(** The decoder rejects over-long encodings: a rune that is more than one
    byte wide is not an ASCII character. *)
Lemma decode_wide_ge s :
  (2 ≤ (utf8.DecodeRuneInString s).2)%nat →
  128 ≤ (utf8.DecodeRuneInString s).1.
Proof.
  destruct s as [|b [|b1 [|b2 [|b3 l]]]]; [simpl; lia|..];
    decode_first_range b; decode_tests; intros _;
    try (pose proof (rune2_lower b b1));
    try (pose proof (rune3_lower b b1 b2));
    try (pose proof (rune4_lower b b1 b2 b3));
    Z.div_mod_to_equations; lia.
Qed.

Lemma ge_128_not_meta c : 128 ≤ c → is_meta c = false.
Proof.
  intros Hc. unfold is_meta.
  repeat match goal with
         | |- context [(c =? ?k)] => destruct (Z.eqb_spec c k) as [->|_]; [done|]
         end.
  done.
Qed.

Lemma runes_unfold l :
  l ≠ [] →
  runes l = (utf8.DecodeRuneInString l).1
              :: runes (drop (utf8.DecodeRuneInString l).2 l).
Proof. destruct l; [done|]. intros _. apply runes_cons. Qed.

Lemma runes_Repeat enc c n :
  utf8.DecodeRuneInString (bytes_of_string enc)
  = (c, length (bytes_of_string enc)) →
  (2 ≤ length (bytes_of_string enc))%nat →
  runes (bytes_of_string (Repeat enc n)) = replicate n c.
Proof.
  intros Hdec Hlen. induction n as [|n IH]; [done|].
  simpl Repeat. rewrite bytes_of_string_app.
  rewrite runes_unfold
    by (intros [H _]%app_eq_nil; rewrite H in Hlen; simpl in Hlen; lia).
  rewrite decode_app_wide by (by rewrite Hdec).
  rewrite Hdec. cbn [fst snd]. rewrite drop_app_length.
  by rewrite IH.
Qed.

Lemma advance_nil h r nx : advance h r [] nx = Ok nx.
Proof. done. Qed.

Lemma advance_cons_match (h : heap) r a ns nx o nx' :
  h !! a = Some o → is_matchNode o && matches o r = true →
  add h nx (next o) = Ok nx' →
  advance h r (ptr a :: ns) nx = advance h r ns nx'.
Proof.
  intros Ho Hm Hadd. unfold advance. simpl. by rewrite Ho, Hm, Hadd.
Qed.

Lemma advance_cons_skip (h : heap) r a ns nx o :
  h !! a = Some o → is_matchNode o && matches o r = false →
  advance h r (ptr a :: ns) nx = advance h r ns nx.
Proof. intros Ho Hm. unfold advance. simpl. by rewrite Ho, Hm. Qed.

Lemma plus_of_loop c n :
  MatchString_loop (plus_heap_of c) (ptr 2%nat)
    {[ptr 0%nat; ptr 1%nat; ptr 2%nat]} ∅ (replicate n c) = Ok true.
Proof.
  induction n as [|n IH]; [vm_compute; reflexivity|].
  simpl replicate.
  rewrite (MatchString_loop_step _ _ _ _ _ _
             {[ptr 0%nat; ptr 1%nat; ptr 2%nat]}); [exact IH| |compute_done].
  replace (elements ({[ptr 0%nat; ptr 1%nat; ptr 2%nat]} : nodeSet))
    with [ptr 1%nat; ptr 2%nat; ptr 0%nat] by (by vm_compute).
  rewrite (advance_cons_skip _ _ _ _ _ (plusNode [ptr 0%nat; ptr 2%nat])),
    (advance_cons_skip _ _ _ _ _ (terminalNode [])) by done.
  rewrite (advance_cons_match _ _ _ _ _ (lit c (ptr 1%nat))
             {[ptr 0%nat; ptr 1%nat; ptr 2%nat]});
    [done|done|simpl; by rewrite Z.eqb_refl|by vm_compute].
Qed.

Lemma run_ret {A} (a : A) st : mret (M := M) a st = Ok (a, st).
Proof. done. Qed.

Lemma run_update pr (h : heap) a f o :
  h !! a = Some o →
  update (ptr a) f (State pr h) = Ok (tt, State pr (<[a := f o]> h)).
Proof. intros Ho. unfold update. simpl. by rewrite Ho. Qed.

Ltac run1 :=
  first [rewrite run_peek | rewrite run_p_next | rewrite run_get_pos
        | rewrite run_alloc | rewrite run_ret | rewrite concat_empty_l
        | rewrite run_bind];
  cbv beta iota; cbn [length app Nat.add e_start e_end].
Ltac run := repeat run1.

Lemma compile_multibyte_plus enc c :
  utf8.DecodeRuneInString (bytes_of_string enc)
  = (c, length (bytes_of_string enc)) →
  (2 ≤ length (bytes_of_string enc))%nat →
  c ≠ utf8.RuneError →
  Compile (enc ++ "+")%string
  = Ok (Build_Regexp (ptr 0%nat) (ptr 2%nat) (enc ++ "+")%string,
        plus_heap_of c).
Proof.
  intros Hdec Hlen Hc. unfold Compile, parse, parse_fuel, parse_body.
  rewrite bytes_of_string_app. change (bytes_of_string "+") with [43].
  set (inp := bytes_of_string enc ++ [43]).
  set (L := length (bytes_of_string enc)) in *.
  assert (HL : length inp = S L) by (unfold inp; rewrite length_app; simpl; lia).
  assert (Hd0 : utf8.DecodeRuneInString (drop 0 inp) = (c, L)).
  { unfold inp. rewrite drop_0, decode_app_wide; by rewrite Hdec. }
  assert (R0 : rune_at inp 0 = c) by (unfold rune_at; by rewrite Hd0).
  assert (W0 : width_at inp 0 = L) by (unfold width_at; by rewrite Hd0).
  assert (Hd1 : utf8.DecodeRuneInString (drop L inp) = (43, 1%nat)).
  { unfold inp, L. by rewrite drop_app_length. }
  assert (R1 : rune_at inp L = 43) by (unfold rune_at; by rewrite Hd1).
  assert (W1 : width_at inp L = 1%nat) by (unfold width_at; by rewrite Hd1).
  assert (R2 : rune_at inp (L + 1) = utf8.RuneError).
  { apply rune_at_end. lia. }
  assert (Hge : 128 ≤ c).
  { pose proof (decode_wide_ge (bytes_of_string enc)) as H.
    rewrite Hdec in H. by apply H. }
  pose proof (ge_128_not_meta c Hge) as Hm.
  destruct (is_meta_false _ Hm) as (M1 & M2 & M3 & M4 & M5 & M6 & M7 & M8).
  assert (Hne : (c =? utf8.RuneError) = false) by (by apply Z.eqb_neq).
  rewrite HL. replace (2 * S L + 1)%nat with (S (S (2 * L + 1))) by lia.
  unfold parseClause. simpl parseClause_loop.
  unfold parseTerm, parseLiteral, parseMeta, concatNode.
  run. rewrite R0, Hne, M6, M7. cbn [orb]. cbv iota.
  run. rewrite R0. rewrite (is_meta_quantifier _ Hm), M5, M8, M1.
  run. rewrite R0, W0.
  run. rewrite R1. change (is_quantifier 43) with true. cbv iota.
  run. rewrite R1, W1. change (43 =? chr "+") with true. cbv iota.
  run. unfold addEpsilon_at, setNext_at.
  erewrite run_update by reflexivity.
  run. erewrite concat_wire; [|done|done|reflexivity|reflexivity].
  run. rewrite R2. change (utf8.RuneError =? utf8.RuneError) with true.
  cbn [orb]. cbv iota.
  run. destruct (Nat.eqb_spec (L + 1) (S L)) as [_|]; [|lia]. cbn [negb].
  run. erewrite concat_wire; [|done|done|reflexivity|reflexivity].
  run. reflexivity.
Qed.

(** C8 (amended): for every string [enc] that is the UTF-8 encoding of one
    multi-byte code point [c] other than U+FFFD (the decoder reads all of
    [enc], two bytes or more, as the single rune [c]), the pattern [enc]
    followed by [+] compiles; the result rejects the empty string and
    accepts [enc] repeated [n] times for every [n >= 1] (written [S n]). *)
Theorem multibyte_plus (enc : string) (c : rune) :
  utf8.DecodeRuneInString (bytes_of_string enc)
  = (c, length (bytes_of_string enc)) →
  (2 ≤ length (bytes_of_string enc))%nat →
  c ≠ utf8.RuneError →
  ∃ r h, Compile (enc ++ "+")%string = Ok (r, h)
         ∧ MatchString h r "" = Ok false
         ∧ ∀ n, MatchString h r (Repeat enc (S n)) = Ok true.
Proof.
  intros Hdec Hlen Hc. eexists _, _.
  split; [by apply compile_multibyte_plus|].
  assert (Hadd : add (plus_heap_of c) ∅ (ptr 0%nat) = Ok {[ptr 0%nat]})
    by (by vm_compute).
  split.
  - unfold MatchString. cbn [r_start r_term]. rewrite Hadd. by vm_compute.
  - intros n. unfold MatchString. cbn [r_start r_term]. rewrite Hadd.
    rewrite (runes_Repeat enc c) by done.
    change (Ok {[ptr 0%nat]} ≫= _)
      with (MatchString_loop (plus_heap_of c) (ptr 2%nat) {[ptr 0%nat]} ∅
              (c :: replicate n c)).
    rewrite (MatchString_loop_step _ _ _ _ _ _
               {[ptr 0%nat; ptr 1%nat; ptr 2%nat]});
      [apply plus_of_loop| |compute_done].
    rewrite elements_singleton.
    rewrite (advance_cons_match _ _ _ _ _ (lit c (ptr 1%nat))
               {[ptr 0%nat; ptr 1%nat; ptr 2%nat]});
      [done|done|simpl; by rewrite Z.eqb_refl|by vm_compute].
Qed.

Lemma multibyte_plus_witness :
  ∃ r h, Compile (smiley ++ "+")%string = Ok (r, h)
         ∧ MatchString h r "" = Ok false
         ∧ ∀ n, MatchString h r (Repeat smiley (S n)) = Ok true.
Proof.
  apply (multibyte_plus smiley 0x1F603).
  - vm_compute. reflexivity.
  - vm_compute. lia.
  - vm_compute. discriminate.
Defined.

(** C8, as stated, fails for the multi-byte code point U+FFFD: its encoding
    decodes to one rune, three bytes wide, and the pattern made of it and
    [+] does not compile, because the scanner takes the rune for the end of
    the pattern. *)
Lemma multibyte_plus_replacement_char :
  utf8.DecodeRuneInString (bytes_of_string replacement_char)
  = (0xFFFD, length (bytes_of_string replacement_char))
  ∧ Compile (replacement_char ++ "+")%string = Err (IllegalAt 0xFFFD 0).
Proof. split; vm_compute; reflexivity. Qed.

(** ** C6: malformed patterns *)

(** The malformed patterns that the tests list are compile errors, and
    [MustCompile] turns the error into a panic. *)
Lemma Compile_malformed_examples :
  Compile ")" = Err (IllegalAt 41 0)
  ∧ Compile "as)" = Err (IllegalAt 41 2)
  ∧ Compile "(as" = Err (UnterminatedSubexp 0)
  ∧ Compile "(a(as)())(" = Err (UnterminatedSubexp 9)
  ∧ Compile "**" = Err (InvalidCharacter 42 0)
  ∧ Compile "(**)" = Err (InvalidCharacter 42 1)
  ∧ Compile "+.?." = Err (InvalidCharacter 43 0)
  ∧ Compile "?" = Err (InvalidCharacter 63 0)
  ∧ Compile "|" = Err (EmptyLeftOf utf8.RuneError 1 nil nil)
  ∧ Compile "|a" = Err (EmptyLeftOf 97 1 nil nil)
  ∧ Compile "()||" = Err (EmptyLeftOf utf8.RuneError 4 nil nil)
  ∧ Compile "\y" = Err (UnknownEscape 121)
  ∧ MustCompile "\y" = Panic
  ∧ MustCompile "|" = Panic.
Proof. split_and!; vm_compute; reflexivity. Qed.

(** A quantifier at the very start of a pattern is a compile error,
    whatever follows. *)
Lemma Compile_leading_quantifier (q : ascii) (rest : string) :
  is_quantifier (chr q) = true →
  Compile (String q rest) = Err (InvalidCharacter (chr q) 0).
Proof.
  intros Hq. unfold Compile, parse, parse_fuel, parse_body, parseClause.
  change (bytes_of_string (String q rest)) with (chr q :: bytes_of_string rest).
  set (inp := chr q :: bytes_of_string rest).
  assert (Hasc : 0 ≤ chr q < 128).
  { unfold is_quantifier in Hq.
    repeat match type of Hq with
           | context [(chr q =? ?k)] =>
             destruct (Z.eqb_spec (chr q) k) as [->|_]; [by vm_compute|]
           end.
    done. }
  assert (R0 : rune_at inp 0 = chr q).
  { unfold rune_at, inp. simpl drop. by rewrite decode_ascii. }
  simpl length. replace (2 * S (length (bytes_of_string rest)) + 1)%nat
    with (S (2 * S (length (bytes_of_string rest)))) by lia.
  simpl parseClause_loop. unfold parseTerm.
  run. rewrite R0.
  assert (Hq' := Hq). unfold is_quantifier in Hq'.
  replace ((chr q =? utf8.RuneError) || (chr q =? chr ")")) with false;
    last first.
  { symmetry. apply orb_false_intro; apply Z.eqb_neq; intros He;
      rewrite He in Hq; by vm_compute in Hq. }
  replace (chr q =? chr "|") with false; last first.
  { symmetry. apply Z.eqb_neq; intros He; rewrite He in Hq; by vm_compute in Hq. }
  run. rewrite R0, Hq. run. reflexivity.
Qed.

(** C6 fails on an alternation whose right operand is empty: [parsePipe]
    checks that the left operand is not empty, but not the right one, and
    calls [addEpsilon] through the nil entry of the empty right clause.
    [Compile] panics instead of returning an error. *)
Theorem Compile_empty_right_operand_panics :
  Compile "a|" = Panic
  ∧ Compile "(a|)" = Panic
  ∧ Compile "a|b|" = Panic
  ∧ MustCompile "a|" = Panic.
Proof. split_and!; vm_compute; reflexivity. Qed.

(** ** C5: the wiring of an alternation *)

Lemma epsilons_wire n o e : e ∈ epsilons o → e ∈ epsilons (wire n o).
Proof.
  intros He. unfold wire. destruct o; simpl in *; rewrite ?elem_of_app; auto.
Qed.

Lemma wire_wired n o :
  if is_matchNode (wire n o) then next (wire n o) = n
  else n ∈ epsilons (wire n o).
Proof.
  unfold wire. destruct o; simpl; try done; set_solver.
Qed.

(** Wiring a node once more, to the same target, keeps it wired. *)
Lemma wire_again n o :
  (if is_matchNode o then next o = n else n ∈ epsilons o) →
  if is_matchNode (wire n o) then next (wire n o) = n
  else n ∈ epsilons (wire n o).
Proof. intros _. apply wire_wired. Qed.

Lemma run_bind_Ok_inv {A B} (m : M A) (f : A → M B) st r :
  (m ≫= f) st = Ok r → ∃ a st1, m st = Ok (a, st1) ∧ f a st1 = Ok r.
Proof.
  rewrite run_bind. destruct (m st) as [[a st1]| | |]; try done. eauto.
Qed.

Lemma update_Ok_inv n f st u st' :
  update n f st = Ok (u, st') →
  ∃ a o, n = ptr a ∧ st_heap st !! a = Some o
         ∧ st' = State (st_p st) (<[a := f o]> (st_heap st)).
Proof.
  unfold update. destruct n as [|a]; [done|].
  destruct (st_heap st !! a) as [o|] eqn:Ho; [|done].
  intros [= <-]. eauto.
Qed.

Lemma concat_Ok_inv e nxt st e' st' :
  e ≠ empty_expr → nxt ≠ empty_expr →
  concat e nxt st = Ok (e', st') →
  ∃ a o, e_end e = ptr a ∧ st_heap st !! a = Some o
         ∧ e' = Expr (e_start e) (e_end nxt)
         ∧ st' = State (st_p st) (<[a := wire (e_start nxt) o]> (st_heap st)).
Proof.
  intros He Hn Hc. destruct (e_end e) as [|a] eqn:Ha.
  { unfold concat, isEmpty in Hc.
    rewrite !bool_decide_eq_false_2 in Hc by done. by rewrite Ha in Hc. }
  destruct (st_heap st !! a) as [o|] eqn:Ho.
  - destruct st as [pr h]. simpl in Ho.
    rewrite (concat_wire pr h e nxt a o He Hn Ha Ho) in Hc.
    injection Hc as <- <-. by exists a, o.
  - unfold concat, isEmpty in Hc.
    rewrite !bool_decide_eq_false_2 in Hc by done. rewrite Ha in Hc.
    rewrite run_bind in Hc. unfold deref in Hc. by rewrite Ho in Hc.
Qed.

(** What [parsePipe] builds, whatever parser [rec] it is given for the
    right clause. *)
Lemma parsePipe_post (rec : M expr) (lhs e : expr) (st st' : state) :
  parsePipe rec lhs st = Ok (e, st') →
  ∃ (rhs : expr) (st0 st1 : state) (u : rune) (a : nat),
    lhs ≠ empty_expr
    ∧ p_next st = Ok (u, st0)
    ∧ rec st0 = Ok (rhs, st1)
    ∧ a = length (st_heap st1)
    ∧ length (st_heap st') = S a
    ∧ (∃ b, st_heap st' !! a = Some (pipeNode b))
    ∧ e = Expr (e_start rhs) (ptr a)
    ∧ wired (st_heap st') (e_end rhs) (ptr a)
    ∧ wired (st_heap st') (e_end lhs) (ptr a)
    ∧ e_start lhs ∈ eps_of (st_heap st') (e_start rhs).
Proof.
  intros Hrun. unfold parsePipe in Hrun.
  apply run_bind_Ok_inv in Hrun as (u & st0 & Hnext & Hrun).
  destruct (isEmpty lhs) eqn:Hlhs.
  { apply run_bind_Ok_inv in Hrun as (? & ? & _ & Hrun).
    apply run_bind_Ok_inv in Hrun as (? & ? & _ & Hrun). done. }
  apply bool_decide_eq_false in Hlhs.
  apply run_bind_Ok_inv in Hrun as (rhs & st1 & Hrec & Hrun).
  apply run_bind_Ok_inv in Hrun as ([] & st2 & Hadd & Hrun).
  apply update_Ok_inv in Hadd as (s & os & Hs & Hos & ->).
  apply run_bind_Ok_inv in Hrun as (n & st3 & Halloc & Hrun).
  destruct st1 as [pr1 h1]. simpl in *.
  rewrite run_alloc in Halloc. injection Halloc as <- <-.
  rewrite length_insert in Hrun.
  apply run_bind_Ok_inv in Hrun as (e1 & st4 & Hc1 & Hrun).
  apply run_bind_Ok_inv in Hrun as (e2 & st5 & Hc2 & Hrun).
  injection Hrun as <- <-.
  assert (Hrhs : rhs ≠ empty_expr) by (intros ->; done).
  apply concat_Ok_inv in Hc1 as (t & ot & Ht & Hot & -> & ->); [|done..].
  apply concat_Ok_inv in Hc2 as (v & ov & Hv & Hov & -> & ->); [|done..].
  simpl in *.
  set (h2 := <[s:=addEpsilon (e_start lhs) os]> h1) in *.
  set (h3 := h2 ++ [pipeNode []]) in *.
  set (h4 := <[t:=wire (ptr (length h1)) ot]> h3) in *.
  assert (Hlen3 : length h3 = S (length h1)).
  { unfold h3, h2. rewrite length_app, length_insert. simpl. lia. }
  assert (Hlen4 : length h4 = S (length h1)).
  { unfold h4. by rewrite length_insert. }
  pose proof (lookup_lt_Some _ _ _ Hot) as Hlt.
  pose proof (lookup_lt_Some _ _ _ Hov) as Hlv.
  exists rhs, st0, (State pr1 h1), u, (length h1).
  split_and!; try done.
  - rewrite length_insert. lia.
  - (* the pipe node stays a pipe node under the wiring *)
    assert (H3 : ∃ b, h3 !! length h1 = Some (pipeNode b)).
    { exists []. unfold h3. rewrite lookup_app_r; unfold h2;
        rewrite length_insert; [|lia]. by rewrite Nat.sub_diag. }
    assert (H4 : ∃ b, h4 !! length h1 = Some (pipeNode b)).
    { destruct H3 as [b Hb]. unfold h4.
      destruct (decide (t = length h1)) as [->|Hne].
      - rewrite list_lookup_insert_eq by lia.
        rewrite Hb in Hot. injection Hot as <-. unfold wire. simpl. eauto.
      - rewrite list_lookup_insert_ne by done. eauto. }
    destruct H4 as [b Hb].
    destruct (decide (v = length h1)) as [->|Hne].
    + rewrite list_lookup_insert_eq by lia.
      rewrite Hb in Hov. injection Hov as <-. unfold wire. simpl. eauto.
    + rewrite list_lookup_insert_ne by done. eauto.
  - (* the exit of the right clause *)
    rewrite Ht. unfold wired.
    destruct (decide (v = t)) as [->|Hne].
    + rewrite list_lookup_insert_eq by lia. apply wire_wired.
    + rewrite list_lookup_insert_ne by done.
      unfold h4. rewrite list_lookup_insert_eq by lia. apply wire_wired.
  - (* the exit of the left clause *)
    rewrite Hv. unfold wired.
    rewrite list_lookup_insert_eq by lia. apply wire_wired.
  - (* the epsilon edge from the right entry to the left entry *)
    rewrite Hs. unfold eps_of.
    pose proof (lookup_lt_Some _ _ _ Hos) as Hls.
    assert (H2 : ∃ o, h3 !! s = Some o ∧ e_start lhs ∈ epsilons o).
    { exists (addEpsilon (e_start lhs) os). split.
      - unfold h3, h2. rewrite lookup_app_l by (rewrite length_insert; lia).
        by rewrite list_lookup_insert_eq by lia.
      - destruct os; simpl; set_solver. }
    assert (H4 : ∃ o, h4 !! s = Some o ∧ e_start lhs ∈ epsilons o).
    { destruct H2 as (o & Ho & He). unfold h4.
      destruct (decide (t = s)) as [->|Hne].
      - rewrite list_lookup_insert_eq by lia.
        rewrite Ho in Hot. injection Hot as <-.
        eexists. split; [done|]. by apply epsilons_wire.
      - rewrite list_lookup_insert_ne by done. eauto. }
    destruct H4 as (o & Ho & He).
    destruct (decide (v = s)) as [->|Hne].
    + rewrite list_lookup_insert_eq by lia.
      rewrite Ho in Hov. injection Hov as <-. by apply epsilons_wire.
    + rewrite list_lookup_insert_ne by done. by rewrite Ho.
Qed.

Lemma parsePipe_example :
  parsePipe (parseClause 6) pipe_lhs pipe_state
  = Ok (Expr (ptr 1%nat) (ptr 2%nat),
        State (Parser (bytes_of_string "a|b") 3 0) pipe_heap).
Proof. vm_compute. reflexivity. Qed.

(** C5, as stated, has the epsilon edge the wrong way round.  In [a|b] the
    left clause's entry is node 0 and the right clause's entry is node 1:
    node 0 has no epsilon edge at all, and the right entry is not reachable
    from it; the edge goes from the right entry to the left entry. *)
Lemma alternation_edge_direction :
  parsePipe (parseClause 6) pipe_lhs pipe_state
  = Ok (Expr (ptr 1%nat) (ptr 2%nat),
        State (Parser (bytes_of_string "a|b") 3 0) pipe_heap)
  ∧ eps_of pipe_heap (e_start pipe_lhs) = []
  ∧ ¬ reach pipe_heap (e_start pipe_lhs) (ptr 1%nat)
  ∧ eps_of pipe_heap (ptr 1%nat) = [e_start pipe_lhs].
Proof.
  split_and!; [apply parsePipe_example|done| |done].
  intros Hr. inversion Hr as [|n e m He _]; subst.
  simpl in He. by apply elem_of_nil in He.
Qed.

(** C5 (amended): for every successful call of [parsePipe], with left
    clause [lhs] and right clause [rhs], the exits of both clauses are
    wired into one fresh pipe node, which is the exit of the result; the
    entry of the result is the entry of the right clause, and the entry of
    the right clause has an epsilon edge to the entry of the left clause:
    both entries are reachable from the entry of the result. *)
Theorem alternation_wiring (fuel : nat) (lhs e : expr) (st st' : state) :
  parsePipe (parseClause fuel) lhs st = Ok (e, st') →
  ∃ (rhs : expr) (st0 st1 : state) (u : rune) (a : nat),
    p_next st = Ok (u, st0)
    ∧ parseClause fuel st0 = Ok (rhs, st1)
    ∧ a = length (st_heap st1)
    ∧ length (st_heap st') = S a
    ∧ (∃ b, st_heap st' !! a = Some (pipeNode b))
    ∧ e_end e = ptr a
    ∧ e_start e = e_start rhs
    ∧ wired (st_heap st') (e_end rhs) (ptr a)
    ∧ wired (st_heap st') (e_end lhs) (ptr a)
    ∧ e_start lhs ∈ eps_of (st_heap st') (e_start rhs)
    ∧ reach (st_heap st') (e_start e) (e_start rhs)
    ∧ reach (st_heap st') (e_start e) (e_start lhs).
Proof.
  intros Hrun.
  destruct (parsePipe_post _ _ _ _ _ Hrun)
    as (rhs & st0 & st1 & u & a & _ & Hn & Hrec & Ha & Hlen & Hpipe & ->
        & Hwr & Hwl & Heps).
  exists rhs, st0, st1, u, a. simpl. split_and!; try done.
  - constructor.
  - apply reach_step with (e_start lhs); [done|constructor].
Qed.

Lemma alternation_wiring_witness :
  ∃ (rhs : expr) (st0 st1 : state) (u : rune) (a : nat),
    p_next pipe_state = Ok (u, st0)
    ∧ parseClause 6 st0 = Ok (rhs, st1)
    ∧ a = length (st_heap st1)
    ∧ length pipe_heap = S a
    ∧ (∃ b, pipe_heap !! a = Some (pipeNode b))
    ∧ ptr 2%nat = ptr a
    ∧ ptr 1%nat = e_start rhs
    ∧ wired pipe_heap (e_end rhs) (ptr a)
    ∧ wired pipe_heap (e_end pipe_lhs) (ptr a)
    ∧ e_start pipe_lhs ∈ eps_of pipe_heap (e_start rhs)
    ∧ reach pipe_heap (ptr 1%nat) (e_start rhs)
    ∧ reach pipe_heap (ptr 1%nat) (e_start pipe_lhs).
Proof.
  apply (alternation_wiring 6 pipe_lhs (Expr (ptr 1%nat) (ptr 2%nat))
           pipe_state (State (Parser (bytes_of_string "a|b") 3 0) pipe_heap)).
  vm_compute. reflexivity.
Defined.

(** ** C7: stacked quantifiers *)

Lemma decode_narrow b l :
  ((utf8.DecodeRuneInString (b :: l)).2 ≤ 1)%nat →
  (utf8.DecodeRuneInString (b :: l)).1 = utf8.RuneError
  ∨ (utf8.DecodeRuneInString (b :: l)).1 = b.
Proof.
  destruct l as [|b1 [|b2 [|b3 l]]]; decode_first b; decode_tests;
    intros; try lia; auto.
Qed.

(** An ASCII rune is its own, single byte. *)
Lemma decode_ascii_inv s r :
  0 ≤ r < 128 → (utf8.DecodeRuneInString s).1 = r →
  ∃ l, s = r :: l ∧ (utf8.DecodeRuneInString s).2 = 1%nat.
Proof.
  intros Hr Hd. destruct s as [|b l].
  { rewrite decode_nil in Hd. simpl in Hd. unfold utf8.RuneError in Hd. lia. }
  pose proof (decode_width b l) as Hw.
  pose proof (decode_wide_ge (b :: l)) as Hge.
  pose proof (decode_narrow b l) as Hn.
  destruct (utf8.DecodeRuneInString (b :: l)) as [c w]. simpl in *. subst c.
  assert (w = 1%nat) as -> by lia.
  destruct Hn as [Hn|Hn]; [lia| |]; [unfold utf8.RuneError in Hn; lia|].
  subst. by exists l.
Qed.

(** *** Operations on the node graph *)

Lemma graph_op_parser {A} (m : M A) pr h a st' :
  graph_op m → m (State pr h) = Ok (a, st') → st_p st' = pr.
Proof.
  intros Hm Hr. specialize (Hm pr pr h). rewrite Hr in Hm. simpl in Hm.
  by injection Hm as ->.
Qed.

Lemma graph_op_bind {A B} (m : M A) (f : A → M B) :
  graph_op m → (∀ a, graph_op (f a)) → graph_op (m ≫= f).
Proof.
  intros Hm Hf pr pr' h. rewrite !run_bind, (Hm pr pr' h).
  destruct (m (State pr h)) as [[a [pr1 h1]]| | |] eqn:Hr; simpl; try done.
  apply graph_op_parser in Hr; [|done]. simpl in Hr. subst pr1. apply Hf.
Qed.

Lemma graph_op_ret {A} (a : A) : graph_op (mret a).
Proof. done. Qed.

Lemma graph_op_fail {A} e : graph_op (fail (A := A) e).
Proof. done. Qed.

Lemma graph_op_panic {A} : graph_op (panic (A := A)).
Proof. done. Qed.

Lemma graph_op_alloc o : graph_op (alloc o).
Proof. done. Qed.

Lemma graph_op_deref n : graph_op (deref n).
Proof.
  intros pr pr' h. unfold deref. destruct n; [done|]. simpl.
  by destruct (h !! a).
Qed.

Lemma graph_op_update n f : graph_op (update n f).
Proof.
  intros pr pr' h. unfold update. destruct n; [done|]. simpl.
  by destruct (h !! a).
Qed.

Lemma graph_op_concat e nxt : graph_op (concat e nxt).
Proof.
  unfold concat. destruct (isEmpty e); [apply graph_op_ret|].
  destruct (isEmpty nxt); [apply graph_op_ret|].
  destruct (e_end e); [apply graph_op_panic|].
  apply graph_op_bind; [apply graph_op_deref|]. intros o.
  apply graph_op_bind; [|intros; apply graph_op_ret].
  destruct (is_matchNode o); apply graph_op_update.
Qed.

Create HintDb graph_op.
#[global] Hint Resolve graph_op_ret graph_op_fail graph_op_panic
  graph_op_alloc graph_op_deref graph_op_update graph_op_concat : graph_op.

Ltac graph_op :=
  repeat first
    [ apply graph_op_bind; [|intros ?]
    | match goal with |- graph_op (if ?c then _ else _) => destruct c end
    | progress (unfold concatNode, addEpsilon_at, setNext_at)
    | solve [auto with graph_op] ].

Lemma is_quantifier_cases q :
  is_quantifier q = true → q = 63 ∨ q = 43 ∨ q = 42.
Proof.
  unfold is_quantifier. intros Hq.
  destruct (Z.eqb_spec q (chr "?")); [by left|].
  destruct (Z.eqb_spec q (chr "+")); [by right; left|].
  destruct (Z.eqb_spec q (chr "*")); [by right; right|done].
Qed.

Section stacked_quantifiers.

(** The pattern [u q1 q2 v]: two quantifier characters in a row, the
    first of them not escaped.  [x] is the pattern cut after [q1]. *)
Variables (u v : list Z) (q1 q2 : Z).
Hypothesis Hq1 : is_quantifier q1 = true.
Hypothesis Hq2 : is_quantifier q2 = true.
Hypothesis Hu : last u ≠ Some (chr "\").

Let x : list Z := u ++ [q1].
Let w : list Z := u ++ q1 :: q2 :: v.
Let n : nat := S (length u).

Local Lemma w_eq : w = x ++ q2 :: v.
Proof. unfold w, x. by rewrite <- app_assoc. Qed.

Local Lemma length_x : length x = n.
Proof. unfold x, n. rewrite length_app. simpl. lia. Qed.

Local Lemma q1_ascii : 0 ≤ q1 < 128.
Proof. destruct (is_quantifier_cases _ Hq1) as [-> | [-> | ->]]; lia. Qed.

Local Lemma q2_ascii : 0 ≤ q2 < 128.
Proof. destruct (is_quantifier_cases _ Hq2) as [-> | [-> | ->]]; lia. Qed.

(** Before the end of [x] the two patterns decode alike. *)
Local Lemma decode_agree p :
  (p < n)%nat →
  utf8.DecodeRuneInString (drop p w) = utf8.DecodeRuneInString (drop p x).
Proof.
  intros Hp. rewrite w_eq, drop_app_le by (rewrite length_x; lia).
  apply decode_app_ascii; [|apply q2_ascii].
  intros Hnil. apply (f_equal length) in Hnil.
  rewrite length_drop, length_x in Hnil. simpl in Hnil. lia.
Qed.

Local Lemma rune_agree p : (p < n)%nat → rune_at w p = rune_at x p.
Proof. intros. unfold rune_at. by rewrite decode_agree. Qed.

Local Lemma width_agree p : (p < n)%nat → width_at w p = width_at x p.
Proof. intros. unfold width_at. by rewrite decode_agree. Qed.

Local Lemma rune_at_n : rune_at w n = q2.
Proof.
  unfold rune_at. rewrite w_eq, <- length_x, drop_app_length.
  rewrite decode_ascii by apply q2_ascii. done.
Qed.

Local Lemma rune_at_q1 : rune_at x (length u) = q1.
Proof.
  unfold rune_at, x. rewrite drop_app_length.
  rewrite decode_ascii by apply q1_ascii. done.
Qed.

(** A rune that starts inside [u] ends inside [u]. *)
Local Lemma width_inside p :
  (p < length u)%nat → (p + width_at x p ≤ length u)%nat.
Proof.
  intros Hp. unfold width_at, x. rewrite drop_app_le by lia.
  destruct (drop p u) as [|b l] eqn:Hd.
  { apply (f_equal length) in Hd. rewrite length_drop in Hd. simpl in Hd. lia. }
  rewrite decode_app_ascii by (done || apply q1_ascii).
  pose proof (decode_width b l) as Hw.
  apply (f_equal length) in Hd. rewrite length_drop in Hd. simpl in *. lia.
Qed.

(** A backslash inside [u] is not the last byte of [u]. *)
Local Lemma backslash_inside p :
  (p < length u)%nat → rune_at x p = chr "\" →
  (p + width_at x p < length u)%nat.
Proof.
  intros Hp Hr. unfold rune_at, width_at, x in *.
  rewrite drop_app_le in * by lia.
  destruct (drop p u) as [|b l] eqn:Hd.
  { apply (f_equal length) in Hd. rewrite length_drop in Hd. simpl in Hd. lia. }
  rewrite decode_app_ascii in * by (done || apply q1_ascii).
  destruct (decode_ascii_inv (b :: l) (chr "\")) as (l' & Hl & Hw);
    [by vm_compute|done|].
  rewrite Hw. injection Hl as -> <-.
  destruct (decide (p + 1 < length u)%nat) as [|Hge]; [done|].
  exfalso. apply Hu.
  assert (Hlen : length (drop p u) = 1%nat)
    by (rewrite length_drop; lia).
  rewrite Hd in Hlen. destruct l; [|done].
  rewrite <- (take_drop p u), Hd. by rewrite last_snoc.
Qed.

Definition diverging : error := InvalidCharacter q2 n.

(** The run on [w] either has met [q2] where a term must start, or it
    has gone the way of the run on [x], which then has not passed the
    position that [bound] allows. *)
Definition sim {A} (bound : nat → Prop) (rx rw : result (A * state)) : Prop :=
  rw = Err diverging
  ∨ (rw = retarget w rx
     ∧ ∀ a st, rx = Ok (a, st) →
         p_in (st_p st) = x ∧ bound (pos (st_p st))).

Lemma sim_bind {A C} (B B' : nat → Prop) (m : M A) (f : A → M C) st :
  sim B (m st) (m (set_in w st)) →
  (∀ a st', m st = Ok (a, st') → p_in (st_p st') = x → B (pos (st_p st')) →
            sim B' (f a st') (f a (set_in w st'))) →
  sim B' ((m ≫= f) st) ((m ≫= f) (set_in w st)).
Proof.
  intros [Hd|[Hs Hb]] Hf; rewrite !run_bind.
  - rewrite Hd. by left.
  - rewrite Hs. destruct (m st) as [[a st']| | |] eqn:Hm; simpl;
      try (right; split; [done|by intros]).
    destruct (Hb a st' eq_refl). by apply Hf.
Qed.

Lemma sim_graph_op {A} (B : nat → Prop) (m : M A) st :
  graph_op m → p_in (st_p st) = x →
  (∀ a st', m st = Ok (a, st') → B (pos (st_p st))) →
  sim B (m st) (m (set_in w st)).
Proof.
  intros Hm Hx HB. right. destruct st as [pr h]. unfold set_in. simpl.
  rewrite (Hm pr _ h).
  destruct (m (State pr h)) as [[a [pr1 h1]]| | |] eqn:Hr; simpl;
    try (split; [done|by intros]).
  pose proof (HB _ _ eq_refl) as HB'.
  apply graph_op_parser in Hr; [|done]. simpl in Hr. subst pr1.
  split; [done|]. intros ?? [= <- <-]. done.
Qed.

Lemma sim_weaken {A} (B B' : nat → Prop) (rx rw : result (A * state)) :
  (∀ p, B p → B' p) → sim B rx rw → sim B' rx rw.
Proof.
  intros HB [Hd|[Hs Hb]]; [by left|right]. split; [done|].
  intros a st Hr. destruct (Hb a st Hr). auto.
Qed.

Lemma sim_get_pos (B : nat → Prop) st :
  p_in (st_p st) = x → B (pos (st_p st)) →
  sim B (get_pos st) (get_pos (set_in w st)).
Proof. intros Hx HB. right. split; [done|]. by intros ?? [= <- <-]. Qed.

Lemma sim_p_next st :
  p_in (st_p st) = x → (pos (st_p st) < n)%nat →
  sim (λ p', p' = pos (st_p st) + width_at x (pos (st_p st)))%nat
      (p_next st) (p_next (set_in w st)).
Proof.
  intros Hx Hp. right. destruct st as [[inp p wd] h]. simpl in *. subst inp.
  unfold set_in. simpl. rewrite !run_p_next.
  rewrite rune_agree, width_agree by done.
  split; [done|]. by intros ?? [= <- <-].
Qed.

Lemma sim_peek st :
  p_in (st_p st) = x → (pos (st_p st) < n)%nat →
  sim (λ p', p' = pos (st_p st)) (peek st) (peek (set_in w st)).
Proof.
  intros Hx Hp. right. destruct st as [[inp p wd] h]. simpl in *. subst inp.
  unfold set_in. simpl. rewrite !run_peek.
  rewrite rune_agree by done.
  split; [done|]. by intros ?? [= <- <-].
Qed.

Lemma peek_Ok_inv st r st' :
  peek st = Ok (r, st') →
  r = rune_at (p_in (st_p st)) (pos (st_p st)).
Proof.
  destruct st as [[inp p wd] h]. rewrite run_peek. by intros [= <- <-].
Qed.

Lemma p_next_Ok_inv st r st' :
  p_next st = Ok (r, st') →
  r = rune_at (p_in (st_p st)) (pos (st_p st)).
Proof.
  destruct st as [[inp p wd] h]. rewrite run_p_next. by intros [= <- <-].
Qed.

(** A position of [x] that does not hold a quantifier lies inside [u]. *)
Local Lemma inside_u p :
  (p < n)%nat → rune_at x p ≠ q1 → (p < length u)%nat.
Proof.
  intros Hp Hr. destruct (decide (p = length u)) as [->|]; [|unfold n in Hp; lia].
  by rewrite rune_at_q1 in Hr.
Qed.

Lemma sim_parseLiteral st :
  p_in (st_p st) = x → (pos (st_p st) < length u)%nat →
  sim (λ p, p ≤ length u)%nat (parseLiteral st) (parseLiteral (set_in w st)).
Proof.
  intros Hx Hp. unfold parseLiteral.
  eapply sim_bind; [apply sim_p_next; [done|unfold n; lia]|].
  intros r st1 _ Hx1 Hp1. cbv beta in *.
  apply sim_graph_op; [graph_op|done|]. intros _ _ _.
  rewrite Hp1. by apply width_inside.
Qed.

Lemma sim_parseDot st :
  p_in (st_p st) = x → (pos (st_p st) < length u)%nat →
  sim (λ p, p ≤ length u)%nat (parseDot st) (parseDot (set_in w st)).
Proof.
  intros Hx Hp. unfold parseDot.
  eapply sim_bind; [apply sim_p_next; [done|unfold n; lia]|].
  intros r st1 _ Hx1 Hp1. cbv beta in *.
  apply sim_graph_op; [graph_op|done|]. intros _ _ _.
  rewrite Hp1. by apply width_inside.
Qed.

Lemma sim_parseEscape st :
  p_in (st_p st) = x → (pos (st_p st) < length u)%nat →
  rune_at x (pos (st_p st)) = chr "\" →
  sim (λ p, p ≤ length u)%nat (parseEscape st) (parseEscape (set_in w st)).
Proof.
  intros Hx Hp Hr. unfold parseEscape.
  eapply sim_bind; [apply sim_p_next; [done|unfold n; lia]|].
  intros r0 st1 _ Hx1 Hp1. cbv beta in *.
  pose proof (backslash_inside _ Hp Hr) as Hin. rewrite <- Hp1 in Hin.
  eapply sim_bind; [apply sim_peek; [done|unfold n; lia]|].
  intros r st2 _ Hx2 Hp2. cbv beta in *.
  match goal with |- context [if ?c then _ else _] => destruct c end.
  - apply sim_parseLiteral; [done|lia].
  - right. split; [done|by intros].
Qed.

Lemma sim_parseMeta e st :
  p_in (st_p st) = x → (pos (st_p st) ≤ length u)%nat →
  sim (λ p, p ≤ n)%nat (parseMeta e st) (parseMeta e (set_in w st)).
Proof.
  intros Hx Hp. unfold parseMeta.
  eapply sim_bind; [apply sim_p_next; [done|unfold n; lia]|].
  intros mc st1 _ Hx1 Hp1. cbv beta in *.
  apply sim_graph_op; [graph_op|done|]. intros _ _ _.
  rewrite Hp1. rewrite <- length_x.
  apply width_at_bounds. rewrite length_x. unfold n. lia.
Qed.

(** The recursive calls: the clause parser started at any position of
    [x]. *)
Definition rec_ok (rec : M expr) : Prop :=
  ∀ st, p_in (st_p st) = x → (pos (st_p st) ≤ n)%nat →
        sim (λ p, p < n)%nat (rec st) (rec (set_in w st)).

Lemma q1_not_rparen : q1 ≠ chr ")".
Proof. destruct (is_quantifier_cases _ Hq1) as [-> | [-> | ->]]; done. Qed.

Lemma q1_not_pipe : q1 ≠ chr "|".
Proof. destruct (is_quantifier_cases _ Hq1) as [-> | [-> | ->]]; done. Qed.

Lemma sim_parseSubexp rec st :
  rec_ok rec →
  p_in (st_p st) = x → (pos (st_p st) < length u)%nat →
  sim (λ p, p ≤ length u)%nat
      (parseSubexp rec st) (parseSubexp rec (set_in w st)).
Proof.
  intros Hrec Hx Hp. unfold parseSubexp.
  eapply sim_bind; [by apply (sim_get_pos (λ p, p < length u)%nat)|].
  intros start st0 [= <- <-] _ _.
  eapply sim_bind; [apply sim_p_next; [done|unfold n; lia]|].
  intros r0 st1 _ Hx1 Hp1. cbv beta in *.
  pose proof (width_inside _ Hp) as Hin. rewrite <- Hp1 in Hin.
  eapply sim_bind; [apply Hrec; [done|unfold n; lia]|].
  intros e st2 _ Hx2 Hp2. cbv beta in *.
  eapply sim_bind; [by apply sim_p_next|].
  intros r st3 Hr Hx3 Hp3. apply p_next_Ok_inv in Hr. rewrite Hx2 in Hr. cbv beta in *.
  destruct (Z.eqb_spec r (chr ")")) as [Hrp|Hrp].
  - apply sim_graph_op; [graph_op|done|]. intros _ _ _.
    rewrite Hp3. apply width_inside. apply inside_u; [done|].
    rewrite <- Hr, Hrp. intros Heq. by apply q1_not_rparen.
  - apply sim_graph_op; [graph_op|done|]. intros e' st' Hrun. exfalso.
    apply run_bind_Ok_inv in Hrun as (? & ? & _ & Hrun).
    apply run_bind_Ok_inv in Hrun as (? & ? & _ & Hrun).
    apply run_bind_Ok_inv in Hrun as (? & ? & _ & Hrun).
    apply run_bind_Ok_inv in Hrun as (? & ? & _ & Hrun). done.
Qed.

Lemma sim_parseTerm rec st :
  rec_ok rec →
  p_in (st_p st) = x → (pos (st_p st) < n)%nat →
  sim (λ p, p ≤ n)%nat (parseTerm rec st) (parseTerm rec (set_in w st)).
Proof.
  intros Hrec Hx Hp. unfold parseTerm.
  eapply sim_bind; [by apply sim_peek|].
  intros r st1 Hr Hx1 Hp1. apply peek_Ok_inv in Hr. rewrite Hx in Hr. cbv beta in *.
  destruct (is_quantifier r) eqn:Hq.
  { right. split; [done|by intros]. }
  assert (Hin : (pos (st_p st1) < length u)%nat).
  { rewrite Hp1. apply inside_u; [done|].
    rewrite <- Hr. intros ->. by rewrite Hq1 in Hq. }
  eapply sim_bind with (B := (λ p, p ≤ length u)%nat).
  { destruct (r =? chr "("); [by apply sim_parseSubexp|].
    destruct (Z.eqb_spec r (chr "\")) as [Hb|_].
    { apply sim_parseEscape; [done..|]. by rewrite Hp1, <- Hr. }
    destruct (r =? chr "."); [by apply sim_parseDot|].
    by apply sim_parseLiteral. }
  intros e st2 _ Hx2 Hp2. cbv beta in *.
  eapply sim_bind; [apply sim_peek; [done|unfold n; lia]|].
  intros r2 st3 _ Hx3 Hp3. cbv beta in *.
  destruct (is_quantifier r2).
  - apply sim_parseMeta; [done|lia].
  - apply sim_graph_op; [graph_op|done|]. intros _ _ _. unfold n. lia.
Qed.

Lemma sim_parsePipe rec lhs st :
  rec_ok rec →
  p_in (st_p st) = x → (pos (st_p st) < length u)%nat →
  sim (λ p, p < n)%nat
      (parsePipe rec lhs st) (parsePipe rec lhs (set_in w st)).
Proof.
  intros Hrec Hx Hp. unfold parsePipe.
  eapply sim_bind; [apply sim_p_next; [done|unfold n; lia]|].
  intros r0 st1 _ Hx1 Hp1. cbv beta in *.
  pose proof (width_inside _ Hp) as Hin. rewrite <- Hp1 in Hin.
  destruct (isEmpty lhs).
  - eapply sim_bind; [apply sim_peek; [done|unfold n; lia]|].
    intros c st2 _ Hx2 Hp2. right. split; [done|by intros].
  - eapply sim_bind; [apply Hrec; [done|unfold n; lia]|].
    intros e st2 _ Hx2 Hp2. cbv beta in *.
    apply sim_graph_op; [graph_op|done|]. by intros _ _ _.
Qed.

(** At the end of [x] the run on [w] finds [q2] where a term must
    start. *)
Lemma quantifier_tests q :
  is_quantifier q = true →
  (q =? utf8.RuneError) = false ∧ (q =? chr ")") = false
  ∧ (q =? chr "|") = false.
Proof.
  intros Hq. destruct (is_quantifier_cases _ Hq) as [-> | [-> | ->]];
    by vm_compute.
Qed.

Lemma clause_diverges fuel e wd h :
  parseClause_loop (S fuel) e (State (Parser w n wd) h) = Err diverging.
Proof.
  simpl parseClause_loop. unfold parseTerm. run. rewrite rune_at_n.
  destruct (quantifier_tests _ Hq2) as (-> & -> & ->). cbn [orb].
  run. rewrite rune_at_n, Hq2. run. reflexivity.
Qed.

Lemma sim_parseClause_loop fuel : ∀ e, rec_ok (parseClause_loop fuel e).
Proof.
  induction fuel as [|fuel IH]; intros e st Hx Hp.
  { right. split; [done|by intros]. }
  destruct (decide (pos (st_p st) = n)) as [Hn|Hn].
  { left. destruct st as [[inp p wd] h]. simpl in *. subst.
    apply clause_diverges. }
  simpl parseClause_loop.
  eapply sim_bind; [apply sim_peek; [done|lia]|].
  intros r st1 Hr Hx1 Hp1. apply peek_Ok_inv in Hr. rewrite Hx in Hr. cbv beta in *.
  destruct ((r =? utf8.RuneError) || (r =? chr ")")).
  { apply sim_graph_op; [graph_op|done|]. intros _ _ _. lia. }
  destruct (Z.eqb_spec r (chr "|")) as [Hpipe|_].
  - eapply sim_bind.
    + apply sim_parsePipe; [apply IH|done|].
      rewrite Hp1. apply inside_u; [lia|].
      rewrite <- Hr, Hpipe. intros Heq. by apply q1_not_pipe.
    + intros e' st2 _ Hx2 Hp2. cbv beta in *. apply IH; [done|lia].
  - eapply sim_bind; [apply sim_parseTerm; [apply IH|done|lia]|].
    intros nxt st2 _ Hx2 Hp2. cbv beta in *.
    eapply sim_bind with (B := (λ p, p ≤ n)%nat).
    { apply sim_graph_op; [graph_op|done|]. by intros _ _ _. }
    intros e' st3 _ Hx3 Hp3. cbv beta in *. by apply IH.
Qed.

End stacked_quantifiers.

(** *** More fuel does not change an outcome *)

Lemma M_grows_refl {A} (m : M A) : M_grows m m.
Proof. intros st. by right. Qed.

Lemma M_grows_bind {A B} (m m' : M A) (f f' : A → M B) :
  M_grows m m' → (∀ a, M_grows (f a) (f' a)) →
  M_grows (m ≫= f) (m' ≫= f').
Proof.
  intros Hm Hf st. rewrite !run_bind.
  destruct (Hm st) as [-> | ->]; [by left|].
  destruct (m st) as [[a st']| | |]; try (by right). apply Hf.
Qed.

Ltac M_grows :=
  repeat first
    [ apply M_grows_refl
    | apply M_grows_bind; [|intros ?]
    | match goal with
      | |- M_grows (if ?c then _ else _) (if ?c then _ else _) => destruct c
      end
    | assumption ].

Lemma parseSubexp_grows rec rec' :
  M_grows rec rec' → M_grows (parseSubexp rec) (parseSubexp rec').
Proof. intros Hrec. unfold parseSubexp. M_grows. Qed.

Lemma parseTerm_grows rec rec' :
  M_grows rec rec' → M_grows (parseTerm rec) (parseTerm rec').
Proof.
  intros Hrec. unfold parseTerm. M_grows.
Qed.

Lemma parsePipe_grows rec rec' lhs :
  M_grows rec rec' → M_grows (parsePipe rec lhs) (parsePipe rec' lhs).
Proof. intros Hrec. unfold parsePipe. M_grows. Qed.

Lemma parseClause_loop_grows fuel : ∀ fuel' e,
  (fuel ≤ fuel')%nat →
  M_grows (parseClause_loop fuel e) (parseClause_loop fuel' e).
Proof.
  induction fuel as [|fuel IH]; intros fuel' e Hle; [by left|].
  destruct fuel' as [|fuel']; [lia|]. simpl.
  assert (Hrec : ∀ e', M_grows (parseClause_loop fuel e')
                               (parseClause_loop fuel' e'))
    by (intros; apply IH; lia).
  M_grows; first [apply Hrec | by apply parsePipe_grows | by apply parseTerm_grows].
Qed.

Lemma parse_fuel_grows fuel fuel' inp :
  (fuel ≤ fuel')%nat → grows (parse_fuel fuel inp) (parse_fuel fuel' inp).
Proof.
  intros Hle. unfold parse_fuel.
  assert (H : M_grows (parse_body fuel (length inp))
                      (parse_body fuel' (length inp))).
  { unfold parse_body, parseClause. M_grows.
    by apply parseClause_loop_grows. }
  destruct (H (State (Parser inp 0 0) [])) as [-> | ->]; [by left|by right].
Qed.

(** The two patterns at the top level: the run on [u q1 q2 v] stops with
    "Invalid character" at [q2], unless the run on [u q1] has already
    failed before its end, and then both fail. *)
Lemma parse_stacked fuel (u v : list Z) (q1 q2 : Z) :
  is_quantifier q1 = true → is_quantifier q2 = true →
  last u ≠ Some (chr "\") →
  parse_fuel fuel (u ++ q1 :: q2 :: v)
  = Err (InvalidCharacter q2 (S (length u)))
  ∨ (∃ e e', parse_fuel fuel (u ++ [q1]) = Err e
             ∧ parse_fuel fuel (u ++ q1 :: q2 :: v) = Err e')
  ∨ (parse_fuel fuel (u ++ [q1]) = Panic
     ∧ parse_fuel fuel (u ++ q1 :: q2 :: v) = Panic)
  ∨ (parse_fuel fuel (u ++ [q1]) = OutOfFuel
     ∧ parse_fuel fuel (u ++ q1 :: q2 :: v) = OutOfFuel).
Proof.
  intros Hq1 Hq2 Hu. unfold parse_fuel, parse_body, parseClause.
  pose proof (sim_parseClause_loop u v q1 q2 Hq1 Hq2 Hu fuel empty_expr
                (State (Parser (u ++ [q1]) 0 0) []) eq_refl ltac:(simpl; lia))
    as Hsim.
  unfold set_in in Hsim. simpl in Hsim.
  rewrite !run_bind.
  destruct Hsim as [->|[-> Hb]]; [by left|].
  destruct (parseClause_loop fuel empty_expr
              (State (Parser (u ++ [q1]) 0 0) []))
    as [[e [[inp p wd] h]]| | |]; simpl; [|right; left; eauto|tauto..].
  destruct (Hb _ _ eq_refl) as [Hin Hp]. simpl in Hin, Hp. subst inp.
  right; left. unfold set_in. cbn [st_p st_heap pos width p_in]. run.
  rewrite !length_app. cbn [length].
  destruct (Nat.eqb_spec p (length u + 1)) as [|_]; [lia|].
  destruct (Nat.eqb_spec p (length u + S (S (length v)))) as [|_]; [lia|].
  cbn [negb]. unfold backup. run. cbn [st_p st_heap pos width p_in]. run.
  eauto.
Qed.

(** X28: where the claim of C7 holds.  [u] followed by [q1] is a pattern
    whose last character is the quantifier [q1] (not an escaped literal:
    [u] does not end in a backslash).  If that pattern compiles, the
    pattern that goes on with another quantifier character [q2] is
    rejected with "Invalid character [q2]" at the position of [q2],
    whatever follows; if it is rejected with an error itself (as inside a
    group that is still open), the longer pattern is rejected with an
    error too. *)
Theorem stacked_quantifier_error (u v : string) (q1 q2 : ascii) :
  is_quantifier (chr q1) = true → is_quantifier (chr q2) = true →
  last (bytes_of_string u) ≠ Some (chr "\") →
  (∀ r h, Compile (u ++ String q1 "")%string = Ok (r, h) →
          Compile (u ++ String q1 (String q2 v))%string
          = Err (InvalidCharacter (chr q2) (S (length (bytes_of_string u)))))
  ∧ (∀ e, Compile (u ++ String q1 "")%string = Err e →
          ∃ e', Compile (u ++ String q1 (String q2 v))%string = Err e').
Proof.
  intros Hq1 Hq2 Hu. unfold Compile, parse.
  rewrite !bytes_of_string_app.
  change (bytes_of_string (String q1 "")) with (@cons Z (chr q1) []).
  change (bytes_of_string (String q1 (String q2 v)))
    with (@cons Z (chr q1) (@cons Z (chr q2) (bytes_of_string v))).
  set (bu := bytes_of_string u) in *. set (bv := bytes_of_string v).
  remember (2 * length (bu ++ [chr q1]) + 1)%nat as fx eqn:Hfx.
  remember (2 * length (bu ++ chr q1 :: chr q2 :: bv) + 1)%nat as fw eqn:Hfw.
  assert (Hle : (fx ≤ fw)%nat).
  { subst fx fw. rewrite !length_app. simpl. lia. }
  clear Hfx Hfw.
  pose proof (parse_fuel_grows fx fw (bu ++ [chr q1]) Hle) as Hg.
  pose proof (parse_stacked fw bu bv (chr q1) (chr q2) Hq1 Hq2 Hu) as Hs.
  split.
  - intros r h Hc.
    destruct (parse_fuel fx (bu ++ [chr q1])) as [[[s t] h0]| | |] eqn:Hx;
      try done.
    destruct Hg as [|Hg]; [done|].
    destruct Hs as [Hs|[(e & e' & He & _)|[[Hp _]|[Ho _]]]]; [|congruence..].
    match goal with
    | |- ?m ≫= _ = _ =>
      replace m with (Err (A := node * node * heap)
                          (InvalidCharacter (chr q2) (S (length bu))))
        by (symmetry; exact Hs)
    end.
    done.
  - intros e Hc.
    destruct (parse_fuel fx (bu ++ [chr q1])) as [[[s t] h0]| | |] eqn:Hx;
      try done.
    destruct Hg as [|Hg]; [done|].
    destruct Hs as [Hs|[(e1 & e' & He & Hs)|[[Hp _]|[Ho _]]]];
      [| |congruence..].
    + eexists.
      match goal with
      | |- ?m ≫= _ = _ =>
        replace m with (Err (A := node * node * heap)
                            (InvalidCharacter (chr q2) (S (length bu))))
          by (symmetry; exact Hs)
      end.
      done.
    + exists e'.
      match goal with
      | |- ?m ≫= _ = _ =>
        replace m with (Err (A := node * node * heap) e')
          by (symmetry; exact Hs)
      end.
      done.
Qed.

Lemma stacked_quantifier_error_witness :
  (∀ r h, Compile ("a" ++ String "*" "")%string = Ok (r, h) →
          Compile ("a" ++ String "*" (String "*" ""))%string
          = Err (InvalidCharacter (chr "*") (S (length (bytes_of_string "a")))))
  ∧ (∀ e, Compile ("a" ++ String "*" "")%string = Err e →
          ∃ e', Compile ("a" ++ String "*" (String "*" ""))%string = Err e').
Proof.
  apply (stacked_quantifier_error "a" "" "*" "*").
  - vm_compute. reflexivity.
  - vm_compute. reflexivity.
  - vm_compute. discriminate.
Defined.

(** The pattern [a**] itself, and a stacked quantifier inside a group. *)
Lemma stacked_quantifier_examples :
  Compile "a**" = Err (InvalidCharacter 42 2)
  ∧ Compile "a+*" = Err (InvalidCharacter 42 2)
  ∧ Compile "a?+b" = Err (InvalidCharacter 43 2)
  ∧ Compile "(a**)" = Err (InvalidCharacter 42 3)
  ∧ Compile "b|a*?" = Err (InvalidCharacter 63 4).
Proof. split_and!; vm_compute; reflexivity. Qed.

(** C7 fails when the stacked quantifiers come after an alternation whose
    right operand is empty: [parsePipe] panics on the empty right clause
    (the defect of C6) before the parser reaches the quantifiers, and
    [Compile] returns no error.  The patterns without the second
    quantifier panic in the same way. *)
Theorem stacked_quantifier_after_empty_operand_panics :
  Compile "(a|)b**" = Panic
  ∧ Compile "(a|)b+?" = Panic
  ∧ Compile "a|)b**" = Panic
  ∧ Compile "(a|)b*" = Panic.
Proof. split_and!; vm_compute; reflexivity. Qed.

(** ** The scanner never passes a rune that does not decode *)

Lemma total_op_bind {A B} (m : M A) (f : A → M B) :
  total_op m → (∀ a, total_op (f a)) → total_op (m ≫= f).
Proof.
  intros Hm Hf st. rewrite run_bind. specialize (Hm st).
  destruct (m st) as [[a st']| | |]; try done. apply Hf.
Qed.

Lemma total_op_ret {A} (a : A) : total_op (mret a).
Proof. done. Qed.

Lemma total_op_fail {A} e : total_op (fail (A := A) e).
Proof. done. Qed.

Lemma total_op_panic {A} : total_op (panic (A := A)).
Proof. done. Qed.

Lemma total_op_alloc o : total_op (alloc o).
Proof. done. Qed.

Lemma total_op_deref n : total_op (deref n).
Proof.
  intros st. unfold deref. destruct n; [done|]. by destruct (st_heap st !! a).
Qed.

Lemma total_op_update n f : total_op (update n f).
Proof.
  intros st. unfold update. destruct n; [done|]. by destruct (st_heap st !! a).
Qed.

Lemma total_op_concat e nxt : total_op (concat e nxt).
Proof.
  unfold concat. destruct (isEmpty e); [apply total_op_ret|].
  destruct (isEmpty nxt); [apply total_op_ret|].
  destruct (e_end e); [apply total_op_panic|].
  apply total_op_bind; [apply total_op_deref|]. intros o.
  apply total_op_bind; [|intros; apply total_op_ret].
  destruct (is_matchNode o); apply total_op_update.
Qed.

Create HintDb total_op.
#[global] Hint Resolve total_op_ret total_op_fail total_op_panic
  total_op_alloc total_op_deref total_op_update total_op_concat : total_op.

Ltac total_op :=
  repeat first
    [ apply total_op_bind; [|intros ?]
    | match goal with |- total_op (if ?c then _ else _) => destruct c end
    | progress (unfold concatNode, addEpsilon_at, setNext_at)
    | solve [auto with total_op] ].

Lemma hoare_bind {A B} (m : M A) (f : A → M B) st
    (Q1 : A → state → Prop) (Q : B → state → Prop) :
  hoare m st Q1 → (∀ a st', Q1 a st' → hoare (f a) st' Q) →
  hoare (m ≫= f) st Q.
Proof.
  unfold hoare. intros Hm Hf. rewrite run_bind.
  destruct (m st) as [[a st']| | |]; try done. by apply Hf.
Qed.

Lemma hoare_conseq {A} (m : M A) st (Q Q' : A → state → Prop) :
  hoare m st Q → (∀ a st', Q a st' → Q' a st') → hoare m st Q'.
Proof.
  unfold hoare. intros Hm HQ. destruct (m st) as [[a st']| | |]; auto.
Qed.

Lemma hoare_graph_op {A} (m : M A) st :
  graph_op m → total_op m → hoare m st (λ _ st', st_p st' = st_p st).
Proof.
  intros Hg Ht. unfold hoare. specialize (Ht st). destruct st as [pr h].
  destruct (m (State pr h)) as [[a st']| | |] eqn:Hr; try done.
  by apply graph_op_parser in Hr.
Qed.

Lemma hoare_never_Ok {A} (m : M A) st (Q : A → state → Prop) :
  total_op m → (∀ a st', m st ≠ Ok (a, st')) → hoare m st Q.
Proof.
  intros Ht Hn. unfold hoare. specialize (Ht st).
  destruct (m st) as [[a st']| | |] eqn:Hr; try done. by destruct (Hn a st').
Qed.

Lemma hoare_p_next st :
  hoare p_next st (λ r st',
    r = rune_at (p_in (st_p st)) (pos (st_p st))
    ∧ p_in (st_p st') = p_in (st_p st)
    ∧ pos (st_p st')
      = (pos (st_p st) + width_at (p_in (st_p st)) (pos (st_p st)))%nat).
Proof. destruct st as [[inp p wd] h]. unfold hoare. by rewrite run_p_next. Qed.

Lemma hoare_peek st :
  hoare peek st (λ r st',
    r = rune_at (p_in (st_p st)) (pos (st_p st))
    ∧ p_in (st_p st') = p_in (st_p st)
    ∧ pos (st_p st') = pos (st_p st)).
Proof. destruct st as [[inp p wd] h]. unfold hoare. by rewrite run_peek. Qed.

Lemma hoare_get_pos st :
  hoare get_pos st (λ p st', p = pos (st_p st) ∧ st' = st).
Proof. destruct st as [[inp p wd] h]. unfold hoare. by rewrite run_get_pos. Qed.

Lemma hoare_fail {A} e st (Q : A → state → Prop) : hoare (fail e) st Q.
Proof. done. Qed.

Lemma hoare_ret {A} (a : A) st (Q : A → state → Prop) :
  Q a st → hoare (mret a) st Q.
Proof. done. Qed.

Section scanning.

Variable inp : list Z.

(** From position [p] to position [p'] the string decodes to runes none of
    which is [RuneError]. *)
Definition scanned (p p' : nat) : Prop :=
  (p ≤ p')%nat
  ∧ ∃ cs, runes (drop p inp) = cs ++ runes (drop p' inp)
          ∧ utf8.RuneError ∉ cs.

Lemma scanned_refl p : scanned p p.
Proof. split; [done|]. exists []. split; [done|]. apply not_elem_of_nil. Qed.

Lemma scanned_trans p1 p2 p3 : scanned p1 p2 → scanned p2 p3 → scanned p1 p3.
Proof.
  intros (Hle1 & cs1 & H1 & Hn1) (Hle2 & cs2 & H2 & Hn2).
  split; [lia|]. exists (cs1 ++ cs2). split.
  - by rewrite H1, H2, app_assoc.
  - intros [?|?]%elem_of_app; done.
Qed.

Lemma rune_lt p :
  rune_at inp p ≠ utf8.RuneError → (p < length inp)%nat.
Proof.
  intros Hr. destruct (decide (p < length inp)%nat); [done|].
  destruct Hr. apply rune_at_end. lia.
Qed.

Lemma scanned_step p :
  rune_at inp p ≠ utf8.RuneError → scanned p (p + width_at inp p).
Proof.
  intros Hr. pose proof (rune_lt p Hr) as Hp. split; [lia|].
  exists [rune_at inp p]. split; [by apply runes_drop_step|].
  intros He%list_elem_of_singleton. by rewrite He in Hr.
Qed.

Lemma next_le p :
  (p ≤ length inp)%nat → (p + width_at inp p ≤ length inp)%nat.
Proof.
  intros Hp. destruct (decide (p < length inp)%nat) as [Hlt|Hge].
  - by apply width_at_bounds.
  - destruct (rune_at_end inp p) as [_ ->]; lia.
Qed.

Lemma next_lt p :
  rune_at inp p ≠ utf8.RuneError → (p < p + width_at inp p)%nat.
Proof.
  intros Hr. pose proof (rune_lt p Hr) as Hp.
  pose proof (width_at_bounds inp p Hp). lia.
Qed.

Definition Q_clause (p : nat) (_ : expr) (st' : state) : Prop :=
  p_in (st_p st') = inp ∧ (pos (st_p st') ≤ length inp)%nat
  ∧ scanned p (pos (st_p st')).

Definition Q_term (p : nat) (_ : expr) (st' : state) : Prop :=
  p_in (st_p st') = inp ∧ (pos (st_p st') ≤ length inp)%nat
  ∧ scanned p (pos (st_p st')) ∧ (p < pos (st_p st'))%nat.

(** What a recursive call of the clause parser with fuel [fuel] does. *)
Definition rec_spec (fuel : nat) (rec : M expr) : Prop :=
  ∀ st, p_in (st_p st) = inp → (pos (st_p st) ≤ length inp)%nat →
        (2 * (length inp - pos (st_p st)) < fuel)%nat →
        hoare rec st (Q_clause (pos (st_p st))).

Lemma scan_consume {A} (k : rune → M A) st :
  p_in (st_p st) = inp →
  rune_at inp (pos (st_p st)) ≠ utf8.RuneError →
  (∀ r, graph_op (k r)) → (∀ r, total_op (k r)) →
  hoare (p_next ≫= k) st (λ _ st',
    p_in (st_p st') = inp ∧ (pos (st_p st') ≤ length inp)%nat
    ∧ scanned (pos (st_p st)) (pos (st_p st'))
    ∧ (pos (st_p st) < pos (st_p st'))%nat).
Proof.
  intros Hin Hr Hg Ht.
  eapply hoare_bind; [apply hoare_p_next|].
  intros r st1 (-> & Hin1 & Hp1). rewrite Hin in *.
  eapply hoare_conseq; [by apply hoare_graph_op|].
  intros a st2 Hpr. cbv beta in *. rewrite Hpr, Hin1, Hp1.
  split_and!; [done| | |].
  - apply next_le. pose proof (rune_lt _ Hr). lia.
  - by apply scanned_step.
  - by apply next_lt.
Qed.

Lemma scan_parseLiteral st :
  p_in (st_p st) = inp → rune_at inp (pos (st_p st)) ≠ utf8.RuneError →
  hoare parseLiteral st (Q_term (pos (st_p st))).
Proof.
  intros Hin Hr. unfold parseLiteral, Q_term.
  apply (scan_consume _ st Hin Hr); intros; [graph_op|total_op].
Qed.

Lemma scan_parseDot st :
  p_in (st_p st) = inp → rune_at inp (pos (st_p st)) ≠ utf8.RuneError →
  hoare parseDot st (Q_term (pos (st_p st))).
Proof.
  intros Hin Hr. unfold parseDot, Q_term.
  apply (scan_consume _ st Hin Hr); intros; [graph_op|total_op].
Qed.

Lemma scan_parseMeta e st :
  p_in (st_p st) = inp → rune_at inp (pos (st_p st)) ≠ utf8.RuneError →
  hoare (parseMeta e) st (Q_term (pos (st_p st))).
Proof.
  intros Hin Hr. unfold parseMeta, Q_term.
  apply (scan_consume _ st Hin Hr); intros; [graph_op|total_op].
Qed.

Lemma scan_parseEscape st :
  p_in (st_p st) = inp → rune_at inp (pos (st_p st)) ≠ utf8.RuneError →
  hoare parseEscape st (Q_term (pos (st_p st))).
Proof.
  intros Hin Hr. unfold parseEscape.
  eapply hoare_bind; [apply hoare_p_next|].
  intros r0 st1 (-> & Hin1 & Hp1). rewrite Hin in *.
  eapply hoare_bind; [apply hoare_peek|].
  intros r st2 (-> & Hin2 & Hp2). rewrite Hin1 in *.
  match goal with |- context [if ?c then _ else _] => destruct c eqn:Hc end;
    [|apply hoare_fail].
  assert (Hr2 : rune_at inp (pos (st_p st2)) ≠ utf8.RuneError).
  { rewrite Hp2. intros He. rewrite He in Hc. by vm_compute in Hc. }
  eapply hoare_conseq; [by apply scan_parseLiteral|].
  intros e st3 (Hin3 & Hle3 & Hsc3 & Hlt3). unfold Q_term.
  rewrite Hp2, Hp1 in *. split_and!; [done..| |].
  - eapply scanned_trans; [by apply scanned_step|done].
  - pose proof (next_lt _ Hr). lia.
Qed.

Lemma scan_parseSubexp fuel rec st :
  rec_spec fuel rec →
  p_in (st_p st) = inp → rune_at inp (pos (st_p st)) ≠ utf8.RuneError →
  (2 * (length inp - pos (st_p st)) < S fuel)%nat →
  hoare (parseSubexp rec) st (Q_term (pos (st_p st))).
Proof.
  intros Hrec Hin Hr Hfuel. unfold parseSubexp.
  pose proof (rune_lt _ Hr) as Hlt. pose proof (next_lt _ Hr) as Hnx.
  pose proof (next_le (pos (st_p st)) ltac:(lia)) as Hnl.
  eapply hoare_bind; [apply hoare_get_pos|].
  intros start st0 (-> & ->).
  eapply hoare_bind; [apply hoare_p_next|].
  intros r0 st1 (-> & Hin1 & Hp1). rewrite Hin in *.
  eapply hoare_bind; [apply Hrec; [done|lia|lia]|].
  intros e st2 (Hin2 & Hle2 & Hsc2).
  eapply hoare_bind; [apply hoare_p_next|].
  intros r st3 (-> & Hin3 & Hp3). rewrite Hin2 in *.
  destruct (Z.eqb_spec (rune_at inp (pos (st_p st2))) (chr ")")) as [Hrp|Hrp].
  - assert (Hr2 : rune_at inp (pos (st_p st2)) ≠ utf8.RuneError)
      by (by rewrite Hrp).
    eapply hoare_conseq; [apply hoare_graph_op; [graph_op|total_op]|].
    intros e' st4 Hpr. unfold Q_term. rewrite Hpr, Hin3, Hp3.
    pose proof (next_lt _ Hr2). destruct Hsc2 as [Hle12 Hsc2'].
    split_and!; [done|by apply next_le| |lia].
    eapply scanned_trans; [by apply scanned_step|].
    eapply scanned_trans; [|by apply scanned_step].
    rewrite <- Hp1. by split.
  - apply hoare_never_Ok; [total_op|]. intros e' st' Hrun.
    apply run_bind_Ok_inv in Hrun as (? & ? & _ & Hrun).
    apply run_bind_Ok_inv in Hrun as (? & ? & _ & Hrun).
    apply run_bind_Ok_inv in Hrun as (? & ? & _ & Hrun).
    apply run_bind_Ok_inv in Hrun as (? & ? & _ & Hrun). done.
Qed.

Lemma scan_parseTerm fuel rec st :
  rec_spec fuel rec →
  p_in (st_p st) = inp → rune_at inp (pos (st_p st)) ≠ utf8.RuneError →
  (2 * (length inp - pos (st_p st)) < S fuel)%nat →
  hoare (parseTerm rec) st (Q_term (pos (st_p st))).
Proof.
  intros Hrec Hin Hr Hfuel. unfold parseTerm.
  eapply hoare_bind; [apply hoare_peek|].
  intros r st1 (-> & Hin1 & Hp1). rewrite Hin in *.
  destruct (is_quantifier _).
  { eapply hoare_bind; [apply hoare_get_pos|]. intros; apply hoare_fail. }
  eapply hoare_bind with (Q1 := Q_term (pos (st_p st))).
  { rewrite <- Hp1 in *.
    destruct (_ =? chr "("); [by eapply scan_parseSubexp|].
    destruct (_ =? chr "\"); [by apply scan_parseEscape|].
    destruct (_ =? chr "."); [by apply scan_parseDot|].
    by apply scan_parseLiteral. }
  intros e st2 (Hin2 & Hle2 & Hsc2 & Hlt2).
  eapply hoare_bind; [apply hoare_peek|].
  intros r2 st3 (-> & Hin3 & Hp3). rewrite Hin2 in *.
  destruct (is_quantifier _) eqn:Hq.
  - assert (Hr3 : rune_at inp (pos (st_p st3)) ≠ utf8.RuneError).
    { rewrite Hp3. intros He. rewrite He in Hq. by vm_compute in Hq. }
    eapply hoare_conseq; [by apply scan_parseMeta|].
    intros e' st4 (Hin4 & Hle4 & Hsc4 & Hlt4). unfold Q_term.
    rewrite Hp3 in *. split_and!; [done..| |lia].
    by eapply scanned_trans.
  - apply hoare_ret. unfold Q_term. by rewrite Hin3, Hp3.
Qed.

Lemma scan_parsePipe fuel rec lhs st :
  rec_spec fuel rec →
  p_in (st_p st) = inp → rune_at inp (pos (st_p st)) ≠ utf8.RuneError →
  (2 * (length inp - pos (st_p st)) < S fuel)%nat →
  hoare (parsePipe rec lhs) st (Q_term (pos (st_p st))).
Proof.
  intros Hrec Hin Hr Hfuel. unfold parsePipe.
  pose proof (rune_lt _ Hr) as Hlt. pose proof (next_lt _ Hr) as Hnx.
  pose proof (next_le (pos (st_p st)) ltac:(lia)) as Hnl.
  eapply hoare_bind; [apply hoare_p_next|].
  intros r0 st1 (-> & Hin1 & Hp1). rewrite Hin in *.
  destruct (isEmpty lhs).
  { eapply hoare_bind; [apply hoare_peek|]. intros.
    eapply hoare_bind; [apply hoare_get_pos|]. intros. apply hoare_fail. }
  eapply hoare_bind; [apply Hrec; [done|lia|lia]|].
  intros e st2 (Hin2 & Hle2 & Hsc2).
  eapply hoare_conseq; [apply hoare_graph_op; [graph_op|total_op]|].
  intros e' st3 Hpr. unfold Q_term. rewrite Hpr.
  destruct Hsc2 as [Hle12 Hsc2']. split_and!; [done..| |lia].
  eapply scanned_trans; [by apply scanned_step|]. rewrite <- Hp1. by split.
Qed.

Lemma scan_parseClause_loop fuel : ∀ e, rec_spec fuel (parseClause_loop fuel e).
Proof.
  induction fuel as [|fuel IH]; intros e st Hin Hle Hfuel; [lia|].
  simpl parseClause_loop.
  eapply hoare_bind; [apply hoare_peek|].
  intros r st1 (-> & Hin1 & Hp1). rewrite Hin in *.
  destruct (Z.eqb_spec (rune_at inp (pos (st_p st))) utf8.RuneError)
    as [Hr|Hr].
  { apply hoare_ret. unfold Q_clause. rewrite Hin1, Hp1.
    split_and!; [done..|apply scanned_refl]. }
  cbn [orb]. destruct (_ =? chr ")").
  { apply hoare_ret. unfold Q_clause. rewrite Hin1, Hp1.
    split_and!; [done..|apply scanned_refl]. }
  assert (Hr1 : rune_at inp (pos (st_p st1)) ≠ utf8.RuneError)
    by (by rewrite Hp1).
  pose proof (rune_lt _ Hr) as Hlt.
  destruct (_ =? chr "|").
  - eapply hoare_bind.
    { eapply (scan_parsePipe fuel); [apply IH|done|done|lia]. }
    intros e' st2 (Hin2 & Hle2 & Hsc2 & Hlt2).
    eapply hoare_conseq; [apply IH; [done|done|lia]|].
    intros e'' st3 (Hin3 & Hle3 & Hsc3). unfold Q_clause.
    rewrite Hp1 in *. split_and!; [done..|]. by eapply scanned_trans.
  - eapply hoare_bind.
    { eapply (scan_parseTerm fuel); [apply IH|done|done|lia]. }
    intros nxt st2 (Hin2 & Hle2 & Hsc2 & Hlt2).
    eapply hoare_bind; [apply hoare_graph_op; [graph_op|total_op]|].
    intros e' st3 Hpr. cbv beta in Hpr.
    eapply hoare_conseq; [apply IH; rewrite Hpr; [done|done|lia]|].
    intros e'' st4 (Hin4 & Hle4 & Hsc4). unfold Q_clause.
    rewrite Hpr, Hp1 in *. split_and!; [done..|]. by eapply scanned_trans.
Qed.

End scanning.

(** [parse] does not run out of fuel, and a pattern that it accepts holds
    no rune that decodes to [RuneError]: neither U+FFFD nor an invalid byte
    sequence. *)
Lemma parse_scans inp :
  match parse inp with
  | Ok _ => utf8.RuneError ∉ runes inp
  | OutOfFuel => False
  | _ => True
  end.
Proof.
  unfold parse, parse_fuel.
  assert (H : hoare (parse_body (2 * length inp + 1) (length inp))
                (State (Parser inp 0 0) [])
                (λ _ _, utf8.RuneError ∉ runes inp)).
  { unfold parse_body, parseClause.
    eapply hoare_bind.
    { apply (scan_parseClause_loop inp); simpl; [done|lia|lia]. }
    intros e st1 (Hin1 & Hle1 & Hsc1). simpl in Hsc1.
    eapply hoare_bind; [apply hoare_get_pos|].
    intros p st2 (-> & ->).
    destruct (Nat.eqb_spec (pos (st_p st1)) (length inp)) as [Hp|Hp];
      cbn [negb].
    - eapply hoare_conseq; [apply hoare_graph_op; [graph_op|total_op]|].
      intros _ _ _. destruct Hsc1 as (_ & cs & Hcs & Hn).
      rewrite Hp, drop_all, drop_0 in Hcs. simpl in Hcs.
      by rewrite app_nil_r in Hcs; subst.
    - apply hoare_never_Ok.
      + apply total_op_bind; [done|]. intros.
        apply total_op_bind; [|intros; apply total_op_bind; [done|done]].
        intros [[? ? ?] ?]. by rewrite run_peek.
      + intros a st' Hrun.
        apply run_bind_Ok_inv in Hrun as (? & ? & _ & Hrun).
        apply run_bind_Ok_inv in Hrun as (? & ? & _ & Hrun).
        apply run_bind_Ok_inv in Hrun as (? & ? & _ & Hrun). done. }
  unfold hoare in H.
  by destruct (parse_body _ _ _) as [[a st]| | |].
Qed.

Lemma Compile_returns pattern : Compile pattern ≠ OutOfFuel.
Proof.
  unfold Compile. pose proof (parse_scans (bytes_of_string pattern)) as H.
  by destruct (parse _) as [[[s t] h]| | |].
Qed.

Lemma Compile_Ok_no_RuneError pattern r h :
  Compile pattern = Ok (r, h) →
  utf8.RuneError ∉ runes (bytes_of_string pattern).
Proof.
  unfold Compile. pose proof (parse_scans (bytes_of_string pattern)) as H.
  by destruct (parse _) as [[[s t] h0]| | |].
Qed.

(** ** C10: the replacement character *)

(** Where the claim holds: the pattern is rejected at the rune that does
    not decode. *)
Lemma replacement_char_examples :
  Compile replacement_char = Err (IllegalAt utf8.RuneError 0)
  ∧ Compile ("ab" ++ replacement_char ++ "c")%string
    = Err (IllegalAt utf8.RuneError 2)
  ∧ Compile ("(a" ++ replacement_char ++ ")")%string
    = Err (UnterminatedSubexp 0)
  ∧ Compile ("\" ++ replacement_char)%string
    = Err (UnknownEscape utf8.RuneError)
  ∧ Compile (String "255" "") = Err (IllegalAt utf8.RuneError 0)
  ∧ Compile ("a" ++ String "192" (String "128" ""))%string
    = Err (IllegalAt utf8.RuneError 1).
Proof. split_and!; vm_compute; reflexivity. Qed.

(** C10 fails when the rune that does not decode comes right after a [|]:
    the clause parser stops at it and hands [parsePipe] an empty right
    clause, and [parsePipe] panics (the defect of C6).  [Compile] does not
    return an error there, for U+FFFD and for an invalid byte alike. *)
Theorem replacement_char_after_pipe_panics :
  Compile ("a|" ++ replacement_char)%string = Panic
  ∧ Compile ("a|" ++ String "255" "")%string = Panic
  ∧ Compile ("(a|" ++ replacement_char ++ ")")%string = Panic.
Proof. split_and!; vm_compute; reflexivity. Qed.

(** ** [MatchString] and the runs of the automaton *)

Lemma graph_wf_next h a o :
  graph_wf h → h !! a = Some o → is_matchNode o = true → valid h (next o).
Proof.
  intros [_ Hn] Ho Hm. rewrite Forall_forall in Hn.
  by apply (Hn o (list_elem_of_lookup_2 _ _ _ Ho)).
Qed.

Lemma accepts_reach h n k rs t :
  reach h n k → accepts h k rs t → accepts h n rs t.
Proof.
  intros Hr Ha. destruct Ha as [k t Hkt|k k' m r rs t Hk Hc Ha].
  - apply accepts_nil. by eapply reach_trans.
  - eapply accepts_cons; [|done..]. by eapply reach_trans.
Qed.

Lemma advance_cons h r n l nx :
  advance h r (n :: l) nx
  = nx1 ← advance_step h r (Ok nx) n; advance h r l nx1.
Proof.
  unfold advance. cbn [foldl]. fold (advance_step h r (Ok nx) n).
  destruct (advance_step h r (Ok nx) n) as [nx1| | |] eqn:Hs; [done|..];
    by rewrite foldl_result_not_Ok.
Qed.

(** One rune: the live nodes after it are the nodes reachable from the
    successors of the match nodes that accept it. *)
Lemma advance_spec h r l : ∀ nx,
  graph_wf h → closed h nx → (∀ m, m ∈ nx → valid h m) → Forall (valid h) l →
  ∃ nx', advance h r l nx = Ok nx' ∧ closed h nx' ∧ (∀ m, m ∈ nx' → valid h m)
         ∧ ∀ m, m ∈ nx' ↔ m ∈ nx ∨ ∃ k m0, k ∈ l ∧ consumes h r k m0
                                            ∧ reach h m0 m.
Proof.
  induction l as [|n l IH]; intros nx Hwf Hc Hv Hl.
  { exists nx. split_and!; [done..|]. intros m. split; [by left|].
    intros [?|(k & m0 & Hk & _)]; [done|]. by apply elem_of_nil in Hk. }
  apply Forall_cons in Hl as [Hn Hl]. rewrite advance_cons.
  apply valid_ptr in Hn as (a & -> & Ha).
  destruct (lookup_lt_is_Some_2 h a Ha) as [o Ho].
  rewrite advance_step_ptr, Ho. cbn [mbind result_bind].
  destruct (is_matchNode o && matches o r) eqn:Hm.
  - apply andb_prop in Hm as [Hm1 Hm2].
    pose proof (graph_wf_next h a o Hwf Ho Hm1) as Hnv.
    pose proof (add_closed h nx (next o) (proj1 Hwf) Hc Hv) as Hadd.
    destruct (add h nx (next o)) as [nx1| | |]; try done.
    destruct Hadd as (_ & Hc1 & Hs1).
    assert (Hv1 : ∀ m, m ∈ nx1 → valid h m).
    { intros m [?|?]%Hs1; [by apply Hv|].
      by apply (reach_valid h (next o) m (proj1 Hwf)). }
    destruct (IH nx1 Hwf Hc1 Hv1 Hl) as (nx' & Hadv & Hc' & Hv' & Hs').
    exists nx'. split_and!; [done..|]. intros m. rewrite Hs', Hs1. split.
    + intros [[?|Hr]|(k & m0 & Hk & Hcs & Hr)]; [by left| |].
      * right. exists (ptr a), (next o). split_and!; [left|by exists a, o|done].
      * right. exists k, m0. split_and!; [by right|done..].
    + intros [?|(k & m0 & Hk & Hcs & Hr)]; [by left; left|].
      apply elem_of_cons in Hk as [->|Hk].
      * destruct Hcs as (a' & o' & [= <-] & Ho' & _ & _ & <-).
        rewrite Ho in Ho'. injection Ho' as <-. by left; right.
      * right. by exists k, m0.
  - destruct (IH nx Hwf Hc Hv Hl) as (nx' & Hadv & Hc' & Hv' & Hs').
    exists nx'. split_and!; [done..|]. intros m. rewrite Hs'. split.
    + intros [?|(k & m0 & Hk & Hcs & Hr)]; [by left|].
      right. exists k, m0. split_and!; [by right|done..].
    + intros [?|(k & m0 & Hk & Hcs & Hr)]; [by left|].
      apply elem_of_cons in Hk as [->|Hk].
      * destruct Hcs as (a' & o' & [= <-] & Ho' & Hm1 & Hm2 & _).
        rewrite Ho in Ho'. injection Ho' as <-. by rewrite Hm1, Hm2 in Hm.
      * right. by exists k, m0.
Qed.

Lemma MatchString_loop_accepts h t rs : ∀ cur,
  graph_wf h → closed h cur → (∀ m, m ∈ cur → valid h m) →
  ∃ b, MatchString_loop h t cur ∅ rs = Ok b
       ∧ (b = true ↔ ∃ n, n ∈ cur ∧ accepts h n rs t).
Proof.
  induction rs as [|r rs IH]; intros cur Hwf Hc Hv.
  { exists (bool_decide (t ∈ cur)). split; [done|].
    rewrite bool_decide_eq_true. split.
    - intros Ht. exists t. split; [done|]. apply accepts_nil, reach_refl.
    - intros (n & Hn & Ha). inversion Ha; subst. by eapply closed_reach. }
  cbn [MatchString_loop].
  destruct (advance_spec h r (elements cur) ∅ Hwf)
    as (nx & -> & Hcx & Hvx & Hsx).
  { by intros m e Hm%not_elem_of_empty. }
  { by intros m Hm%not_elem_of_empty. }
  { apply Forall_forall. intros m Hm%elem_of_elements. by apply Hv. }
  cbn [mbind result_bind].
  assert (Hnx : ∀ m, m ∈ nx ↔ ∃ k m0, k ∈ cur ∧ consumes h r k m0 ∧ reach h m0 m).
  { intros m. rewrite Hsx. split.
    - intros [Hm%not_elem_of_empty|(k & m0 & Hk%elem_of_elements & ?)]; [done|].
      by exists k, m0.
    - intros (k & m0 & Hk & ?). right. exists k, m0.
      by rewrite elem_of_elements. }
  destruct (Nat.eqb_spec (size nx) 0) as [Hz|Hz].
  - exists false. split; [done|]. split; [done|].
    intros (n & Hn & Ha). inversion Ha as [|? k m ? ? ? Hk Hcs Ha']; subst.
    apply size_empty_inv in Hz.
    assert (m ∈ nx) as Hm; [|by rewrite (Hz m) in Hm; apply not_elem_of_empty in Hm].
    apply Hnx. exists k, m. split_and!; [by eapply closed_reach|done|apply reach_refl].
  - rewrite clear_empty.
    destruct (IH nx Hwf Hcx Hvx) as (b & -> & Hb). exists b. split; [done|].
    rewrite Hb. split.
    + intros (m & (k & m0 & Hk & Hcs & Hr)%Hnx & Ha). exists k. split; [done|].
      eapply accepts_cons; [apply reach_refl|done|]. by eapply accepts_reach.
    + intros (n & Hn & Ha). inversion Ha as [|? k m ? ? ? Hk Hcs Ha']; subst.
      exists m. split; [|done]. apply Hnx. exists k, m.
      split_and!; [by eapply closed_reach|done|apply reach_refl].
Qed.

Lemma MatchString_accepts h r input :
  graph_wf h → valid h (r_start r) →
  ∃ b, MatchString h r input = Ok b
       ∧ (b = true
          ↔ accepts h (r_start r) (runes (bytes_of_string input)) (r_term r)).
Proof.
  intros Hwf Hs. unfold MatchString.
  assert (Hadd := add_closed h ∅ (r_start r) (proj1 Hwf)
                    ltac:(by intros m e Hm%not_elem_of_empty)
                    ltac:(by intros m Hm%not_elem_of_empty)).
  destruct (add h ∅ (r_start r)) as [cur| | |]; try done.
  destruct Hadd as (_ & Hc & Hcur).
  cbn [mbind result_bind].
  destruct (MatchString_loop_accepts h (r_term r)
              (runes (bytes_of_string input)) cur Hwf Hc) as (b & -> & Hb).
  { intros m [Hm%not_elem_of_empty|Hm]%Hcur; [done|].
    by apply (reach_valid h (r_start r) m (proj1 Hwf)). }
  exists b. split; [done|]. rewrite Hb. split.
  - intros (n & [Hn%not_elem_of_empty|Hn]%Hcur & Ha); [done|].
    by eapply accepts_reach.
  - intros Ha. exists (r_start r). split; [|done].
    apply Hcur. right. apply reach_refl.
Qed.

(** ** The graph that the parser builds *)

Lemma ensures_bind {A B} (m : M A) (f : A → M B) st
    (Q1 : A → state → Prop) (Q : B → state → Prop) :
  ensures m st Q1 → (∀ a st', Q1 a st' → ensures (f a) st' Q) →
  ensures (m ≫= f) st Q.
Proof.
  intros Hm Hf b st2 Hrun.
  apply run_bind_Ok_inv in Hrun as (a & st1 & Hr1 & Hr2).
  by apply (Hf a st1 (Hm a st1 Hr1)).
Qed.

Lemma ensures_conseq {A} (m : M A) st (Q Q' : A → state → Prop) :
  ensures m st Q → (∀ a st', Q a st' → Q' a st') → ensures m st Q'.
Proof. intros Hm HQ a st' Hrun. by apply HQ, Hm. Qed.

Lemma ensures_p_next st :
  ensures p_next st (λ r st',
    r = rune_at (p_in (st_p st)) (pos (st_p st))
    ∧ p_in (st_p st') = p_in (st_p st)
    ∧ st_heap st' = st_heap st
    ∧ pos (st_p st')
      = (pos (st_p st) + width_at (p_in (st_p st)) (pos (st_p st)))%nat).
Proof.
  destruct st as [[inp p wd] h]. intros r st'. rewrite run_p_next.
  by intros [= <- <-].
Qed.

Lemma ensures_peek st :
  ensures peek st (λ r st',
    r = rune_at (p_in (st_p st)) (pos (st_p st))
    ∧ p_in (st_p st') = p_in (st_p st)
    ∧ st_heap st' = st_heap st
    ∧ pos (st_p st') = pos (st_p st)).
Proof.
  destruct st as [[inp p wd] h]. intros r st'. rewrite run_peek.
  by intros [= <- <-].
Qed.

Lemma ensures_get_pos st :
  ensures get_pos st (λ p st', p = pos (st_p st) ∧ st' = st).
Proof. intros p st' [= <- <-]. done. Qed.

Lemma ensures_alloc o st :
  ensures (alloc o) st (λ n st',
    n = ptr (length (st_heap st)) ∧ st_p st' = st_p st
    ∧ st_heap st' = st_heap st ++ [o]).
Proof. intros n st' [= <- <-]. done. Qed.

Lemma ensures_update n f st :
  ensures (update n f) st (λ _ st',
    ∃ a o, n = ptr a ∧ st_heap st !! a = Some o ∧ st_p st' = st_p st
           ∧ st_heap st' = <[a := f o]> (st_heap st)).
Proof.
  intros u st' (a & o & -> & Ho & ->)%update_Ok_inv. by exists a, o.
Qed.

Lemma width_at_pos inp p :
  rune_at inp p ≠ utf8.RuneError → (1 ≤ width_at inp p)%nat.
Proof.
  intros Hr. pose proof (rune_lt inp p Hr) as Hp.
  by destruct (width_at_bounds inp p Hp).
Qed.

(** *** The invariant under the heap operations *)

Lemma valid_app h o n : valid h n → valid (h ++ [o]) n.
Proof. destruct n; simpl; [done|]. rewrite length_app. simpl. lia. Qed.

Lemma valid_insert (h : heap) a o n : valid (<[a := o]> h) n ↔ valid h n.
Proof. destruct n; simpl; [done|]. by rewrite length_insert. Qed.

Lemma valid_grow h h' n :
  (length h ≤ length h')%nat → valid h n → valid h' n.
Proof. destruct n; simpl; [done|]. lia. Qed.

Lemma open_wf_weaken h (D D' : node → Prop) :
  open_wf h D → (∀ a, D (ptr a) → D' (ptr a)) → open_wf h D'.
Proof.
  intros [Hwf Hn] HD. split; [done|]. intros a o Ho Hm.
  destruct (Hn a o Ho Hm); auto.
Qed.

Lemma open_wf_alloc h (D : node → Prop) o :
  open_wf h D → epsilons o = [] →
  open_wf (h ++ [o]) (λ n, D n ∨ n = ptr (length h)).
Proof.
  intros [Hwf Hn] He. split.
  - unfold heap_wf. apply Forall_app. split.
    + eapply Forall_impl; [exact Hwf|]. intros o' Ho'. simpl in Ho'.
      eapply Forall_impl; [exact Ho'|]. intros n. apply valid_app.
    + apply Forall_singleton. by rewrite He.
  - intros a o' Ho' Hm. destruct (decide (a < length h)%nat) as [Hlt|Hge].
    + rewrite lookup_app_l in Ho' by done.
      destruct (Hn a o' Ho' Hm); [left; by apply valid_app|by right; left].
    + apply lookup_lt_Some in Ho' as Hlt. rewrite length_app in Hlt.
      simpl in Hlt. right; right. f_equal. lia.
Qed.

Lemma open_wf_alloc_junction h (D : node → Prop) o :
  open_wf h D → epsilons o = [] → is_matchNode o = false →
  open_wf (h ++ [o]) D.
Proof.
  intros Hwf He Hm. pose proof (open_wf_alloc h D o Hwf He) as [Hwf' Hn].
  split; [done|]. intros a o' Ho' Hm'.
  destruct (Hn a o' Ho' Hm') as [?|[?|[= ->]]]; [by left|by right|].
  rewrite lookup_app_r, Nat.sub_diag in Ho' by done.
  injection Ho' as <-. by rewrite Hm in Hm'.
Qed.

Lemma epsilons_addEpsilon e o : epsilons (addEpsilon e o) = epsilons o ++ [e].
Proof. by destruct o. Qed.

Lemma next_addEpsilon e o : next (addEpsilon e o) = next o.
Proof. by destruct o. Qed.

Lemma is_matchNode_addEpsilon e o :
  is_matchNode (addEpsilon e o) = is_matchNode o.
Proof. by destruct o. Qed.

Lemma is_matchNode_wire n o : is_matchNode (wire n o) = is_matchNode o.
Proof. unfold wire. by destruct o. Qed.

Lemma heap_wf_insert h a o :
  heap_wf h → Forall (valid h) (epsilons o) → heap_wf (<[a := o]> h).
Proof.
  intros Hwf Ho. unfold heap_wf. apply Forall_insert.
  - eapply Forall_impl; [exact Hwf|]. intros o' Ho'. simpl in Ho'.
    eapply Forall_impl; [exact Ho'|]. intros n. by rewrite valid_insert.
  - eapply Forall_impl; [exact Ho|]. intros n. by rewrite valid_insert.
Qed.

Lemma open_wf_addEpsilon h (D : node → Prop) a o e :
  open_wf h D → h !! a = Some o → valid h e →
  open_wf (<[a := addEpsilon e o]> h) D.
Proof.
  intros [Hwf Hn] Ho He. pose proof (lookup_lt_Some _ _ _ Ho) as Hlt. split.
  - apply heap_wf_insert; [done|]. rewrite epsilons_addEpsilon.
    apply Forall_app. split; [|by apply Forall_singleton].
    apply Forall_forall. intros n Hin. by eapply heap_wf_lookup.
  - intros a' o' Ho' Hm. rewrite valid_insert.
    destruct (decide (a' = a)) as [->|Hne].
    + rewrite list_lookup_insert_eq in Ho' by done. injection Ho' as <-.
      rewrite next_addEpsilon. apply (Hn a o Ho).
      by rewrite is_matchNode_addEpsilon in Hm.
    + rewrite list_lookup_insert_ne in Ho' by done. by apply (Hn a' o').
Qed.

Lemma open_wf_wire h (D : node → Prop) a o nx :
  open_wf h (λ n, D n ∨ n = ptr a) → h !! a = Some o → valid h nx →
  open_wf (<[a := wire nx o]> h) D.
Proof.
  intros [Hwf Hn] Ho Hnx. pose proof (lookup_lt_Some _ _ _ Ho) as Hlt. split.
  - apply heap_wf_insert; [done|].
    assert (Ho' : Forall (valid h) (epsilons o)).
    { apply Forall_forall. intros n Hin. by eapply heap_wf_lookup. }
    unfold wire. destruct (is_matchNode o) eqn:Hm.
    + by destruct o.
    + rewrite epsilons_addEpsilon. apply Forall_app.
      split; [done|by apply Forall_singleton].
  - intros a' o' Ho' Hm. rewrite valid_insert.
    destruct (decide (a' = a)) as [->|Hne].
    + rewrite list_lookup_insert_eq in Ho' by done. injection Ho' as <-.
      left. rewrite is_matchNode_wire in Hm. unfold wire. rewrite Hm.
      by destruct o.
    + rewrite list_lookup_insert_ne in Ho' by done.
      destruct (Hn a' o' Ho' Hm) as [?|[?|[= ?]]]; [by left|by right|done].
Qed.

Lemma expr_ok_grow h h' e :
  (length h ≤ length h')%nat → expr_ok h e → expr_ok h' e.
Proof.
  intros Hle [->|[Hs He]]; [by left|right]. split; by eapply valid_grow.
Qed.

Lemma expr_ok_node h a : (a < length h)%nat → expr_ok h (Expr (ptr a) (ptr a)).
Proof. intros Ha. by right. Qed.

(** [concat] under the invariant: the exit of [e] is wired to the entry of
    [nxt], nothing is allocated and no other node changes; the exit of
    the result is the only exit still pending. *)
Lemma ensures_concat (D : node → Prop) e nxt st :
  open_wf (st_heap st) (λ n, D n ∨ n = e_end e ∨ n = e_end nxt) →
  expr_ok (st_heap st) e → expr_ok (st_heap st) nxt →
  ensures (concat e nxt) st (λ e' st',
    st_p st' = st_p st
    ∧ length (st_heap st') = length (st_heap st)
    ∧ expr_ok (st_heap st') e'
    ∧ open_wf (st_heap st') (λ n, D n ∨ n = e_end e')
    ∧ (e' = empty_expr → e = empty_expr ∧ nxt = empty_expr)
    ∧ (nxt ≠ empty_expr → e_end e' = e_end nxt)
    ∧ (∀ a, ptr a ≠ e_end e → st_heap st' !! a = st_heap st !! a)).
Proof.
  intros Hwf He Hn e' st' Hrun.
  destruct (decide (e = empty_expr)) as [->|Hne].
  { rewrite concat_empty_l in Hrun. injection Hrun as <- <-.
    split_and!; [done..| |done|done|done].
    eapply open_wf_weaken; [exact Hwf|]. simpl.
    intros a [?|[?|?]]; [by left|done|by right]. }
  destruct (decide (nxt = empty_expr)) as [->|Hnn].
  { rewrite concat_empty_r in Hrun. injection Hrun as <- <-.
    split_and!; [done..| |done|done|done].
    eapply open_wf_weaken; [exact Hwf|]. simpl.
    intros a [?|[?|?]]; [by left|by right|done]. }
  apply concat_Ok_inv in Hrun as (a & o & Ha & Ho & -> & ->); [|done..].
  destruct He as [?|[Hes Hee]]; [done|]. destruct Hn as [?|[Hns Hne']]; [done|].
  simpl. rewrite length_insert. split_and!; [done..| | | |done|].
  - right. simpl. by rewrite !valid_insert.
  - apply open_wf_wire; [|done..].
    eapply open_wf_weaken; [exact Hwf|]. simpl. rewrite Ha.
    intros a' [?|[?|?]]; auto.
  - intros [= Hs _]. by rewrite Hs in Hes.
  - intros a' Hdiff. rewrite Ha in Hdiff.
    apply list_lookup_insert_ne. by intros ->.
Qed.

(** *** The invariant along the parser *)

Lemma grown_refl st : grown st st.
Proof. by split_and!. Qed.

Lemma grown_trans st1 st2 st3 : grown st1 st2 → grown st2 st3 → grown st1 st3.
Proof.
  intros (Hi1 & Hl1 & Hc1) (Hi2 & Hl2 & Hc2).
  split_and!; [congruence|lia|lia].
Qed.

(** A step of the scanner alone. *)
Lemma grown_scan st st' :
  p_in (st_p st') = p_in (st_p st) → st_heap st' = st_heap st →
  (pos (st_p st) ≤ pos (st_p st'))%nat → grown st st'.
Proof. intros Hi Hh Hp. split_and!; [done|rewrite Hh; lia..]. Qed.

(** A graph operation alone, which allocates [k] nodes. *)
Lemma grown_alloc st st1 st' k :
  grown st st1 → st_p st' = st_p st1 →
  length (st_heap st') = (length (st_heap st1) + k)%nat →
  (length (st_heap st1) + k + pos (st_p st)
   ≤ length (st_heap st) + pos (st_p st1))%nat →
  grown st st'.
Proof.
  intros (Hi & Hl & Hc) Hp Hlen Hk. unfold grown. rewrite Hp, Hlen.
  split_and!; [done|lia|lia].
Qed.

Lemma ensures_never {A} (m : M A) st (Q : A → state → Prop) :
  (∀ a st', m st ≠ Ok (a, st')) → ensures m st Q.
Proof. intros Hn a st' Hrun. by destruct (Hn a st'). Qed.

Lemma ensures_alloc_junction (D : node → Prop) o st :
  open_wf (st_heap st) D → epsilons o = [] → is_matchNode o = false →
  ensures (alloc o) st (λ n st',
    n = ptr (length (st_heap st)) ∧ st_p st' = st_p st
    ∧ st_heap st' = st_heap st ++ [o]
    ∧ length (st_heap st') = S (length (st_heap st))
    ∧ open_wf (st_heap st') D).
Proof.
  intros Hwf He Hm n st' [= <- <-]. simpl.
  split_and!; [done..|rewrite length_app; simpl; lia|].
  by apply open_wf_alloc_junction.
Qed.

Lemma ensures_addEpsilon_at (D : node → Prop) n e st :
  open_wf (st_heap st) D → valid (st_heap st) e →
  ensures (addEpsilon_at n e) st (λ _ st',
    valid (st_heap st) n ∧ st_p st' = st_p st
    ∧ length (st_heap st') = length (st_heap st)
    ∧ open_wf (st_heap st') D).
Proof.
  intros Hwf He u st' (a & o & -> & Ho & ->)%update_Ok_inv. simpl.
  rewrite length_insert. split_and!; [|done..|by apply open_wf_addEpsilon].
  by apply lookup_lt_Some in Ho.
Qed.

Lemma builds_atom (D : node → Prop) inp p w w' h o :
  open_wf h D → epsilons o = [] → rune_at inp p ≠ utf8.RuneError →
  built D (State (Parser inp p w) h)
          (Expr (ptr (length h)) (ptr (length h)))
          (State (Parser inp (p + width_at inp p) w') (h ++ [o])).
Proof.
  intros Hwf He Hr. pose proof (width_at_pos inp p Hr).
  unfold built, grown.
  split_and!; simpl; [done|rewrite length_app; simpl; lia..| |].
  - right. simpl. rewrite length_app. simpl. lia.
  - by apply open_wf_alloc.
Qed.

Lemma builds_parseLiteral (D : node → Prop) st :
  open_wf (st_heap st) D →
  rune_at (p_in (st_p st)) (pos (st_p st)) ≠ utf8.RuneError →
  ensures parseLiteral st (λ e st', built D st e st' ∧ e ≠ empty_expr).
Proof.
  destruct st as [[inp p w] h]. simpl. intros Hwf Hr e st'.
  unfold parseLiteral. run. intros [= <- <-].
  split; [by apply builds_atom|done].
Qed.

Lemma builds_parseDot (D : node → Prop) st :
  open_wf (st_heap st) D →
  rune_at (p_in (st_p st)) (pos (st_p st)) ≠ utf8.RuneError →
  ensures parseDot st (λ e st', built D st e st' ∧ e ≠ empty_expr).
Proof.
  destruct st as [[inp p w] h]. simpl. intros Hwf Hr e st'.
  unfold parseDot. run. intros [= <- <-].
  split; [by apply builds_atom|done].
Qed.

Lemma built_after (D : node → Prop) st st1 e st' :
  grown st st1 → built D st1 e st' → built D st e st'.
Proof.
  intros Hg (Hg' & He & Hwf). split_and!; [|done..]. by eapply grown_trans.
Qed.

Lemma builds_parseEscape (D : node → Prop) st :
  open_wf (st_heap st) D →
  ensures parseEscape st (λ e st', built D st e st' ∧ e ≠ empty_expr).
Proof.
  intros Hwf. unfold parseEscape.
  eapply ensures_bind; [apply ensures_p_next|].
  intros r0 st1 (_ & Hin1 & Hh1 & Hp1).
  eapply ensures_bind; [apply ensures_peek|].
  intros r st2 (-> & Hin2 & Hh2 & Hp2).
  match goal with |- context [if ?c then _ else _] => destruct c eqn:Hc end;
    [|by apply ensures_never].
  assert (Hr2 : rune_at (p_in (st_p st2)) (pos (st_p st2)) ≠ utf8.RuneError).
  { rewrite Hin2, Hp2. intros He. rewrite He in Hc. by vm_compute in Hc. }
  eapply ensures_conseq.
  { apply (builds_parseLiteral D); [by rewrite Hh2, Hh1|done]. }
  intros e st3 [Hb Hne]. split; [|done].
  eapply built_after; [|done].
  eapply grown_trans; apply grown_scan; try done; lia.
Qed.

Lemma builds_parseMeta (D : node → Prop) term st :
  open_wf (st_heap st) (λ n, D n ∨ n = e_end term) →
  valid (st_heap st) (e_start term) → valid (st_heap st) (e_end term) →
  is_quantifier (rune_at (p_in (st_p st)) (pos (st_p st))) = true →
  ensures (parseMeta term) st (λ e st', built D st e st' ∧ e ≠ empty_expr).
Proof.
  intros Hwf Hts Hte Hq. unfold parseMeta.
  assert (Hr : rune_at (p_in (st_p st)) (pos (st_p st)) ≠ utf8.RuneError).
  { intros He. rewrite He in Hq. by vm_compute in Hq. }
  pose proof (width_at_pos _ _ Hr) as Hw.
  eapply ensures_bind; [apply ensures_p_next|].
  intros mc st1 (-> & Hin1 & Hh1 & Hp1).
  assert (Hg1 : grown st st1) by (apply grown_scan; [done..|lia]).
  rewrite <- Hh1 in Hwf, Hts, Hte.
  (* the junction node and its edges *)
  eapply ensures_bind with
    (Q1 := λ n st2, st_p st2 = st_p st1
                    ∧ length (st_heap st2) = S (length (st_heap st1))
                    ∧ valid (st_heap st2) n
                    ∧ open_wf (st_heap st2) (λ n, D n ∨ n = e_end term)).
  { destruct (is_quantifier_cases _ Hq) as [-> | [-> | ->]].
    - change (63 =? chr "+") with false. change (63 =? chr "*") with false.
      change (63 =? chr "?") with true. cbv iota.
      eapply ensures_bind; [by apply ensures_alloc_junction|].
      intros n st2 (-> & Hp2 & Hh2 & Hl2 & Hwf2).
      eapply ensures_bind.
      { apply ensures_addEpsilon_at; [done|]. simpl. lia. }
      intros _ st3 (_ & Hp3 & Hl3 & Hwf3) n' st4 [= <- <-].
      split_and!; [congruence|lia|simpl; lia|done].
    - change (43 =? chr "+") with true. cbv iota.
      eapply ensures_bind; [by apply ensures_alloc_junction|].
      intros n st2 (-> & Hp2 & Hh2 & Hl2 & Hwf2).
      eapply ensures_bind.
      { apply ensures_addEpsilon_at; [done|]. eapply valid_grow; [|done]. lia. }
      intros _ st3 (_ & Hp3 & Hl3 & Hwf3) n' st4 [= <- <-].
      split_and!; [congruence|lia|simpl; lia|done].
    - change (42 =? chr "+") with false. change (42 =? chr "*") with true.
      cbv iota.
      eapply ensures_bind; [by apply ensures_alloc_junction|].
      intros n st2 (-> & Hp2 & Hh2 & Hl2 & Hwf2).
      eapply ensures_bind.
      { apply ensures_addEpsilon_at; [done|]. eapply valid_grow; [|done]. lia. }
      intros _ st3 (_ & Hp3 & Hl3 & Hwf3).
      eapply ensures_bind.
      { apply ensures_addEpsilon_at; [done|]. simpl. lia. }
      intros _ st4 (_ & Hp4 & Hl4 & Hwf4) n' st5 [= <- <-].
      split_and!; [congruence|lia|simpl; lia|done]. }
  intros n st2 (Hp2 & Hl2 & Hn & Hwf2). unfold concatNode.
  eapply ensures_conseq.
  { apply (ensures_concat D).
    - eapply open_wf_weaken; [exact Hwf2|]. simpl. tauto.
    - right. split; apply (valid_grow (st_heap st1)); (lia || done).
    - by right. }
  intros e st3 (Hp3 & Hl3 & He & Hwf3 & Hne & _). split.
  - split_and!; [|done..].
    eapply (grown_alloc st st1 st3 1); [done|congruence|lia|rewrite Hh1; lia].
  - intros ->. destruct (Hne eq_refl) as [-> _]. done.
Qed.

Lemma builds_parseSubexp (D : node → Prop) rec st :
  builds_clause rec → open_wf (st_heap st) D →
  rune_at (p_in (st_p st)) (pos (st_p st)) ≠ utf8.RuneError →
  ensures (parseSubexp rec) st (λ e st', built D st e st' ∧ e ≠ empty_expr).
Proof.
  intros Hrec Hwf Hr. unfold parseSubexp.
  pose proof (width_at_pos _ _ Hr) as Hw.
  eapply ensures_bind; [apply ensures_get_pos|].
  intros start st0 (-> & ->).
  eapply ensures_bind; [apply ensures_p_next|].
  intros r0 st1 (_ & Hin1 & Hh1 & Hp1).
  eapply ensures_bind; [apply (Hrec D); by rewrite Hh1|].
  intros e st2 ((Hin2 & Hl2 & Hc2) & He2 & Hwf2).
  eapply ensures_bind; [apply ensures_p_next|].
  intros r st3 (-> & Hin3 & Hh3 & Hp3).
  rewrite <- Hh3 in Hwf2, He2.
  eapply ensures_bind; [by apply ensures_alloc_junction|].
  intros lp st4 (-> & Hp4 & Hh4 & Hl4 & Hwf4).
  eapply ensures_bind; [by apply ensures_alloc_junction|].
  intros rp st5 (-> & Hp5 & Hh5 & Hl5 & Hwf5).
  eapply ensures_bind.
  { apply (ensures_concat D).
    - eapply open_wf_weaken; [exact Hwf5|]. simpl. tauto.
    - right. simpl. lia.
    - eapply expr_ok_grow; [|done]. lia. }
  intros e1 st6 (Hp6 & Hl6 & He6 & Hwf6 & Hne6 & _). unfold concatNode.
  eapply ensures_bind.
  { apply (ensures_concat D).
    - eapply open_wf_weaken; [exact Hwf6|]. simpl. tauto.
    - done.
    - right. simpl. lia. }
  intros e2 st7 (Hp7 & Hl7 & He7 & Hwf7 & Hne7 & _).
  destruct (Z.eqb_spec (rune_at (p_in (st_p st2)) (pos (st_p st2))) (chr ")"))
    as [Hrp|_]; [|by apply ensures_never].
  intros e' st' [= <- <-].
  assert (Hw2 : (1 ≤ width_at (p_in (st_p st2)) (pos (st_p st2)))%nat).
  { apply width_at_pos. by rewrite Hrp. }
  split.
  - split_and!; [|done..]. unfold grown.
    rewrite Hp7, Hp6, Hp5, Hp4, Hl7, Hl6, Hl5, Hl4, Hh3, Hin3, Hp3.
    rewrite Hin1, Hh1, Hp1 in *. split_and!; [done|lia|lia].
  - intros ->. by destruct (Hne7 eq_refl) as [_ ?].
Qed.

Lemma builds_parseTerm (D : node → Prop) rec st :
  builds_clause rec → open_wf (st_heap st) D →
  rune_at (p_in (st_p st)) (pos (st_p st)) ≠ utf8.RuneError →
  ensures (parseTerm rec) st (λ e st', built D st e st' ∧ e ≠ empty_expr).
Proof.
  intros Hrec Hwf Hr. unfold parseTerm.
  eapply ensures_bind; [apply ensures_peek|].
  intros r st1 (-> & Hin1 & Hh1 & Hp1).
  destruct (is_quantifier _); [by apply ensures_never|].
  assert (Hg1 : grown st st1) by (apply grown_scan; [done..|lia]).
  rewrite <- Hh1 in Hwf. rewrite <- Hin1, <- Hp1 in Hr.
  eapply ensures_bind with
    (Q1 := λ e st2, built D st1 e st2 ∧ e ≠ empty_expr).
  { rewrite <- Hin1, <- Hp1.
    destruct (_ =? chr "("); [by apply builds_parseSubexp|].
    destruct (_ =? chr "\"); [by apply builds_parseEscape|].
    destruct (_ =? chr "."); [by apply builds_parseDot|].
    by apply builds_parseLiteral. }
  intros e st2 [(Hg2 & He2 & Hwf2) Hne2].
  eapply ensures_bind; [apply ensures_peek|].
  intros r2 st3 (-> & Hin3 & Hh3 & Hp3).
  assert (Hg3 : grown st st3).
  { eapply grown_trans; [exact Hg1|]. eapply grown_trans; [exact Hg2|].
    apply grown_scan; [done..|lia]. }
  destruct (is_quantifier _) eqn:Hq.
  - destruct He2 as [?|[Hs2 Hn2]]; [done|].
    eapply ensures_conseq.
    { apply (builds_parseMeta D); rewrite ?Hh3, ?Hin3, ?Hp3; done. }
    intros e' st4 [Hb Hne']. split; [|done]. by eapply built_after.
  - intros e' st' [= <- <-]. split; [|done].
    split_and!; [done|by rewrite Hh3..].
Qed.

Lemma builds_parsePipe (D : node → Prop) rec lhs st :
  builds_clause rec →
  open_wf (st_heap st) (λ n, D n ∨ n = e_end lhs) →
  expr_ok (st_heap st) lhs →
  rune_at (p_in (st_p st)) (pos (st_p st)) ≠ utf8.RuneError →
  ensures (parsePipe rec lhs) st (built D st).
Proof.
  intros Hrec Hwf Hlhs Hr. unfold parsePipe.
  pose proof (width_at_pos _ _ Hr) as Hw.
  eapply ensures_bind; [apply ensures_p_next|].
  intros r0 st1 (_ & Hin1 & Hh1 & Hp1).
  destruct (isEmpty lhs) eqn:Hemp.
  { apply ensures_never. intros a st' Hrun.
    apply run_bind_Ok_inv in Hrun as (? & ? & _ & Hrun).
    apply run_bind_Ok_inv in Hrun as (? & ? & _ & Hrun). done. }
  apply bool_decide_eq_false in Hemp.
  destruct Hlhs as [?|[Hls Hle]]; [done|].
  eapply ensures_bind.
  { apply (Hrec (λ n, D n ∨ n = e_end lhs)). by rewrite Hh1. }
  intros e st2 ((Hin2 & Hl2 & Hc2) & He2 & Hwf2).
  rewrite Hh1 in *.
  eapply ensures_bind.
  { apply ensures_addEpsilon_at; [done|]. by eapply valid_grow. }
  intros _ st3 (Hes & Hp3 & Hl3 & Hwf3).
  assert (Hne : e ≠ empty_expr) by (intros ->; done).
  destruct He2 as [?|[_ Hee]]; [done|].
  eapply ensures_bind; [by apply ensures_alloc_junction|].
  intros n st4 (-> & Hp4 & Hh4 & Hl4 & Hwf4). unfold concatNode.
  eapply ensures_bind.
  { apply (ensures_concat (λ n, D n ∨ n = e_end lhs)).
    - eapply open_wf_weaken; [exact Hwf4|]. simpl. tauto.
    - right. split; apply (valid_grow (st_heap st2)); (lia || done).
    - right. simpl. lia. }
  intros e1 st5 (Hp5 & Hl5 & He5 & Hwf5 & Hne5 & Hend5 & _).
  specialize (Hend5 ltac:(done)). simpl in Hend5.
  eapply ensures_bind.
  { apply (ensures_concat D).
    - eapply open_wf_weaken; [exact Hwf5|]. simpl. rewrite Hend5. tauto.
    - right. split; apply (valid_grow (st_heap st)); (lia || done).
    - right. simpl. lia. }
  intros e2 st6 (Hp6 & Hl6 & He6 & Hwf6 & Hne6 & Hend6 & _).
  specialize (Hend6 ltac:(done)). simpl in Hend6.
  intros e' st' [= <- <-]. split_and!.
  - unfold grown. rewrite Hp6, Hp5, Hp4, Hp3, Hl6, Hl5, Hl4, Hl3.
    rewrite Hin1, Hp1 in *. split_and!; [done|lia|lia].
  - eapply expr_ok_grow; [|done]. lia.
  - eapply open_wf_weaken; [exact Hwf6|]. simpl. rewrite Hend6, Hend5. tauto.
Qed.

Lemma builds_parseClause_loop fuel : ∀ e (D : node → Prop) st,
  open_wf (st_heap st) (λ n, D n ∨ n = e_end e) → expr_ok (st_heap st) e →
  ensures (parseClause_loop fuel e) st (built D st).
Proof.
  induction fuel as [|fuel IH]; intros e D st Hwf He; [by apply ensures_never|].
  assert (Hrec : builds_clause (parseClause_loop fuel empty_expr)).
  { intros D' st' Hwf'. apply IH; [|by left].
    eapply open_wf_weaken; [exact Hwf'|]. simpl. tauto. }
  simpl parseClause_loop.
  eapply ensures_bind; [apply ensures_peek|].
  intros r st1 (-> & Hin1 & Hh1 & Hp1).
  assert (Hg1 : grown st st1) by (apply grown_scan; [done..|lia]).
  destruct (Z.eqb_spec (rune_at (p_in (st_p st)) (pos (st_p st)))
              utf8.RuneError) as [|Hr].
  { intros e' st' [= <- <-]. split_and!; [done|by rewrite Hh1..]. }
  cbn [orb]. destruct (_ =? chr ")").
  { intros e' st' [= <- <-]. split_and!; [done|by rewrite Hh1..]. }
  rewrite <- Hh1 in Hwf, He. rewrite <- Hin1, <- Hp1 in Hr.
  destruct (_ =? chr "|").
  - eapply ensures_bind; [by apply (builds_parsePipe D)|].
    intros e1 st2 (Hg2 & He2 & Hwf2).
    eapply ensures_conseq; [by apply (IH e1 D)|].
    intros e2 st3 Hb. eapply built_after; [|done].
    by eapply grown_trans.
  - eapply ensures_bind.
    { by apply (builds_parseTerm (λ n, D n ∨ n = e_end e)). }
    intros nxt st2 [(Hg2 & He2 & Hwf2) Hne2].
    eapply ensures_bind.
    { apply (ensures_concat D).
      - eapply open_wf_weaken; [exact Hwf2|]. simpl. tauto.
      - eapply expr_ok_grow; [|done]. by destruct Hg2 as (_ & ? & _).
      - done. }
    intros e1 st3 (Hp3 & Hl3 & He3 & Hwf3 & _).
    eapply ensures_conseq; [by apply (IH e1 D)|].
    intros e2 st4 Hb. eapply built_after; [|done].
    eapply grown_trans; [exact Hg1|].
    eapply (grown_alloc st1 st2 st3 0); [done|done|lia|].
    destruct Hg2 as (_ & ? & ?). lia.
Qed.

Lemma open_wf_nil : open_wf [] (λ _, False).
Proof. split; [by apply Forall_nil|]. intros a o Ho. by rewrite lookup_nil in Ho. Qed.

Lemma open_wf_graph_wf h : open_wf h (λ _, False) → graph_wf h.
Proof.
  intros [Hwf Hn]. split; [done|]. apply Forall_forall.
  intros o (a & Ho)%list_elem_of_lookup_1 Hm.
  by destruct (Hn a o Ho Hm).
Qed.

(** What [parse] returns: a graph in which every edge leads to a node, its
    entry, and the terminal node, which is the last node allocated and has
    no edge; there is at most one node for each byte of the pattern, and
    the terminal. *)
Lemma parse_builds inp s t h :
  parse inp = Ok (s, t, h) →
  graph_wf h ∧ valid h s ∧ t = ptr (length h - 1)
  ∧ h !! (length h - 1)%nat = Some (terminalNode [])
  ∧ (1 ≤ length h ≤ S (length inp))%nat.
Proof.
  unfold parse, parse_fuel. generalize (2 * length inp + 1)%nat. intros fuel.
  destruct (parse_body fuel (length inp) (State (Parser inp 0 0) []))
    as [[[s' t'] st']| | |] eqn:Hrun; try done.
  intros [= -> -> <-]. revert Hrun.
  assert (H : ensures (parse_body fuel (length inp))
                (State (Parser inp 0 0) [])
                (λ se st', let h := st_heap st' in
                   graph_wf h ∧ valid h se.1 ∧ se.2 = ptr (length h - 1)
                   ∧ h !! (length h - 1)%nat = Some (terminalNode [])
                   ∧ (1 ≤ length h ≤ S (length inp))%nat));
    [|by intros Hrun; apply (H _ _ Hrun)].
  unfold parse_body, parseClause.
  eapply ensures_bind.
  { apply (builds_parseClause_loop fuel empty_expr (λ _, False)); [|by left].
    eapply open_wf_weaken; [apply open_wf_nil|]. done. }
  intros e st1 ((Hin1 & Hl1 & Hc1) & He1 & Hwf1). simpl in Hin1, Hl1, Hc1.
  eapply ensures_bind; [apply ensures_get_pos|].
  intros p st2 (-> & ->).
  destruct (Nat.eqb_spec (pos (st_p st1)) (length inp)) as [Hp|Hp]; cbn [negb];
    last first.
  { apply ensures_never. intros a st5 Hrun.
    apply run_bind_Ok_inv in Hrun as (? & ? & _ & Hrun).
    apply run_bind_Ok_inv in Hrun as (? & ? & _ & Hrun).
    apply run_bind_Ok_inv in Hrun as (? & ? & _ & Hrun). done. }
  eapply ensures_bind; [by apply ensures_alloc_junction|].
  intros term st3 (-> & Hp3 & Hh3 & Hl3 & Hwf3). unfold concatNode.
  eapply ensures_bind.
  { apply (ensures_concat (λ _, False)).
    - eapply open_wf_weaken; [exact Hwf3|]. simpl. tauto.
    - eapply expr_ok_grow; [|done]. lia.
    - right. simpl. lia. }
  intros e' st4 (Hp4 & Hl4 & He4 & Hwf4 & Hne4 & Hend4 & Hframe4).
  specialize (Hend4 ltac:(done)). simpl in Hend4.
  intros se st5 [= <- <-]. cbv zeta. cbn [fst snd].
  assert (Hterm : st_heap st4 !! length (st_heap st1) = Some (terminalNode [])).
  { rewrite Hframe4.
    - by rewrite Hh3, lookup_app_r, Nat.sub_diag.
    - intros Heq. destruct He1 as [->|[_ Hv]]; [done|].
      rewrite <- Heq in Hv. simpl in Hv. lia. }
  rewrite Hl4, Hl3. replace (S (length (st_heap st1)) - 1)%nat
    with (length (st_heap st1)) by lia.
  split_and!; [|..|done|done|lia|lia].
  - apply open_wf_graph_wf. split; [by destruct Hwf4|].
    intros a o Ho Hm. destruct Hwf4 as [_ Hn].
    destruct (Hn a o Ho Hm) as [?|[[]|Ha]]; [by left|].
    rewrite Hend4 in Ha. injection Ha as ->.
    rewrite Hterm in Ho. injection Ho as <-. done.
  - destruct He4 as [->|[? _]]; [|done]. by destruct (Hne4 eq_refl).
Qed.

(** ** Properties of the matcher *)

(** X1: [MatchString] decides acceptance by the automaton.  On a graph in
    which every edge leads to a node, and from an entry that is a node of
    the graph, [MatchString] returns (it neither panics nor loops), and it
    returns [true] exactly when some path from the entry to the terminal
    node reads the runes of the input. *)
Theorem MatchString_decides_acceptance (h : heap) (r : Regexp) (input : string) :
  graph_wf h → valid h (r_start r) →
  ∃ b, MatchString h r input = Ok b
       ∧ (b = true
          ↔ accepts h (r_start r) (runes (bytes_of_string input)) (r_term r)).
Proof. apply MatchString_accepts. Qed.

Lemma MatchString_decides_acceptance_witness :
  ∃ b, MatchString star_heap (Build_Regexp (ptr 0%nat) (ptr 2%nat) "a*") "aa"
       = Ok b
       ∧ (b = true
          ↔ accepts star_heap (ptr 0%nat) (runes (bytes_of_string "aa"))
              (ptr 2%nat)).
Proof.
  apply (MatchString_decides_acceptance star_heap
           (Build_Regexp (ptr 0%nat) (ptr 2%nat) "a*") "aa").
  - compute_done.
  - compute_done.
Defined.

(** X2: the graph of a compiled pattern.  When [Compile] succeeds, every
    epsilon edge of the graph leads to a node and every match node has its
    successor (there is no nil and no dangling edge), the entry is a node
    of the graph, the terminal node is the last node allocated and has no
    outgoing edge, and the pattern text is stored as given. *)
Theorem Compile_builds_wellformed_graph (pattern : string) (r : Regexp)
    (h : heap) :
  Compile pattern = Ok (r, h) →
  graph_wf h ∧ valid h (r_start r)
  ∧ r_term r = ptr (length h - 1)
  ∧ h !! (length h - 1)%nat = Some (terminalNode [])
  ∧ r_pattern r = pattern.
Proof.
  unfold Compile. intros Hc.
  destruct (parse (bytes_of_string pattern)) as [[[s t] h0]| | |] eqn:Hp;
    try done.
  injection Hc as <- <-.
  destruct (parse_builds _ _ _ _ Hp) as (? & ? & ? & ? & _). by split_and!.
Qed.

Lemma Compile_builds_wellformed_graph_witness :
  graph_wf star_heap ∧ valid star_heap (ptr 0%nat)
  ∧ ptr 2%nat = ptr (length star_heap - 1)
  ∧ star_heap !! (length star_heap - 1)%nat = Some (terminalNode [])
  ∧ "a*"%string = "a*"%string.
Proof.
  apply (Compile_builds_wellformed_graph "a*"
           (Build_Regexp (ptr 0%nat) (ptr 2%nat) "a*") star_heap).
  vm_compute. reflexivity.
Defined.

(** X3: matching against a compiled pattern always returns.  For every
    pattern that [Compile] accepts and every input, [MatchString] returns
    [true] or [false]: it does not panic and it terminates. *)
Theorem MatchString_compiled_returns (pattern input : string) (r : Regexp)
    (h : heap) :
  Compile pattern = Ok (r, h) → ∃ b, MatchString h r input = Ok b.
Proof.
  unfold Compile. intros Hc.
  destruct (parse (bytes_of_string pattern)) as [[[s t] h0]| | |] eqn:Hp;
    try done.
  injection Hc as <- <-.
  destruct (parse_builds _ _ _ _ Hp) as (Hwf & Hs & _).
  destruct (MatchString_accepts h0 (Build_Regexp s t pattern) input Hwf Hs)
    as (b & Hb & _).
  by exists b.
Qed.

Lemma MatchString_compiled_returns_witness :
  ∃ b, MatchString star_heap (Build_Regexp (ptr 0%nat) (ptr 2%nat) "a*") "ab"
       = Ok b.
Proof.
  apply (MatchString_compiled_returns "a*" "ab").
  vm_compute. reflexivity.
Defined.

(** X4: the size of the compiled automaton.  A compiled pattern has at
    least one node (the terminal) and at most one node for each byte of the
    pattern, and the terminal. *)
Theorem Compile_node_bound (pattern : string) (r : Regexp) (h : heap) :
  Compile pattern = Ok (r, h) →
  (1 ≤ length h ≤ S (length (bytes_of_string pattern)))%nat.
Proof.
  unfold Compile. intros Hc.
  destruct (parse (bytes_of_string pattern)) as [[[s t] h0]| | |] eqn:Hp;
    try done.
  injection Hc as <- <-.
  by destruct (parse_builds _ _ _ _ Hp) as (_ & _ & _ & _ & ?).
Qed.

Lemma Compile_node_bound_witness :
  (1 ≤ length star_heap ≤ S (length (bytes_of_string "a*")))%nat.
Proof.
  apply (Compile_node_bound "a*" (Build_Regexp (ptr 0%nat) (ptr 2%nat) "a*")).
  vm_compute. reflexivity.
Defined.

(** X5: the order in which the live nodes are visited does not matter.
    [for n := range cur] visits the members of a Go map in an order that
    the language leaves open; on a heap whose epsilon edges all lead to
    nodes, [MatchString] gives the same result for every order [enum]. *)
Theorem MatchString_order_irrelevant (enum : nodeSet → list node) (h : heap)
    (r : Regexp) (input : string) :
  (∀ s, enum s ≡ₚ elements s) → heap_wf h →
  MatchString_by enum h r input = MatchString h r input.
Proof.
  intros He Hwf. unfold MatchString_by, MatchString.
  destruct (add h ∅ (r_start r)) as [cur| | |]; try done. simpl.
  apply MatchString_loop_order; [done..| |].
  - by intros m e Hm%not_elem_of_empty.
  - by intros m Hm%not_elem_of_empty.
Qed.

Lemma MatchString_order_irrelevant_witness :
  MatchString_by (λ s, reverse (elements s)) star_heap
    (Build_Regexp (ptr 0%nat) (ptr 2%nat) "a*") "aa"
  = MatchString star_heap (Build_Regexp (ptr 0%nat) (ptr 2%nat) "a*") "aa".
Proof.
  apply (MatchString_order_irrelevant (λ s, reverse (elements s)) star_heap).
  - intros s. apply reverse_Permutation.
  - compute_done.
Defined.

(** ** Properties of the node set *)

Lemma add_fuel_total fuel h : ∀ s n,
  (size (heap_nodes h ∖ s) < fuel)%nat →
  (∃ s', add_fuel fuel h s n = Ok s') ∨ add_fuel fuel h s n = Panic.
Proof.
  induction fuel as [|fuel IH]; intros s n Hsz; [lia|].
  simpl. destruct (decide (n ∈ s)) as [Hin|Hin]; [by left; eauto|].
  destruct n as [|a]; [by right|].
  destruct (h !! a) as [o|] eqn:Ho; [|by right].
  assert (Hlt : (size (heap_nodes h ∖ ({[ptr a]} ∪ s)) < fuel)%nat).
  { apply Nat.lt_le_trans with (size (heap_nodes h ∖ s)); [|lia].
    apply subset_size. apply strict_spec_alt. split; [set_solver|].
    intros Heq. assert (Hin' : ptr a ∈ heap_nodes h ∖ s).
    { apply elem_of_difference. split; [|done].
      apply elem_of_heap_nodes. simpl. by apply lookup_lt_Some in Ho. }
    rewrite <- Heq in Hin'. set_solver. }
  revert Hlt. generalize ({[ptr a]} ∪ s). generalize (epsilons o).
  induction l as [|e es IHes]; intros s1 Hlt; simpl; [by left; eauto|].
  destruct (IH s1 e Hlt) as [[s1' He]| ->].
  - rewrite He. apply IHes.
    apply Nat.le_lt_trans with (size (heap_nodes h ∖ s1)); [|done].
    apply subseteq_size. apply add_fuel_mono in He. set_solver.
  - right. by rewrite foldl_result_not_Ok.
Qed.

(** X6: [add] terminates on every graph, cyclic ones included.  The
    recursion of [add] stops at the nodes that are already in the set; on
    any heap, from any set and node, it returns a set that extends the
    given one and holds the node, or it panics (on [nil], whose
    [epsilons] method cannot be called). *)
Theorem nodeSet_add_terminates (h : heap) (s : nodeSet) (n : node) :
  (∃ s', add h s n = Ok s' ∧ s ⊆ s' ∧ n ∈ s') ∨ add h s n = Panic.
Proof.
  destruct (add_fuel_total (S (length h)) h s n) as [[s' Hadd]|Hp].
  - apply Nat.le_lt_trans with (size (heap_nodes h)).
    + apply subseteq_size. set_solver.
    + rewrite size_heap_nodes. lia.
  - left. exists s'. split; [done|].
    destruct (add_fuel_post (S (length h)) h (λ _, True) s n s')
      as [Hm Hi _ _]; [|exact Hadd|done].
    intros m e _ HG. by destruct HG.
  - by right.
Qed.

(** X7: [add] commutes.  On a heap whose epsilon edges all lead to nodes,
    adding two nodes to an epsilon-closed set gives the same set (or the
    same panic) in either order. *)
Theorem nodeSet_add_commutes (h : heap) (s : nodeSet) (a b : node) :
  heap_wf h → closed h s → (∀ m, m ∈ s → valid h m) →
  (s' ← add h s a; add h s' b) = (s' ← add h s b; add h s' a).
Proof. apply add_add_comm. Qed.

Lemma nodeSet_add_commutes_witness :
  (s' ← add star_heap ∅ (ptr 0%nat); add star_heap s' (ptr 2%nat))
  = (s' ← add star_heap ∅ (ptr 2%nat); add star_heap s' (ptr 0%nat)).
Proof.
  apply (nodeSet_add_commutes star_heap ∅ (ptr 0%nat) (ptr 2%nat)).
  - compute_done.
  - compute_done.
  - intros m Hm. by apply not_elem_of_empty in Hm.
Defined.

(** X8: [clear] empties the set: deleting the keys of the map while
    ranging over it leaves no key behind. *)
Theorem nodeSet_clear_empties (s : nodeSet) :
  clear s = ∅ ∧ ∀ n, n ∉ clear s.
Proof.
  rewrite clear_empty. split; [done|]. intros n. apply not_elem_of_empty.
Qed.

(** ** Properties of [Compile] *)

(** X9: [Compile] terminates.  The recursive descent consumes at least one
    byte for each turn of the clause loop and each recursive call; on
    every pattern [Compile] returns a compiled pattern, returns an error,
    or panics. *)
Theorem Compile_terminates (pattern : string) :
  (∃ r h, Compile pattern = Ok (r, h))
  ∨ (∃ e, Compile pattern = Err e)
  ∨ Compile pattern = Panic.
Proof.
  pose proof (Compile_returns pattern) as H.
  destruct (Compile pattern) as [[r h]|e| |]; [eauto..|done].
Qed.

(** X10: a pattern that compiles is valid UTF-8 without U+FFFD.  The
    scanner uses [utf8.RuneError] as its end-of-input mark, so a pattern
    that [Compile] accepts has no rune that decodes to [utf8.RuneError]:
    no invalid byte sequence and no U+FFFD. *)
Theorem Compile_rejects_undecodable (pattern : string) (r : Regexp) (h : heap) :
  Compile pattern = Ok (r, h) →
  Forall (λ c, c ≠ utf8.RuneError) (runes (bytes_of_string pattern)).
Proof.
  intros Hc%Compile_Ok_no_RuneError. apply Forall_forall.
  intros c Hin ->. done.
Qed.

Lemma Compile_rejects_undecodable_witness :
  Forall (λ c, c ≠ utf8.RuneError) (runes (bytes_of_string "a*")).
Proof.
  apply (Compile_rejects_undecodable "a*"
           (Build_Regexp (ptr 0%nat) (ptr 2%nat) "a*") star_heap).
  vm_compute. reflexivity.
Defined.

(** ** Patterns without metacharacters, exactly *)

(** The clause loop on a pattern of literals reads it to its end. *)
Lemma literal_loop_full inp : ∀ rs fuel p w done h,
  runes (drop p inp) = rs → Forall (λ c, is_meta c = false) rs →
  utf8.RuneError ∉ rs → (p ≤ length inp)%nat →
  (length rs < fuel)%nat → open_chain h done →
  ∃ h',
    parseClause_loop fuel (chain_expr done) (State (Parser inp p w) h)
    = Ok (chain_expr (done ++ rs), State (Parser inp (length inp) 0) h')
    ∧ open_chain h' (done ++ rs).
Proof.
  induction rs as [|r rs IH]; intros fuel p w done h Hrs Hmeta Hne Hp Hfuel Hch.
  - destruct fuel as [|fuel]; [simpl in Hfuel; lia|].
    apply runes_nil_inv in Hrs. apply (f_equal length) in Hrs.
    rewrite length_drop in Hrs. simpl in Hrs.
    assert (p = length inp) as -> by lia.
    exists h. rewrite app_nil_r. split; [|done].
    simpl. rewrite run_bind, run_peek. simpl.
    by rewrite (proj1 (rune_at_end inp (length inp) ltac:(lia))).
  - destruct fuel as [|fuel]; [simpl in Hfuel; lia|].
    assert (Hlt : (p < length inp)%nat).
    { destruct (decide (p < length inp)%nat); [done|].
      rewrite drop_ge in Hrs by lia. done. }
    rewrite runes_drop_step in Hrs by done.
    injection Hrs as Hr Hrs'.
    apply Forall_cons in Hmeta as [Hm Hmeta].
    apply not_elem_of_cons in Hne as [Hner Hne].
    simpl parseClause_loop. rewrite run_bind, run_peek. simpl.
    rewrite Hr.
    destruct (Z.eqb_spec r utf8.RuneError) as [->|_]; [done|].
    destruct (is_meta_false _ Hm) as (_ & _ & _ & _ & _ & H1 & H2 & _).
    rewrite H1, H2. simpl.
    rewrite run_bind.
    rewrite parseTerm_literal; [|by rewrite Hr|]; last first.
    { rewrite rune_at_hd, Hrs'. destruct rs as [|r2 rs]; [done|].
      apply Forall_cons in Hmeta as [Hm2 _]. by apply is_meta_quantifier. }
    rewrite run_bind.
    destruct (concat_chain (Parser inp (p + width_at inp p) 0) h done
                (rune_at inp p) Hch) as (h1 & -> & Hch1).
    rewrite Hr in *.
    destruct (IH fuel (p + width_at inp p)%nat 0%nat (done ++ [r]) h1)
      as (h' & Hrun & Hch'); [done|done|done| |simpl in Hfuel; lia|done|].
    { by destruct (width_at_bounds inp p Hlt). }
    exists h'. rewrite <- app_assoc in Hrun, Hch'. by split.
Qed.

(** A pattern of literals compiles. *)
Lemma parse_literals_Ok inp :
  Forall (λ c, is_meta c = false) (runes inp) → utf8.RuneError ∉ runes inp →
  ∃ s t h, parse inp = Ok (s, t, h).
Proof.
  intros Hmeta Hne. unfold parse, parse_fuel, parse_body, parseClause.
  destruct (literal_loop_full inp (runes inp) (2 * length inp + 1) 0 0 [] [])
    as (h' & Hrun & Hch);
    [done|done|done|lia|pose proof (runes_length inp); lia|apply open_chain_nil|].
  simpl app in *. change empty_expr with (chain_expr []).
  rewrite run_bind, Hrun. cbv beta iota.
  rewrite run_bind, run_get_pos. cbv beta iota.
  rewrite Nat.eqb_refl. cbn [negb].
  rewrite run_bind, run_alloc. cbv beta iota.
  destruct Hch as [Hlen Hall].
  destruct (decide (runes inp = [])) as [Hnil|Hnn].
  - rewrite Hnil. simpl. eauto.
  - assert (Hk : (0 < length (runes inp))%nat)
      by (destruct (runes inp); simpl; [done|lia]).
    destruct (lookup_lt_is_Some_2 (runes inp) (length (runes inp) - 1))
      as [c Hc]; [lia|].
    pose proof (Hall _ _ Hc) as Ho.
    assert (Ho' : (h' ++ [terminalNode []]) !! (length (runes inp) - 1)%nat
                  = Some (lit c (if decide (S (length (runes inp) - 1)
                                            = length (runes inp))
                                 then nil else ptr (S (length (runes inp) - 1)))))
      by (by rewrite lookup_app_l by lia).
    unfold concatNode. rewrite (chain_expr_ne _ Hnn).
    rewrite run_bind.
    erewrite concat_wire; [|done|done|reflexivity|exact Ho'].
    simpl. eauto.
Qed.

(** Matching along the compiled chain, from node [i]: the input is
    accepted exactly when it is the rest of the pattern's runes. *)
Lemma chain_match_exact h rs : compiled_chain h rs →
  ∀ input i, (i ≤ length rs)%nat →
  MatchString_loop h (ptr (length rs)) {[ptr i]} ∅ input
  = Ok (bool_decide (input = drop i rs)).
Proof.
  intros (Hlen & Hall & Hterm). induction input as [|c input IH]; intros i Hi.
  - simpl. f_equal. apply bool_decide_ext. rewrite elem_of_singleton. split.
    + intros [= <-]. by rewrite drop_all.
    + intros Hd. f_equal. symmetry in Hd. apply (f_equal length) in Hd.
      rewrite length_drop in Hd. simpl in Hd. lia.
  - destruct (decide (i = length rs)) as [->|Hne].
    + rewrite drop_all, bool_decide_eq_false_2 by done.
      apply MatchString_loop_dead. rewrite elements_singleton.
      by rewrite (advance_singleton _ _ _ _ _ Hterm).
    + destruct (lookup_lt_is_Some_2 rs i) as [r Hr]; [lia|].
      rewrite (drop_S _ _ _ Hr).
      destruct (Z.eqb_spec c r) as [->|Hcr].
      * rewrite (MatchString_loop_step _ _ _ _ _ _ {[ptr (S i)]}).
        -- rewrite IH by lia. f_equal. apply bool_decide_ext.
           split; [by intros ->|by intros [= ->]].
        -- rewrite elements_singleton.
           rewrite (advance_singleton _ _ _ _ _ (Hall _ _ Hr)). simpl.
           rewrite Z.eqb_refl.
           destruct (decide (S i = length rs)) as [He|He].
           ++ rewrite He. by apply (add_no_epsilons _ _ _ Hterm).
           ++ destruct (lookup_lt_is_Some_2 rs (S i)) as [r' Hr']; [lia|].
              by apply (add_no_epsilons _ _ _ (Hall _ _ Hr')).
        -- by rewrite size_singleton.
      * rewrite bool_decide_eq_false_2 by (by intros [= ->]).
        apply MatchString_loop_dead. rewrite elements_singleton.
        rewrite (advance_singleton _ _ _ _ _ (Hall _ _ Hr)). simpl.
        by rewrite (proj2 (Z.eqb_neq c r) Hcr).
Qed.

(** X11: patterns without metacharacters.  Every pattern that is valid
    UTF-8, has no U+FFFD and none of the metacharacters compiles, to one
    literal node for each rune and the terminal; the compiled pattern
    accepts an input exactly when the runes of the input are the runes of
    the pattern. *)
Theorem literal_pattern_exact (p : string) :
  Forall (λ c, is_meta c = false) (runes (bytes_of_string p)) →
  utf8.RuneError ∉ runes (bytes_of_string p) →
  ∃ r h, Compile p = Ok (r, h)
         ∧ length h = S (length (runes (bytes_of_string p)))
         ∧ ∀ input, MatchString h r input
                    = Ok (bool_decide (runes (bytes_of_string input)
                                       = runes (bytes_of_string p))).
Proof.
  intros Hmeta Hne.
  destruct (parse_literals_Ok _ Hmeta Hne) as (s & t & h & Hparse).
  destruct (parse_literals _ _ _ _ Hmeta Hparse) as (-> & -> & Hch).
  exists (Build_Regexp (ptr 0%nat) (ptr (length (runes (bytes_of_string p)))) p), h.
  unfold Compile. rewrite Hparse. split; [done|].
  split; [by destruct Hch|]. intros input.
  assert (Hadd : add h ∅ (ptr 0%nat) = Ok {[ptr 0%nat]}).
  { destruct Hch as (Hlen & Hall & Hterm).
    destruct (runes (bytes_of_string p)) as [|c rs] eqn:Hrs.
    - by apply (add_no_epsilons _ _ _ Hterm).
    - by apply (add_no_epsilons _ _ (lit c (ptr 1%nat)) (Hall 0%nat c eq_refl)). }
  unfold MatchString. simpl r_start. simpl r_term. rewrite Hadd. simpl.
  rewrite (chain_match_exact h _ Hch) by lia. by rewrite drop_0.
Qed.

Lemma literal_pattern_exact_witness :
  ∃ r h, Compile "abc" = Ok (r, h)
         ∧ length h = S (length (runes (bytes_of_string "abc")))
         ∧ ∀ input, MatchString h r input
                    = Ok (bool_decide (runes (bytes_of_string input)
                                       = runes (bytes_of_string "abc"))).
Proof.
  apply (literal_pattern_exact "abc").
  - vm_compute. repeat constructor.
  - vm_compute. intros H. repeat (apply elem_of_cons in H as [H|H]; [discriminate H|]).
    by apply elem_of_nil in H.
Defined.

(** ** The dot *)

(** X12: the pattern [.] accepts exactly the inputs of one rune, whatever
    the rune: an invalid byte, which the [range] loop reads as U+FFFD,
    counts as one. *)
Theorem dot_pattern_exact :
  ∃ r h, Compile "." = Ok (r, h)
         ∧ ∀ input, MatchString h r input
                    = Ok (bool_decide
                            (length (runes (bytes_of_string input)) = 1%nat)).
Proof.
  exists (Build_Regexp (ptr 0%nat) (ptr 1%nat) "."), dot_heap.
  split; [vm_compute; reflexivity|]. intros input. unfold MatchString.
  simpl r_start. simpl r_term.
  replace (add dot_heap ∅ (ptr 0%nat)) with (Ok ({[ptr 0%nat]} : nodeSet))
    by (by vm_compute).
  cbn [mbind result_bind].
  destruct (runes (bytes_of_string input)) as [|c [|c' rs]].
  - by vm_compute.
  - rewrite (MatchString_loop_step _ _ _ _ _ _ {[ptr 1%nat]});
      [by vm_compute| |by rewrite size_singleton].
    rewrite elements_singleton. by vm_compute.
  - rewrite (MatchString_loop_step _ _ _ _ _ _ {[ptr 1%nat]});
      [| |by rewrite size_singleton].
    + apply MatchString_loop_dead. rewrite elements_singleton. by vm_compute.
    + rewrite elements_singleton. by vm_compute.
Qed.

Lemma dot_star_loop rs :
  MatchString_loop dot_star_heap (ptr 2%nat)
    {[ptr 0%nat; ptr 1%nat; ptr 2%nat]} ∅ rs = Ok true.
Proof.
  induction rs as [|c rs IH]; [by vm_compute|].
  rewrite (MatchString_loop_step _ _ _ _ _ _
             {[ptr 0%nat; ptr 1%nat; ptr 2%nat]}); [exact IH| |by vm_compute].
  by vm_compute.
Qed.

(** X13: the pattern [.*] accepts every input, invalid UTF-8 included. *)
Theorem dot_star_accepts_everything :
  ∃ r h, Compile ".*" = Ok (r, h) ∧ ∀ input, MatchString h r input = Ok true.
Proof.
  exists (Build_Regexp (ptr 0%nat) (ptr 2%nat) ".*"), dot_star_heap.
  split; [vm_compute; reflexivity|]. intros input. unfold MatchString.
  simpl r_start. simpl r_term.
  replace (add dot_star_heap ∅ (ptr 0%nat))
    with (Ok ({[ptr 0%nat; ptr 1%nat; ptr 2%nat]} : nodeSet))
    by (by vm_compute).
  apply dot_star_loop.
Qed.

(** ** One literal under a quantifier *)

Ltac quantifier_tests q :=
  try change (q =? chr "+") with (Z.eqb q 43);
  try change (q =? chr "*") with (Z.eqb q 42);
  try change (q =? chr "?") with (Z.eqb q 63);
  let b1 := eval vm_compute in (Z.eqb q 43) in
  let b2 := eval vm_compute in (Z.eqb q 42) in
  let b3 := eval vm_compute in (Z.eqb q 63) in
  try change (Z.eqb q 43) with b1;
  try change (Z.eqb q 42) with b2;
  try change (Z.eqb q 63) with b3;
  cbv iota.

Lemma compile_quantified enc c q :
  utf8.DecodeRuneInString (bytes_of_string enc)
  = (c, length (bytes_of_string enc)) →
  c ≠ utf8.RuneError → is_meta c = false → is_quantifier (chr q) = true →
  Compile (enc ++ String q "")%string
  = Ok (Build_Regexp (ptr 0%nat) (ptr 2%nat) (enc ++ String q "")%string,
        quantified_heap (chr q) c).
Proof.
  intros Hdec Hc Hm Hq. unfold Compile, parse, parse_fuel, parse_body.
  rewrite bytes_of_string_app.
  change (bytes_of_string (String q "")) with [chr q].
  set (inp := bytes_of_string enc ++ [chr q]).
  set (L := length (bytes_of_string enc)) in *.
  assert (Hne : bytes_of_string enc ≠ []).
  { intros He. rewrite He in Hdec. rewrite decode_nil in Hdec.
    by injection Hdec as <-. }
  assert (Hqa : 0 ≤ chr q < 128).
  { destruct (is_quantifier_cases _ Hq) as [-> | [-> | ->]]; lia. }
  assert (HL : length inp = S L) by (unfold inp; rewrite length_app; simpl; lia).
  assert (Hd0 : utf8.DecodeRuneInString (drop 0 inp) = (c, L)).
  { unfold inp. rewrite drop_0, decode_app_ascii; by rewrite ?Hdec. }
  assert (R0 : rune_at inp 0 = c) by (unfold rune_at; by rewrite Hd0).
  assert (W0 : width_at inp 0 = L) by (unfold width_at; by rewrite Hd0).
  assert (Hd1 : utf8.DecodeRuneInString (drop L inp) = (chr q, 1%nat)).
  { unfold inp, L. rewrite drop_app_length. by apply decode_ascii. }
  assert (R1 : rune_at inp L = chr q) by (unfold rune_at; by rewrite Hd1).
  assert (W1 : width_at inp L = 1%nat) by (unfold width_at; by rewrite Hd1).
  assert (R2 : rune_at inp (L + 1) = utf8.RuneError).
  { apply rune_at_end. lia. }
  destruct (is_meta_false _ Hm) as (M1 & M2 & M3 & M4 & M5 & M6 & M7 & M8).
  assert (Hne' : (c =? utf8.RuneError) = false) by (by apply Z.eqb_neq).
  rewrite HL. replace (2 * S L + 1)%nat with (S (S (2 * L + 1))) by lia.
  unfold parseClause. simpl parseClause_loop.
  unfold parseTerm, parseLiteral, parseMeta, concatNode.
  run. rewrite R0, Hne', M6, M7. cbn [orb]. cbv iota.
  run. rewrite R0. rewrite (is_meta_quantifier _ Hm), M5, M8, M1.
  run. rewrite R0, W0.
  run. rewrite R1, Hq. cbv iota.
  run. rewrite R1, W1.
  unfold quantified_heap.
  destruct (is_quantifier_cases _ Hq) as [Hv | [Hv | Hv]]; rewrite Hv;
    [quantifier_tests 63|quantifier_tests 43|quantifier_tests 42];
    run; unfold addEpsilon_at, setNext_at;
    repeat (first [erewrite run_update by reflexivity
                  | erewrite concat_wire; [|done|done|reflexivity|reflexivity]];
            run);
    rewrite R2; change (utf8.RuneError =? utf8.RuneError) with true;
    cbn [orb]; cbv iota;
    run; (destruct (Nat.eqb_spec (L + 1) (S L)) as [_|]; [|lia]); cbn [negb];
    run; (erewrite concat_wire; [|done|done|reflexivity|reflexivity]);
    run; reflexivity.
Qed.

Lemma elements_012 :
  elements ({[ptr 0%nat; ptr 1%nat; ptr 2%nat]} : nodeSet)
  = [ptr 1%nat; ptr 2%nat; ptr 0%nat].
Proof. by vm_compute. Qed.

(** With all three nodes live, the graph of [c*] (and of [c+]) goes on
    for as long as the input goes on with [c]. *)
Lemma star_of_loop c rs :
  MatchString_loop (star_heap_of c) (ptr 2%nat)
    {[ptr 0%nat; ptr 1%nat; ptr 2%nat]} ∅ rs
  = Ok (forallb (Z.eqb c) rs).
Proof.
  induction rs as [|r rs IH]; [by vm_compute|]. cbn [forallb].
  destruct (Z.eqb_spec c r) as [<-|Hne].
  - rewrite (MatchString_loop_step _ _ _ _ _ _
               {[ptr 0%nat; ptr 1%nat; ptr 2%nat]}); [exact IH| |by vm_compute].
    rewrite elements_012.
    rewrite (advance_cons_skip _ _ _ _ _ (starNode [ptr 0%nat; ptr 2%nat])),
      (advance_cons_skip _ _ _ _ _ (terminalNode [])) by done.
    rewrite (advance_cons_match _ _ _ _ _
               (literalNode (MatchBase [ptr 1%nat] (ptr 1%nat)) c)
               {[ptr 0%nat; ptr 1%nat; ptr 2%nat]});
      [done|done|simpl; by rewrite Z.eqb_refl|by vm_compute].
  - apply MatchString_loop_dead. rewrite elements_012.
    rewrite (advance_cons_skip _ _ _ _ _ (starNode [ptr 0%nat; ptr 2%nat])),
      (advance_cons_skip _ _ _ _ _ (terminalNode [])) by done.
    rewrite (advance_cons_skip _ _ _ _ _
               (literalNode (MatchBase [ptr 1%nat] (ptr 1%nat)) c)); [done|done|].
    simpl. apply Z.eqb_neq. congruence.
Qed.

Lemma plus_of_loop_exact c rs :
  MatchString_loop (plus_heap_of c) (ptr 2%nat)
    {[ptr 0%nat; ptr 1%nat; ptr 2%nat]} ∅ rs
  = Ok (forallb (Z.eqb c) rs).
Proof.
  induction rs as [|r rs IH]; [by vm_compute|]. cbn [forallb].
  destruct (Z.eqb_spec c r) as [<-|Hne].
  - rewrite (MatchString_loop_step _ _ _ _ _ _
               {[ptr 0%nat; ptr 1%nat; ptr 2%nat]}); [exact IH| |by vm_compute].
    rewrite elements_012.
    rewrite (advance_cons_skip _ _ _ _ _ (plusNode [ptr 0%nat; ptr 2%nat])),
      (advance_cons_skip _ _ _ _ _ (terminalNode [])) by done.
    rewrite (advance_cons_match _ _ _ _ _ (lit c (ptr 1%nat))
               {[ptr 0%nat; ptr 1%nat; ptr 2%nat]});
      [done|done|simpl; by rewrite Z.eqb_refl|by vm_compute].
  - apply MatchString_loop_dead. rewrite elements_012.
    rewrite (advance_cons_skip _ _ _ _ _ (plusNode [ptr 0%nat; ptr 2%nat])),
      (advance_cons_skip _ _ _ _ _ (terminalNode [])) by done.
    rewrite (advance_cons_skip _ _ _ _ _ (lit c (ptr 1%nat))); [done|done|].
    simpl. apply Z.eqb_neq. congruence.
Qed.

Lemma elements_12 :
  elements ({[ptr 1%nat; ptr 2%nat]} : nodeSet) = [ptr 1%nat; ptr 2%nat].
Proof. by vm_compute. Qed.

(** X14: one literal under a quantifier, exactly.  Let [enc] be the UTF-8
    encoding of one rune [c] that is neither U+FFFD nor a metacharacter.
    The pattern [enc*] accepts exactly the inputs all of whose runes are
    [c]; [enc+] accepts exactly the non-empty ones among them; [enc?]
    accepts exactly the empty input and the input of the single rune
    [c]. *)
Theorem quantified_literal_exact (enc : string) (c : rune) :
  utf8.DecodeRuneInString (bytes_of_string enc)
  = (c, length (bytes_of_string enc)) →
  c ≠ utf8.RuneError → is_meta c = false →
  (∃ r h, Compile (enc ++ "*")%string = Ok (r, h)
          ∧ ∀ input, MatchString h r input
                     = Ok (forallb (Z.eqb c) (runes (bytes_of_string input))))
  ∧ (∃ r h, Compile (enc ++ "+")%string = Ok (r, h)
            ∧ ∀ input, MatchString h r input
                       = Ok (bool_decide (runes (bytes_of_string input) ≠ [])
                             && forallb (Z.eqb c)
                                  (runes (bytes_of_string input))))
  ∧ (∃ r h, Compile (enc ++ "?")%string = Ok (r, h)
            ∧ ∀ input, MatchString h r input
                       = Ok (bool_decide
                               (runes (bytes_of_string input) = []
                                ∨ runes (bytes_of_string input) = [c]))).
Proof.
  intros Hdec Hc Hm. split_and!.
  - eexists _, _. split; [by apply (compile_quantified enc c "*")|].
    intros input. unfold MatchString. simpl r_start. simpl r_term.
    change (quantified_heap (chr "*") c) with (star_heap_of c).
    replace (add (star_heap_of c) ∅ (ptr 0%nat))
      with (Ok ({[ptr 0%nat; ptr 1%nat; ptr 2%nat]} : nodeSet))
      by (by vm_compute).
    apply star_of_loop.
  - eexists _, _. split; [by apply (compile_quantified enc c "+")|].
    intros input. unfold MatchString. simpl r_start. simpl r_term.
    change (quantified_heap (chr "+") c) with (plus_heap_of c).
    replace (add (plus_heap_of c) ∅ (ptr 0%nat))
      with (Ok ({[ptr 0%nat]} : nodeSet)) by (by vm_compute).
    cbn [mbind result_bind].
    destruct (runes (bytes_of_string input)) as [|r rs]; [by vm_compute|].
    rewrite bool_decide_eq_true_2 by done. cbn [andb forallb].
    destruct (Z.eqb_spec c r) as [<-|Hne].
    + rewrite (MatchString_loop_step _ _ _ _ _ _
                 {[ptr 0%nat; ptr 1%nat; ptr 2%nat]});
        [apply plus_of_loop_exact| |by vm_compute].
      rewrite elements_singleton.
      rewrite (advance_cons_match _ _ _ _ _ (lit c (ptr 1%nat))
                 {[ptr 0%nat; ptr 1%nat; ptr 2%nat]});
        [done|done|simpl; by rewrite Z.eqb_refl|by vm_compute].
    + apply MatchString_loop_dead. rewrite elements_singleton.
      rewrite (advance_cons_skip _ _ _ _ _ (lit c (ptr 1%nat))); [done|done|].
      simpl. apply Z.eqb_neq. congruence.
  - eexists _, _. split; [by apply (compile_quantified enc c "?")|].
    intros input. unfold MatchString. simpl r_start. simpl r_term.
    change (quantified_heap (chr "?") c) with (qmark_heap_of c).
    replace (add (qmark_heap_of c) ∅ (ptr 0%nat))
      with (Ok ({[ptr 0%nat; ptr 1%nat; ptr 2%nat]} : nodeSet))
      by (by vm_compute).
    cbn [mbind result_bind].
    destruct (runes (bytes_of_string input)) as [|r rs].
    { rewrite bool_decide_eq_true_2 by (by left). by vm_compute. }
    assert (Hskip : ∀ r' nx,
      advance (qmark_heap_of c) r' [ptr 1%nat; ptr 2%nat] nx = Ok nx).
    { intros r' nx.
      rewrite (advance_cons_skip _ _ _ _ _ (qmarkNode [ptr 2%nat])),
        (advance_cons_skip _ _ _ _ _ (terminalNode [])) by done. done. }
    destruct (Z.eqb_spec c r) as [<-|Hne].
    + rewrite (MatchString_loop_step _ _ _ _ _ _ {[ptr 1%nat; ptr 2%nat]});
        [| |by vm_compute].
      * destruct rs as [|r' rs].
        -- rewrite bool_decide_eq_true_2 by (by right). by vm_compute.
        -- rewrite bool_decide_eq_false_2 by (by intros [|]).
           apply MatchString_loop_dead. rewrite elements_12. apply Hskip.
      * rewrite elements_012.
        rewrite (advance_cons_skip _ _ _ _ _ (qmarkNode [ptr 2%nat])),
          (advance_cons_skip _ _ _ _ _ (terminalNode [])) by done.
        rewrite (advance_cons_match _ _ _ _ _
                   (literalNode (MatchBase [ptr 1%nat] (ptr 1%nat)) c)
                   {[ptr 1%nat; ptr 2%nat]});
          [done|done|simpl; by rewrite Z.eqb_refl|by vm_compute].
    + rewrite bool_decide_eq_false_2 by (intros [|[=]]; congruence).
      apply MatchString_loop_dead. rewrite elements_012.
      rewrite (advance_cons_skip _ _ _ _ _ (qmarkNode [ptr 2%nat])),
        (advance_cons_skip _ _ _ _ _ (terminalNode [])) by done.
      rewrite (advance_cons_skip _ _ _ _ _
                 (literalNode (MatchBase [ptr 1%nat] (ptr 1%nat)) c));
        [done|done|].
      simpl. apply Z.eqb_neq. congruence.
Qed.

Lemma quantified_literal_exact_witness :
  (∃ r h, Compile ("a" ++ "*")%string = Ok (r, h)
          ∧ ∀ input, MatchString h r input
                     = Ok (forallb (Z.eqb 97) (runes (bytes_of_string input))))
  ∧ (∃ r h, Compile ("a" ++ "+")%string = Ok (r, h)
            ∧ ∀ input, MatchString h r input
                       = Ok (bool_decide (runes (bytes_of_string input) ≠ [])
                             && forallb (Z.eqb 97)
                                  (runes (bytes_of_string input))))
  ∧ (∃ r h, Compile ("a" ++ "?")%string = Ok (r, h)
            ∧ ∀ input, MatchString h r input
                       = Ok (bool_decide
                               (runes (bytes_of_string input) = []
                                ∨ runes (bytes_of_string input) = [97]))).
Proof.
  apply (quantified_literal_exact "a" 97).
  - vm_compute. reflexivity.
  - vm_compute. discriminate.
  - vm_compute. reflexivity.
Defined.

(** ** Escaped metacharacters *)

Lemma chr_inj a b : chr a = chr b → a = b.
Proof.
  unfold chr. intros H%N2Z.inj. apply (f_equal ascii_of_N) in H.
  by rewrite !ascii_N_embedding in H.
Qed.

(** X15: a backslash turns the characters [?], [*], [+], [(], [)] and
    [|] into literals: the pattern made of a backslash and one of them
    accepts exactly the input that is this one character. *)
Theorem escaped_metacharacter_exact (m : ascii) :
  is_escapable (chr m) = true →
  ∃ r h, Compile (String "\" (String m "")) = Ok (r, h)
         ∧ ∀ input, MatchString h r input
                    = Ok (bool_decide (runes (bytes_of_string input) = [chr m])).
Proof.
  intros Hm.
  assert (Hc : Compile (String "\" (String m ""))
               = Ok (Build_Regexp (ptr 0%nat) (ptr 1%nat)
                       (String "\" (String m "")),
                     [lit (chr m) (ptr 1%nat); terminalNode []])).
  { unfold is_escapable in Hm.
    repeat match type of Hm with
           | context [(chr m =? ?k)] =>
             destruct (Z.eqb_spec (chr m) k) as [He|_];
               [apply chr_inj in He; subst m; vm_compute; reflexivity|]
           end.
    done. }
  eexists _, _. split; [exact Hc|]. intros input.
  unfold MatchString. simpl r_start. simpl r_term.
  replace (add [lit (chr m) (ptr 1%nat); terminalNode []] ∅ (ptr 0%nat))
    with (Ok ({[ptr 0%nat]} : nodeSet)) by (by vm_compute).
  cbn [mbind result_bind].
  rewrite (chain_match_exact _ [chr m]); [done| |simpl; lia].
  split_and!; [done| |done]. by intros [|i] r; [intros [= <-]|].
Qed.

Lemma escaped_metacharacter_exact_witness :
  ∃ r h, Compile (String "\" (String "*" "")) = Ok (r, h)
         ∧ ∀ input, MatchString h r input
                    = Ok (bool_decide
                            (runes (bytes_of_string input) = [chr "*"])).
Proof.
  apply (escaped_metacharacter_exact "*"). vm_compute. reflexivity.
Defined.

(** ** Errors at the start of a clause *)

Lemma rune_at_cons b inp p : rune_at (b :: inp) (S p) = rune_at inp p.
Proof. done. Qed.

Lemma width_at_cons b inp p : width_at (b :: inp) (S p) = width_at inp p.
Proof. done. Qed.

Lemma rune_at_ascii b inp : 0 ≤ b < 128 → rune_at (b :: inp) 0 = b.
Proof. intros Hb. unfold rune_at. simpl drop. by rewrite decode_ascii. Qed.

Lemma width_at_ascii b inp : 0 ≤ b < 128 → width_at (b :: inp) 0 = 1%nat.
Proof. intros Hb. unfold width_at. simpl drop. by rewrite decode_ascii. Qed.

Lemma quantifier_ascii q : is_quantifier q = true → 0 ≤ q < 128.
Proof. intros Hq. destruct (is_quantifier_cases _ Hq) as [-> | [-> | ->]]; lia. Qed.

Lemma parseClause_loop_S fuel e :
  parseClause_loop (S fuel) e
  = (r ← peek;
     if (r =? utf8.RuneError) || (r =? chr ")") then mret e
     else if r =? chr "|" then
       e ← parsePipe (parseClause_loop fuel empty_expr) e;
       parseClause_loop fuel e
     else
       nxt ← parseTerm (parseClause_loop fuel empty_expr);
       e ← concat e nxt;
       parseClause_loop fuel e).
Proof. done. Qed.

(** X16: a quantifier where a term must start.  A pattern that begins
    with [?], [+] or [*] is rejected with "Invalid character" at position
    0, and so is a group that begins with one, at position 1, whatever
    follows; [MustCompile] panics on it. *)
Theorem quantifier_without_term (q : ascii) (rest : string) :
  is_quantifier (chr q) = true →
  Compile (String q rest) = Err (InvalidCharacter (chr q) 0)
  ∧ Compile (String "(" (String q rest)) = Err (InvalidCharacter (chr q) 1)
  ∧ MustCompile (String q rest) = Panic.
Proof.
  intros Hq. pose proof (Compile_leading_quantifier q rest Hq) as H0.
  split_and!; [done| |unfold MustCompile; by rewrite H0].
  unfold Compile, parse, parse_fuel, parse_body, parseClause.
  change (bytes_of_string (String "(" (String q rest)))
    with (40 :: chr q :: bytes_of_string rest).
  set (tl := bytes_of_string rest).
  pose proof (quantifier_ascii _ Hq) as Hqa.
  destruct (quantifier_tests _ Hq) as (T1 & T2 & T3).
  cbn [length]. replace (2 * S (S (length tl)) + 1)%nat
    with (S (S (2 * length tl + 3))) by lia.
  generalize (2 * length tl + 3)%nat. intros f.
  rewrite parseClause_loop_S.
  run. rewrite rune_at_ascii by lia.
  change (40 =? utf8.RuneError) with false. change (40 =? chr ")") with false.
  change (40 =? chr "|") with false. cbn [orb]. cbv iota.
  unfold parseTerm at 1.
  run. rewrite rune_at_ascii by lia.
  change (is_quantifier 40) with false. change (40 =? chr "(") with true.
  cbv iota. unfold parseSubexp.
  run. rewrite width_at_ascii by lia. cbn [Nat.add].
  rewrite parseClause_loop_S.
  run. rewrite rune_at_cons, rune_at_ascii by done.
  rewrite T1, T2, T3. cbn [orb]. cbv iota.
  unfold parseTerm.
  run. rewrite rune_at_cons, rune_at_ascii by done. rewrite Hq.
  run. reflexivity.
Qed.

Lemma quantifier_without_term_witness :
  Compile (String "+" "a") = Err (InvalidCharacter (chr "+") 0)
  ∧ Compile (String "(" (String "+" "a")) = Err (InvalidCharacter (chr "+") 1)
  ∧ MustCompile (String "+" "a") = Panic.
Proof.
  apply (quantifier_without_term "+" "a"). vm_compute. reflexivity.
Defined.

(** X17: an alternation without a left operand.  A pattern that begins
    with [|] is rejected, whatever follows.  The error names the rune
    after the [|] (U+FFFD at the end of the pattern) and position 1, the
    position after the [|]: [parsePipe] reads the [|] before it reports;
    both fields of the empty left operand are nil. *)
Theorem alternation_without_left_operand (rest : string) :
  Compile (String "|" rest)
  = Err (EmptyLeftOf (rune_at (bytes_of_string rest) 0) 1 nil nil).
Proof.
  unfold Compile, parse, parse_fuel, parse_body, parseClause.
  change (bytes_of_string (String "|" rest)) with (124 :: bytes_of_string rest).
  set (tl := bytes_of_string rest).
  cbn [length]. replace (2 * S (length tl) + 1)%nat
    with (S (2 * length tl + 2)) by lia.
  rewrite parseClause_loop_S. unfold parsePipe.
  run. rewrite rune_at_ascii by lia.
  change (124 =? utf8.RuneError) with false. change (124 =? chr ")") with false.
  change (124 =? chr "|") with true. cbn [orb]. cbv iota.
  run. rewrite width_at_ascii by lia. cbn [Nat.add].
  change (isEmpty empty_expr) with true. cbv iota.
  run. rewrite rune_at_cons. reflexivity.
Qed.

(** X18: unknown escapes.  A pattern that begins with a backslash that
    is not followed by one of [?], [*], [+], [(], [)], [|] is rejected
    with "unknown escape sequence" and the rune that follows (U+FFFD when
    the backslash ends the pattern); the dot and the backslash itself
    cannot be escaped. *)
Theorem unknown_escape_error (rest : string) :
  is_escapable (rune_at (bytes_of_string rest) 0) = false →
  Compile (String "\" rest)
  = Err (UnknownEscape (rune_at (bytes_of_string rest) 0)).
Proof.
  intros He. unfold Compile, parse, parse_fuel, parse_body, parseClause.
  change (bytes_of_string (String "\" rest)) with (92 :: bytes_of_string rest).
  set (tl := bytes_of_string rest) in *.
  cbn [length]. replace (2 * S (length tl) + 1)%nat
    with (S (2 * length tl + 2)) by lia.
  rewrite parseClause_loop_S. unfold parseTerm, parseEscape.
  run. rewrite rune_at_ascii by lia.
  change (92 =? utf8.RuneError) with false. change (92 =? chr ")") with false.
  change (92 =? chr "|") with false. cbn [orb]. cbv iota.
  run. rewrite rune_at_ascii by lia.
  change (is_quantifier 92) with false. change (92 =? chr "(") with false.
  change (92 =? chr "\") with true. cbv iota.
  run. rewrite width_at_ascii by lia. cbn [Nat.add].
  run. rewrite rune_at_cons.
  unfold is_escapable in He. rewrite He. reflexivity.
Qed.

Lemma unknown_escape_error_witness :
  Compile (String "\" ".")
  = Err (UnknownEscape (rune_at (bytes_of_string ".") 0)).
Proof. apply (unknown_escape_error "."). vm_compute. reflexivity. Defined.

(** ** The scanner *)

Lemma decode_width_le_4 s : ((utf8.DecodeRuneInString s).2 ≤ 4)%nat.
Proof.
  unfold utf8.DecodeRuneInString. destruct s as [|b s]; [simpl; lia|].
  repeat match goal with
         | |- context [if ?c then _ else _] => destruct c
         | |- context [let '(_, _) := ?p in _] => destruct p
         end; simpl; lia.
Qed.

(** X19: the scanner stays inside the pattern.  From a position that is
    not past the end of the pattern, [next] returns, leaves the graph
    alone and moves by the width of the rune that it read: at most four
    bytes, never past the end, and by no byte at all exactly at the end of
    the pattern, where the rune is [utf8.RuneError]; the slice
    [p.in[p.pos:]] is always in range, and [backup] can take the width off
    again. *)
Theorem scanner_next_in_bounds (st : state) :
  (pos (st_p st) ≤ length (p_in (st_p st)))%nat →
  ∃ r st', p_next st = Ok (r, st')
    ∧ p_in (st_p st') = p_in (st_p st) ∧ st_heap st' = st_heap st
    ∧ pos (st_p st') = (pos (st_p st) + width (st_p st'))%nat
    ∧ (pos (st_p st') ≤ length (p_in (st_p st)))%nat
    ∧ (width (st_p st') ≤ 4)%nat
    ∧ (width (st_p st') = 0%nat ↔ pos (st_p st) = length (p_in (st_p st)))
    ∧ (pos (st_p st) = length (p_in (st_p st)) → r = utf8.RuneError).
Proof.
  destruct st as [[inp p w] h]. simpl. intros Hp.
  eexists _, _. split; [apply run_p_next|]. simpl.
  split_and!; [done..| | | |].
  - by apply next_le.
  - apply decode_width_le_4.
  - split.
    + intros Hw. destruct (decide (p < length inp)%nat) as [Hlt|]; [|lia].
      destruct (width_at_bounds inp p Hlt). lia.
    + intros ->. by destruct (rune_at_end inp (length inp)).
  - intros ->. by destruct (rune_at_end inp (length inp)).
Qed.

Lemma scanner_next_in_bounds_witness :
  ∃ r st', p_next (State (Parser (bytes_of_string "a|b") 1 0) []) = Ok (r, st')
    ∧ p_in (st_p st') = bytes_of_string "a|b" ∧ st_heap st' = []
    ∧ pos (st_p st') = (1 + width (st_p st'))%nat
    ∧ (pos (st_p st') ≤ length (bytes_of_string "a|b"))%nat
    ∧ (width (st_p st') ≤ 4)%nat
    ∧ (width (st_p st') = 0%nat ↔ 1%nat = length (bytes_of_string "a|b"))
    ∧ (1%nat = length (bytes_of_string "a|b") → r = utf8.RuneError).
Proof.
  apply (scanner_next_in_bounds (State (Parser (bytes_of_string "a|b") 1 0) [])).
  simpl. lia.
Defined.

(** X20: [peek] looks ahead without moving.  From a position that is not
    past the end of the pattern (where the slice [p.in[p.pos:]] is in
    range), [peek] returns the rune that [next] returns and leaves the
    scanner at its position, with a width of 0; so a second [peek]
    returns the same rune, and a [backup] after a [peek] does not move
    the scanner. *)
Theorem peek_does_not_move (st : state) :
  (pos (st_p st) ≤ length (p_in (st_p st)))%nat →
  ∃ r st1 st', p_next st = Ok (r, st1) ∧ peek st = Ok (r, st')
    ∧ st_p st' = Parser (p_in (st_p st)) (pos (st_p st)) 0
    ∧ st_heap st' = st_heap st
    ∧ peek st' = Ok (r, st')
    ∧ backup st' = Ok (tt, st').
Proof.
  destruct st as [[inp p w] h]. intros _.
  eexists _, _, _. split; [apply run_p_next|].
  split; [apply run_peek|]. split_and!; [done..|apply run_peek|].
  unfold backup. simpl. by rewrite Nat.sub_0_r.
Qed.

Lemma peek_does_not_move_witness :
  ∃ r st1 st',
    p_next (State (Parser (bytes_of_string "a|b") 1 1) []) = Ok (r, st1)
    ∧ peek (State (Parser (bytes_of_string "a|b") 1 1) []) = Ok (r, st')
    ∧ st_p st' = Parser (bytes_of_string "a|b") 1 0
    ∧ st_heap st' = []
    ∧ peek st' = Ok (r, st')
    ∧ backup st' = Ok (tt, st').
Proof.
  apply (peek_does_not_move (State (Parser (bytes_of_string "a|b") 1 1) [])).
  simpl. lia.
Defined.

(** ** An unmatched closing parenthesis *)

(** The clause parser returns right after a [peek]: the width of the
    scanner is 0 when it returns. *)
Lemma parseClause_loop_width fuel : ∀ e st,
  ensures (parseClause_loop fuel e) st (λ _ st', width (st_p st') = 0%nat).
Proof.
  induction fuel as [|fuel IH]; intros e st; [by apply ensures_never|].
  rewrite parseClause_loop_S.
  eapply ensures_bind with (Q1 := λ _ st1, width (st_p st1) = 0%nat).
  { destruct st as [[inp p w] h]. intros r st1. rewrite run_peek.
    by intros [= <- <-]. }
  intros r st1 Hw.
  destruct ((r =? utf8.RuneError) || (r =? chr ")")).
  { by intros e' st' [= <- <-]. }
  destruct (r =? chr "|").
  - eapply ensures_bind with (Q1 := λ _ _, True); [done|]. intros. apply IH.
  - eapply ensures_bind with (Q1 := λ _ _, True); [done|]. intros.
    eapply ensures_bind with (Q1 := λ _ _, True); [done|]. intros. apply IH.
Qed.

Section unmatched_paren.

(** The pattern [u] and the pattern [w] that goes on with a closing
    parenthesis after [u]. *)
Variables (u v : list Z).

Let w : list Z := u ++ chr ")" :: v.
Let n : nat := length u.

Local Lemma paren_decode_agree p :
  (p < n)%nat →
  utf8.DecodeRuneInString (drop p w) = utf8.DecodeRuneInString (drop p u).
Proof.
  intros Hp. unfold w. rewrite drop_app_le by (unfold n in Hp; lia).
  apply decode_app_ascii; [|by vm_compute].
  intros Hnil. apply (f_equal length) in Hnil.
  rewrite length_drop in Hnil. simpl in Hnil. unfold n in Hp. lia.
Qed.

Local Lemma paren_rune_agree p : (p < n)%nat → rune_at w p = rune_at u p.
Proof. intros. unfold rune_at. by rewrite paren_decode_agree. Qed.

Local Lemma paren_width_agree p : (p < n)%nat → width_at w p = width_at u p.
Proof. intros. unfold width_at. by rewrite paren_decode_agree. Qed.

Local Lemma paren_rune_at_n : rune_at w n = chr ")".
Proof.
  unfold rune_at, w, n. rewrite drop_app_length. by rewrite decode_ascii.
Qed.

Local Lemma paren_rune_at_end : rune_at u n = utf8.RuneError.
Proof. by apply rune_at_end. Qed.

(** The run on [w] goes the way of the run on [u], unless the run on [u]
    does not return a value. *)
Definition follows {A} (rx rw : result (A * state)) : Prop :=
  (∀ a st, rx ≠ Ok (a, st))
  ∨ (rw = retarget w rx
     ∧ ∀ a st, rx = Ok (a, st) →
         p_in (st_p st) = u ∧ (pos (st_p st) ≤ n)%nat).

Lemma follows_bind {A C} (m : M A) (f : A → M C) st :
  follows (m st) (m (set_in w st)) →
  (∀ a st', m st = Ok (a, st') → p_in (st_p st') = u →
            (pos (st_p st') ≤ n)%nat →
            follows (f a st') (f a (set_in w st'))) →
  follows ((m ≫= f) st) ((m ≫= f) (set_in w st)).
Proof.
  intros [Hn|[Hs Hb]] Hf; rewrite !run_bind.
  - left. intros a st'. destruct (m st) as [[a0 st0]| | |]; try done.
    by destruct (Hn a0 st0).
  - rewrite Hs. destruct (m st) as [[a st']| | |] eqn:Hm; simpl;
      try (by left).
    destruct (Hb a st' eq_refl). by apply Hf.
Qed.

Lemma follows_graph_op {A} (m : M A) st :
  graph_op m → p_in (st_p st) = u → (pos (st_p st) ≤ n)%nat →
  follows (m st) (m (set_in w st)).
Proof.
  intros Hm Hx Hp. right. destruct st as [pr h]. unfold set_in. simpl.
  rewrite (Hm pr _ h).
  destruct (m (State pr h)) as [[a [pr1 h1]]| | |] eqn:Hr; simpl;
    try (split; [done|by intros]).
  apply graph_op_parser in Hr; [|done]. simpl in Hr. subst pr1.
  split; [done|]. by intros ?? [= <- <-].
Qed.

Lemma follows_never {A} (rx rw : result (A * state)) :
  (∀ a st, rx ≠ Ok (a, st)) → follows rx rw.
Proof. by left. Qed.

Lemma follows_get_pos st :
  p_in (st_p st) = u → (pos (st_p st) ≤ n)%nat →
  follows (get_pos st) (get_pos (set_in w st)).
Proof. intros Hx Hp. right. split; [done|]. by intros ?? [= <- <-]. Qed.

Lemma follows_p_next st :
  p_in (st_p st) = u → (pos (st_p st) < n)%nat →
  follows (p_next st) (p_next (set_in w st)).
Proof.
  intros Hx Hp. right. destruct st as [[inp p wd] h]. simpl in *. subst inp.
  unfold set_in. simpl. rewrite !run_p_next.
  rewrite paren_rune_agree, paren_width_agree by done.
  split; [done|]. intros ?? [= <- <-]. simpl. split; [done|].
  by destruct (width_at_bounds u p Hp).
Qed.

Lemma follows_peek st :
  p_in (st_p st) = u → (pos (st_p st) < n)%nat →
  follows (peek st) (peek (set_in w st)).
Proof.
  intros Hx Hp. right. destruct st as [[inp p wd] h]. simpl in *. subst inp.
  unfold set_in. simpl. rewrite !run_peek.
  rewrite paren_rune_agree by done.
  split; [done|]. intros ?? [= <- <-]. simpl. split; [done|lia].
Qed.

(** A rune of [u] other than [utf8.RuneError] starts inside [u]. *)
Local Lemma paren_inside st :
  p_in (st_p st) = u → (pos (st_p st) ≤ n)%nat →
  rune_at u (pos (st_p st)) ≠ utf8.RuneError → (pos (st_p st) < n)%nat.
Proof. intros _ _ Hr. by apply rune_lt in Hr. Qed.

Lemma follows_parseLiteral st :
  p_in (st_p st) = u → (pos (st_p st) < n)%nat →
  follows (parseLiteral st) (parseLiteral (set_in w st)).
Proof.
  intros Hx Hp. unfold parseLiteral.
  eapply follows_bind; [by apply follows_p_next|].
  intros r st1 _ Hx1 Hp1. apply follows_graph_op; [graph_op|done..].
Qed.

Lemma follows_parseDot st :
  p_in (st_p st) = u → (pos (st_p st) < n)%nat →
  follows (parseDot st) (parseDot (set_in w st)).
Proof.
  intros Hx Hp. unfold parseDot.
  eapply follows_bind; [by apply follows_p_next|].
  intros r st1 _ Hx1 Hp1. apply follows_graph_op; [graph_op|done..].
Qed.

Lemma follows_parseEscape st :
  p_in (st_p st) = u → (pos (st_p st) < n)%nat →
  follows (parseEscape st) (parseEscape (set_in w st)).
Proof.
  intros Hx Hp. unfold parseEscape.
  eapply follows_bind; [by apply follows_p_next|].
  intros r0 st1 _ Hx1 Hp1.
  destruct (decide (pos (st_p st1) = n)) as [Hn|Hn].
  - (* the backslash is the last byte of [u]: the run on [u] fails *)
    apply follows_never. intros a st' Hrun.
    apply run_bind_Ok_inv in Hrun as (r & st2 & Hpk & Hrun).
    apply peek_Ok_inv in Hpk. rewrite Hx1, Hn, paren_rune_at_end in Hpk.
    subst r. done.
  - eapply follows_bind; [apply follows_peek; [done|lia]|].
    intros r st2 Hpk Hx2 Hp2.
    destruct st1 as [[inp1 p1 w1] h1]. rewrite run_peek in Hpk.
    injection Hpk as <- <-. simpl in *.
    match goal with |- context [if ?c then _ else _] => destruct c end.
    + apply follows_parseLiteral; simpl; [done|lia].
    + by apply follows_never.
Qed.

Lemma follows_parseMeta e st :
  p_in (st_p st) = u → (pos (st_p st) < n)%nat →
  follows (parseMeta e st) (parseMeta e (set_in w st)).
Proof.
  intros Hx Hp. unfold parseMeta.
  eapply follows_bind; [by apply follows_p_next|].
  intros mc st1 _ Hx1 Hp1. apply follows_graph_op; [graph_op|done..].
Qed.

Definition follows_rec (rec : M expr) : Prop :=
  ∀ st, p_in (st_p st) = u → (pos (st_p st) ≤ n)%nat →
        follows (rec st) (rec (set_in w st)).

Lemma follows_parseSubexp rec st :
  follows_rec rec →
  p_in (st_p st) = u → (pos (st_p st) < n)%nat →
  follows (parseSubexp rec st) (parseSubexp rec (set_in w st)).
Proof.
  intros Hrec Hx Hp. unfold parseSubexp.
  eapply follows_bind; [apply follows_get_pos; [done|lia]|].
  intros start st0 [= <- <-] _ _.
  eapply follows_bind; [by apply follows_p_next|].
  intros r0 st1 _ Hx1 Hp1.
  eapply follows_bind; [by apply Hrec|].
  intros e st2 _ Hx2 Hp2.
  destruct (decide (pos (st_p st2) = n)) as [Hn|Hn].
  - (* the group is still open at the end of [u]: the run on [u] fails *)
    apply follows_never. intros a st' Hrun.
    apply run_bind_Ok_inv in Hrun as (r & st3 & Hnx & Hrun).
    apply p_next_Ok_inv in Hnx. rewrite Hx2, Hn, paren_rune_at_end in Hnx.
    subst r.
    apply run_bind_Ok_inv in Hrun as (? & ? & _ & Hrun).
    apply run_bind_Ok_inv in Hrun as (? & ? & _ & Hrun).
    apply run_bind_Ok_inv in Hrun as (? & ? & _ & Hrun).
    apply run_bind_Ok_inv in Hrun as (? & ? & _ & Hrun). done.
  - eapply follows_bind; [apply follows_p_next; [done|lia]|].
    intros r st3 _ Hx3 Hp3. apply follows_graph_op; [graph_op|done..].
Qed.

Lemma follows_parseTerm rec st :
  follows_rec rec →
  p_in (st_p st) = u → (pos (st_p st) < n)%nat →
  follows (parseTerm rec st) (parseTerm rec (set_in w st)).
Proof.
  intros Hrec Hx Hp. unfold parseTerm.
  eapply follows_bind; [by apply follows_peek|].
  intros r st1 Hpk Hx1 Hp1.
  destruct st as [[inp p wd] h]. rewrite run_peek in Hpk.
  injection Hpk as <- <-. simpl in *.
  destruct (is_quantifier _); [by apply follows_never|].
  eapply follows_bind.
  { destruct (_ =? chr "("); [by apply follows_parseSubexp|].
    destruct (_ =? chr "\"); [by apply follows_parseEscape|].
    destruct (_ =? chr "."); [by apply follows_parseDot|].
    by apply follows_parseLiteral. }
  intros e st2 _ Hx2 Hp2.
  destruct (decide (pos (st_p st2) = n)) as [Hn|Hn].
  - (* at the end of [u]: no quantifier follows, in either pattern *)
    right. destruct st2 as [[inp2 p2 w2] h2]. simpl in *. subst inp2 p2.
    unfold set_in. simpl. rewrite !run_bind, !run_peek. cbv beta iota.
    rewrite paren_rune_at_end, paren_rune_at_n.
    change (is_quantifier utf8.RuneError) with false.
    change (is_quantifier (chr ")")) with false. cbv iota.
    split; [done|]. by intros ?? [= <- <-].
  - eapply follows_bind; [apply follows_peek; [done|lia]|].
    intros r2 st3 Hpk Hx3 Hp3.
    destruct st2 as [[inp2 p2 w2] h2]. rewrite run_peek in Hpk.
    injection Hpk as <- <-. simpl in *.
    destruct (is_quantifier _).
    + apply follows_parseMeta; simpl; [done|lia].
    + apply follows_graph_op; [graph_op|done..].
Qed.

Lemma follows_parsePipe rec lhs st :
  follows_rec rec →
  p_in (st_p st) = u → (pos (st_p st) < n)%nat →
  follows (parsePipe rec lhs st) (parsePipe rec lhs (set_in w st)).
Proof.
  intros Hrec Hx Hp. unfold parsePipe.
  eapply follows_bind; [by apply follows_p_next|].
  intros r0 st1 _ Hx1 Hp1.
  destruct (isEmpty lhs).
  - apply follows_never. intros a st' Hrun.
    apply run_bind_Ok_inv in Hrun as (? & ? & _ & Hrun).
    apply run_bind_Ok_inv in Hrun as (? & ? & _ & Hrun). done.
  - eapply follows_bind; [by apply Hrec|].
    intros e st2 _ Hx2 Hp2. apply follows_graph_op; [graph_op|done..].
Qed.

Lemma follows_parseClause_loop fuel : ∀ e, follows_rec (parseClause_loop fuel e).
Proof.
  induction fuel as [|fuel IH]; intros e st Hx Hp; [by apply follows_never|].
  rewrite parseClause_loop_S.
  destruct (decide (pos (st_p st) = n)) as [Hn|Hn].
  { (* at the end of [u] the clause ends, in both patterns *)
    right. destruct st as [[inp p wd] h]. simpl in *. subst inp p.
    unfold set_in. simpl. rewrite !run_bind, !run_peek. cbv beta iota.
    rewrite paren_rune_at_end, paren_rune_at_n.
    change ((utf8.RuneError =? utf8.RuneError) || _) with true.
    change ((chr ")" =? utf8.RuneError) || (chr ")" =? chr ")")) with true.
    cbv iota. split; [done|]. by intros ?? [= <- <-]. }
  eapply follows_bind; [apply follows_peek; [done|lia]|].
  intros r st1 Hpk Hx1 Hp1.
  destruct st as [[inp p wd] h]. rewrite run_peek in Hpk.
  injection Hpk as <- <-. simpl in *.
  destruct ((_ =? utf8.RuneError) || (_ =? chr ")")).
  { apply follows_graph_op; [graph_op|done..]. }
  destruct (_ =? chr "|").
  - eapply follows_bind; [apply follows_parsePipe; [apply IH|done|simpl; lia]|].
    intros e' st2 _ Hx2 Hp2. by apply IH.
  - eapply follows_bind; [apply follows_parseTerm; [apply IH|done|simpl; lia]|].
    intros nxt st2 _ Hx2 Hp2.
    eapply follows_bind; [apply follows_graph_op; [graph_op|done..]|].
    intros e' st3 _ Hx3 Hp3. by apply IH.
Qed.

End unmatched_paren.

Lemma parse_unmatched_paren (u v : list Z) s t h :
  parse u = Ok (s, t, h) →
  parse (u ++ chr ")" :: v) = Err (IllegalAt (chr ")") (length u)).
Proof.
  intros Hu. unfold parse in *.
  set (fw := (2 * length (u ++ chr ")" :: v) + 1)%nat).
  assert (Hle : (2 * length u + 1 ≤ fw)%nat).
  { unfold fw. rewrite length_app. simpl. lia. }
  destruct (parse_fuel_grows _ _ u Hle) as [Ho|Hg]; [congruence|].
  rewrite Hu in Hg. clear Hu Hle.
  unfold parse_fuel, parse_body, parseClause in *.
  pose proof (follows_parseClause_loop u v fw empty_expr
                (State (Parser u 0 0) []) eq_refl ltac:(simpl; lia)) as Hf.
  pose proof (parseClause_loop_width fw empty_expr (State (Parser u 0 0) []))
    as Hw.
  unfold set_in in Hf. simpl in Hf.
  rewrite run_bind in Hg. rewrite run_bind.
  destruct (parseClause_loop fw empty_expr (State (Parser u 0 0) []))
    as [[e [[inp p wd] h1]]| | |] eqn:Hx; try done.
  destruct Hf as [Hn|[-> Hb]]; [by destruct (Hn e (State (Parser inp p wd) h1))|].
  destruct (Hb _ _ eq_refl) as [Hin Hp]. simpl in Hin, Hp. subst inp.
  specialize (Hw _ _ Hx). simpl in Hw. subst wd.
  simpl. unfold set_in. simpl.
  rewrite run_bind, run_get_pos in Hg. cbv beta iota in Hg.
  destruct (Nat.eqb_spec p (length u)) as [->|Hne]; cbn [negb] in Hg;
    last first.
  { rewrite run_bind in Hg. unfold backup in Hg. simpl in Hg.
    rewrite run_bind, run_peek in Hg. cbv beta iota in Hg.
    rewrite run_bind, run_get_pos in Hg. done. }
  run. rewrite length_app. cbn [length].
  destruct (Nat.eqb_spec (length u) (length u + S (length v))) as [|_]; [lia|].
  cbn [negb]. unfold backup. run. cbn [st_p st_heap pos width p_in]. run.
  rewrite Nat.sub_0_r. run.
  unfold rune_at. rewrite drop_app_length. by rewrite decode_ascii.
Qed.

(** X21: an unmatched closing parenthesis.  When a pattern [u] compiles,
    the pattern that goes on with a closing parenthesis after [u], and
    with anything after that, is rejected with "illegal )" at the
    position of that parenthesis. *)
Theorem unmatched_closing_paren (u v : string) (r : Regexp) (h : heap) :
  Compile u = Ok (r, h) →
  Compile (u ++ String ")" v)%string
  = Err (IllegalAt (chr ")") (length (bytes_of_string u))).
Proof.
  unfold Compile. intros Hc.
  destruct (parse (bytes_of_string u)) as [[[s t] h0]| | |] eqn:Hp; try done.
  rewrite bytes_of_string_app.
  change (bytes_of_string (String ")" v)) with (chr ")" :: bytes_of_string v).
  by rewrite (parse_unmatched_paren _ _ _ _ _ Hp).
Qed.

Lemma unmatched_closing_paren_witness :
  Compile ("a*" ++ String ")" "b")%string
  = Err (IllegalAt (chr ")") (length (bytes_of_string "a*"))).
Proof.
  apply (unmatched_closing_paren "a*" "b"
           (Build_Regexp (ptr 0%nat) (ptr 2%nat) "a*") star_heap).
  vm_compute. reflexivity.
Defined.

(** ** An alternation without a right operand *)

(** The exit of a term is a node. *)
Lemma concat_end e nxt st e' st' :
  concat e nxt st = Ok (e', st') → nxt ≠ empty_expr → e_end e' = e_end nxt.
Proof.
  intros Hrun Hn. destruct (decide (e = empty_expr)) as [->|He].
  { rewrite concat_empty_l in Hrun. by injection Hrun as <- _. }
  by apply concat_Ok_inv in Hrun as (a & o & _ & _ & -> & _).
Qed.

Lemma concatNode_end e a st e' st' :
  concatNode e (ptr a) st = Ok (e', st') → e_end e' = ptr a.
Proof. intros Hrun. by apply concat_end in Hrun. Qed.

Lemma parseMeta_end term st e st' :
  parseMeta term st = Ok (e, st') → e_end term ≠ nil → e_end e ≠ nil.
Proof.
  intros Hrun Ht. unfold parseMeta in Hrun.
  apply run_bind_Ok_inv in Hrun as (mc & st1 & _ & Hrun).
  apply run_bind_Ok_inv in Hrun as (n & st2 & Hn & Hrun).
  destruct n as [|a].
  - unfold concatNode in Hrun. change (Expr nil nil) with empty_expr in Hrun.
    rewrite concat_empty_r in Hrun. by injection Hrun as <- _.
  - apply concatNode_end in Hrun. by rewrite Hrun.
Qed.

Lemma parseTerm_end rec st e st' :
  parseTerm rec st = Ok (e, st') → e_end e ≠ nil.
Proof.
  intros Hrun. unfold parseTerm in Hrun.
  apply run_bind_Ok_inv in Hrun as (r & st1 & _ & Hrun).
  destruct (is_quantifier r).
  { apply run_bind_Ok_inv in Hrun as (? & ? & _ & Hrun). done. }
  apply run_bind_Ok_inv in Hrun as (e1 & st2 & Hatom & Hrun).
  assert (He1 : e_end e1 ≠ nil).
  { destruct (r =? chr "(").
    { unfold parseSubexp in Hatom.
      apply run_bind_Ok_inv in Hatom as (? & ? & _ & Hatom).
      apply run_bind_Ok_inv in Hatom as (? & ? & _ & Hatom).
      apply run_bind_Ok_inv in Hatom as (? & ? & _ & Hatom).
      apply run_bind_Ok_inv in Hatom as (? & ? & _ & Hatom).
      apply run_bind_Ok_inv in Hatom as (? & ? & _ & Hatom).
      apply run_bind_Ok_inv in Hatom as (rp & st7 & Hrp & Hatom).
      apply run_bind_Ok_inv in Hatom as (? & ? & _ & Hatom).
      apply run_bind_Ok_inv in Hatom as (e2 & st9 & Hc & Hatom).
      injection Hrp as <- _.
      apply concatNode_end in Hc.
      destruct (_ =? chr ")"); [|done]. injection Hatom as <- _.
      by rewrite Hc. }
    destruct (r =? chr "\").
    { unfold parseEscape in Hatom.
      apply run_bind_Ok_inv in Hatom as (? & ? & _ & Hatom).
      apply run_bind_Ok_inv in Hatom as (? & ? & _ & Hatom).
      match type of Hatom with context [if ?c then _ else _] => destruct c end;
        [|done].
      unfold parseLiteral in Hatom.
      apply run_bind_Ok_inv in Hatom as (? & ? & _ & Hatom).
      apply run_bind_Ok_inv in Hatom as (? & ? & [= <- _] & Hatom).
      by injection Hatom as <- _. }
    destruct (r =? chr ".").
    { unfold parseDot in Hatom.
      apply run_bind_Ok_inv in Hatom as (? & ? & _ & Hatom).
      apply run_bind_Ok_inv in Hatom as (? & ? & [= <- _] & Hatom).
      by injection Hatom as <- _. }
    unfold parseLiteral in Hatom.
    apply run_bind_Ok_inv in Hatom as (? & ? & _ & Hatom).
    apply run_bind_Ok_inv in Hatom as (? & ? & [= <- _] & Hatom).
    by injection Hatom as <- _. }
  apply run_bind_Ok_inv in Hrun as (r2 & st3 & _ & Hrun).
  destruct (is_quantifier r2).
  - by eapply parseMeta_end.
  - by injection Hrun as <- _.
Qed.

Section dangling_pipe.

(** The pattern [u] and the pattern [w] that goes on after [u] with a
    [|] and with [v], where [v] is empty or begins with a closing
    parenthesis or with a rune that does not decode: the alternation has
    no right operand. *)
Variables (u v : list Z).
Hypothesis Hv : rune_at v 0 = utf8.RuneError ∨ rune_at v 0 = chr ")".

Let w : list Z := u ++ chr "|" :: v.
Let n : nat := length u.
Let lw : nat := length w.

Local Lemma pipe_lw : lw = (n + S (length v))%nat.
Proof. unfold lw, w, n. rewrite length_app. done. Qed.

Local Lemma pipe_decode_agree p :
  (p < n)%nat →
  utf8.DecodeRuneInString (drop p w) = utf8.DecodeRuneInString (drop p u).
Proof.
  intros Hp. unfold w. rewrite drop_app_le by (unfold n in Hp; lia).
  apply decode_app_ascii; [|by vm_compute].
  intros Hnil. apply (f_equal length) in Hnil.
  rewrite length_drop in Hnil. simpl in Hnil. unfold n in Hp. lia.
Qed.

Local Lemma pipe_rune_agree p : (p < n)%nat → rune_at w p = rune_at u p.
Proof. intros. unfold rune_at. by rewrite pipe_decode_agree. Qed.

Local Lemma pipe_width_agree p : (p < n)%nat → width_at w p = width_at u p.
Proof. intros. unfold width_at. by rewrite pipe_decode_agree. Qed.

Local Lemma pipe_rune_at_n : rune_at w n = chr "|".
Proof.
  unfold rune_at, w, n. rewrite drop_app_length. by rewrite decode_ascii.
Qed.

Local Lemma pipe_width_at_n : width_at w n = 1%nat.
Proof.
  unfold width_at, w, n. rewrite drop_app_length. by rewrite decode_ascii.
Qed.

Local Lemma pipe_rune_after : rune_at w (n + 1) = rune_at v 0.
Proof.
  unfold rune_at, w, n. rewrite drop_app_ge by lia.
  replace (length u + 1 - length u)%nat with 1%nat by lia. done.
Qed.

Local Lemma pipe_rune_at_end : rune_at u n = utf8.RuneError.
Proof. by apply rune_at_end. Qed.

(** The run on [w] has panicked, or it has gone the way of the run on
    [u], unless the run on [u] does not return a value. *)
Definition trails {A} (B : nat → Prop) (rx rw : result (A * state)) : Prop :=
  (∀ a st, rx ≠ Ok (a, st))
  ∨ rw = Panic
  ∨ (rw = retarget w rx
     ∧ ∀ a st, rx = Ok (a, st) → p_in (st_p st) = u ∧ B (pos (st_p st))).

Lemma trails_bind {A C} (B B' : nat → Prop) (m : M A) (f : A → M C) st :
  trails B (m st) (m (set_in w st)) →
  (∀ a st', m st = Ok (a, st') → p_in (st_p st') = u → B (pos (st_p st')) →
            trails B' (f a st') (f a (set_in w st'))) →
  trails B' ((m ≫= f) st) ((m ≫= f) (set_in w st)).
Proof.
  intros [Hn|[Hp|[Hs Hb]]] Hf; rewrite !run_bind.
  - left. intros a st'. destruct (m st) as [[a0 st0]| | |]; try done.
    by destruct (Hn a0 st0).
  - right; left. by rewrite Hp.
  - rewrite Hs. destruct (m st) as [[a st']| | |] eqn:Hm; simpl;
      try (by left).
    destruct (Hb a st' eq_refl). by apply Hf.
Qed.

Lemma trails_graph_op {A} (B : nat → Prop) (m : M A) st :
  graph_op m → p_in (st_p st) = u → B (pos (st_p st)) →
  trails B (m st) (m (set_in w st)).
Proof.
  intros Hm Hx Hp. right; right. destruct st as [pr h]. unfold set_in. simpl.
  rewrite (Hm pr _ h).
  destruct (m (State pr h)) as [[a [pr1 h1]]| | |] eqn:Hr; simpl;
    try (split; [done|by intros]).
  apply graph_op_parser in Hr; [|done]. simpl in Hr. subst pr1.
  split; [done|]. by intros ?? [= <- <-].
Qed.

Lemma trails_weaken {A} (B B' : nat → Prop) (rx rw : result (A * state)) :
  (∀ p, B p → B' p) → trails B rx rw → trails B' rx rw.
Proof.
  intros HB [Hn|[Hp|[Hs Hb]]]; [by left|by right; left|right; right].
  split; [done|]. intros a st Hr. destruct (Hb a st Hr). auto.
Qed.

Lemma trails_never {A} (B : nat → Prop) (rx rw : result (A * state)) :
  (∀ a st, rx ≠ Ok (a, st)) → trails B rx rw.
Proof. by left. Qed.

Lemma trails_get_pos (B : nat → Prop) st :
  p_in (st_p st) = u → B (pos (st_p st)) →
  trails B (get_pos st) (get_pos (set_in w st)).
Proof. intros Hx Hp. right; right. split; [done|]. by intros ?? [= <- <-]. Qed.

Lemma trails_p_next st :
  p_in (st_p st) = u → (pos (st_p st) < n)%nat →
  trails (λ p, pos (st_p st) < p ≤ n)%nat (p_next st) (p_next (set_in w st)).
Proof.
  intros Hx Hp. right; right. destruct st as [[inp p wd] h]. simpl in *.
  subst inp. unfold set_in. simpl. rewrite !run_p_next.
  rewrite pipe_rune_agree, pipe_width_agree by done.
  split; [done|]. intros ?? [= <- <-]. simpl. split; [done|].
  destruct (width_at_bounds u p Hp). unfold n. lia.
Qed.

Lemma trails_peek st :
  p_in (st_p st) = u → (pos (st_p st) < n)%nat →
  trails (λ p, p = pos (st_p st)) (peek st) (peek (set_in w st)).
Proof.
  intros Hx Hp. right; right. destruct st as [[inp p wd] h]. simpl in *.
  subst inp. unfold set_in. simpl. rewrite !run_peek.
  rewrite pipe_rune_agree by done.
  split; [done|]. by intros ?? [= <- <-].
Qed.

Lemma trails_parseLiteral st :
  p_in (st_p st) = u → (pos (st_p st) < n)%nat →
  trails (λ p, pos (st_p st) < p ≤ n)%nat
    (parseLiteral st) (parseLiteral (set_in w st)).
Proof.
  intros Hx Hp. unfold parseLiteral.
  eapply trails_bind; [by apply trails_p_next|].
  intros r st1 _ Hx1 Hp1. apply trails_graph_op; [graph_op|done..].
Qed.

Lemma trails_parseDot st :
  p_in (st_p st) = u → (pos (st_p st) < n)%nat →
  trails (λ p, pos (st_p st) < p ≤ n)%nat
    (parseDot st) (parseDot (set_in w st)).
Proof.
  intros Hx Hp. unfold parseDot.
  eapply trails_bind; [by apply trails_p_next|].
  intros r st1 _ Hx1 Hp1. apply trails_graph_op; [graph_op|done..].
Qed.

Lemma trails_parseEscape st :
  p_in (st_p st) = u → (pos (st_p st) < n)%nat →
  trails (λ p, pos (st_p st) < p ≤ n)%nat
    (parseEscape st) (parseEscape (set_in w st)).
Proof.
  intros Hx Hp. unfold parseEscape.
  eapply trails_bind; [by apply trails_p_next|].
  intros r0 st1 _ Hx1 Hp1. cbv beta in Hp1.
  destruct (decide (pos (st_p st1) = n)) as [Hn|Hn].
  - apply trails_never. intros a st' Hrun.
    apply run_bind_Ok_inv in Hrun as (r & st2 & Hpk & Hrun).
    apply peek_Ok_inv in Hpk. rewrite Hx1, Hn, pipe_rune_at_end in Hpk.
    subst r. done.
  - eapply trails_bind; [apply trails_peek; [done|lia]|].
    intros r st2 _ Hx2 Hp2. cbv beta in Hp2.
    match goal with |- context [if ?c then _ else _] => destruct c end.
    + eapply trails_weaken; [|apply trails_parseLiteral; [done|lia]].
      intros p. cbv beta. lia.
    + by apply trails_never.
Qed.

Lemma trails_parseMeta e st :
  p_in (st_p st) = u → (pos (st_p st) < n)%nat →
  trails (λ p, pos (st_p st) < p ≤ n)%nat
    (parseMeta e st) (parseMeta e (set_in w st)).
Proof.
  intros Hx Hp. unfold parseMeta.
  eapply trails_bind; [by apply trails_p_next|].
  intros mc st1 _ Hx1 Hp1. apply trails_graph_op; [graph_op|done..].
Qed.

(** At the end of [u] the clause parser returns what it has. *)
Lemma loop_at_end fuel e wd h e' st' :
  parseClause_loop fuel e (State (Parser u n wd) h) = Ok (e', st') →
  e' = e ∧ st' = State (Parser u n 0) h.
Proof.
  destruct fuel as [|fuel]; [done|]. rewrite parseClause_loop_S.
  rewrite run_bind, run_peek. cbv beta iota. rewrite pipe_rune_at_end.
  change ((utf8.RuneError =? utf8.RuneError) || _) with true. cbv iota.
  by intros [= <- <-].
Qed.

Section step.

Variable fuel : nat.

Hypothesis IH : ∀ e st,
  p_in (st_p st) = u → (pos (st_p st) ≤ n)%nat →
  e ≠ empty_expr ∨ (pos (st_p st) < n)%nat →
  (2 * (lw - pos (st_p st)) < fuel)%nat →
  trails (λ p, pos (st_p st) ≤ p < n)%nat
    (parseClause_loop fuel e st) (parseClause_loop fuel e (set_in w st)).

Let rec : M expr := parseClause_loop fuel empty_expr.

Lemma trails_parseSubexp st :
  p_in (st_p st) = u → (pos (st_p st) < n)%nat →
  (2 * (lw - pos (st_p st)) < S fuel)%nat →
  trails (λ p, pos (st_p st) < p ≤ n)%nat
    (parseSubexp rec st) (parseSubexp rec (set_in w st)).
Proof.
  intros Hx Hp Hfuel. pose proof pipe_lw as Hlw. unfold parseSubexp.
  eapply trails_bind; [by apply (trails_get_pos (λ p, p = pos (st_p st)))|].
  intros start st0 [= <- <-] _ _.
  eapply trails_bind; [by apply trails_p_next|].
  intros r0 st1 _ Hx1 Hp1. cbv beta in Hp1.
  destruct (decide (pos (st_p st1) = n)) as [Hn|Hn].
  - (* the group is still open at the end of [u] *)
    apply trails_never. intros a st' Hrun.
    apply run_bind_Ok_inv in Hrun as (e & st2 & Hrec & Hrun).
    destruct st1 as [[inp1 p1 w1] h1]. simpl in Hx1, Hn. subst inp1 p1.
    apply loop_at_end in Hrec as [-> ->].
    rewrite run_bind, run_p_next in Hrun. cbv beta iota in Hrun.
    rewrite pipe_rune_at_end in Hrun.
    apply run_bind_Ok_inv in Hrun as (? & ? & _ & Hrun).
    apply run_bind_Ok_inv in Hrun as (? & ? & _ & Hrun).
    apply run_bind_Ok_inv in Hrun as (? & ? & _ & Hrun).
    apply run_bind_Ok_inv in Hrun as (? & ? & _ & Hrun). done.
  - eapply trails_bind; [apply IH; [done|lia|right; lia|lia]|].
    intros e st2 _ Hx2 Hp2. cbv beta in Hp2.
    eapply trails_bind; [apply trails_p_next; [done|lia]|].
    intros r st3 _ Hx3 Hp3. cbv beta in Hp3.
    apply trails_graph_op; [graph_op|done|lia].
Qed.

Lemma trails_parseTerm st :
  p_in (st_p st) = u → (pos (st_p st) < n)%nat →
  (2 * (lw - pos (st_p st)) < S fuel)%nat →
  trails (λ p, pos (st_p st) < p ≤ n)%nat
    (parseTerm rec st) (parseTerm rec (set_in w st)).
Proof.
  intros Hx Hp Hfuel. pose proof pipe_lw as Hlw. unfold parseTerm.
  eapply trails_bind; [by apply trails_peek|].
  intros r st1 _ Hx1 Hp1. cbv beta in Hp1.
  destruct (is_quantifier r); [by apply trails_never|].
  eapply trails_bind with (B := (λ p, pos (st_p st) < p ≤ n)%nat).
  { rewrite <- Hp1.
    destruct (r =? chr "("); [apply trails_parseSubexp; [done|lia|lia]|].
    destruct (r =? chr "\"); [apply trails_parseEscape; [done|lia]|].
    destruct (r =? chr "."); [apply trails_parseDot; [done|lia]|].
    apply trails_parseLiteral; [done|lia]. }
  intros e st2 _ Hx2 Hp2. cbv beta in Hp2.
  destruct (decide (pos (st_p st2) = n)) as [Hn|Hn].
  - (* at the end of [u]: no quantifier follows, in either pattern *)
    right; right. destruct st2 as [[inp2 p2 w2] h2]. simpl in *. subst inp2 p2.
    unfold set_in. simpl. rewrite !run_bind, !run_peek. cbv beta iota.
    rewrite pipe_rune_at_end, pipe_rune_at_n.
    change (is_quantifier utf8.RuneError) with false.
    change (is_quantifier (chr "|")) with false. cbv iota.
    split; [done|]. intros ?? [= <- <-]. simpl. split; [done|lia].
  - eapply trails_bind; [apply trails_peek; [done|lia]|].
    intros r2 st3 _ Hx3 Hp3. cbv beta in Hp3.
    destruct (is_quantifier r2).
    + eapply trails_weaken; [|apply trails_parseMeta; [done|lia]].
      intros p. cbv beta. lia.
    + apply trails_graph_op; [graph_op|done|lia].
Qed.

Lemma trails_parsePipe lhs st :
  p_in (st_p st) = u → (pos (st_p st) < n)%nat →
  (2 * (lw - pos (st_p st)) < S fuel)%nat →
  trails (λ p, pos (st_p st) < p < n)%nat
    (parsePipe rec lhs st) (parsePipe rec lhs (set_in w st)).
Proof.
  intros Hx Hp Hfuel. pose proof pipe_lw as Hlw. unfold parsePipe.
  eapply trails_bind; [by apply trails_p_next|].
  intros r0 st1 _ Hx1 Hp1. cbv beta in Hp1.
  destruct (isEmpty lhs).
  { apply trails_never. intros a st' Hrun.
    apply run_bind_Ok_inv in Hrun as (? & ? & _ & Hrun).
    apply run_bind_Ok_inv in Hrun as (? & ? & _ & Hrun). done. }
  destruct (decide (pos (st_p st1) = n)) as [Hn|Hn].
  - (* [u] ends with this [|]: the run on [u] panics *)
    apply trails_never. intros a st' Hrun.
    apply run_bind_Ok_inv in Hrun as (e & st2 & Hrec & Hrun).
    destruct st1 as [[inp1 p1 w1] h1]. simpl in Hx1, Hn. subst inp1 p1.
    apply loop_at_end in Hrec as [-> ->].
    apply run_bind_Ok_inv in Hrun as (? & ? & Hupd & _). done.
  - eapply trails_bind; [apply IH; [done|lia|right; lia|lia]|].
    intros e st2 _ Hx2 Hp2. cbv beta in Hp2.
    apply trails_graph_op; [graph_op|done|lia].
Qed.

(** At the end of [u], with a left operand at hand, the run on [w] reads
    the [|], finds no right operand, and panics. *)
Lemma loop_panics e wd h :
  e ≠ empty_expr → (1 ≤ fuel)%nat →
  parseClause_loop (S fuel) e (State (Parser w n wd) h) = Panic.
Proof.
  intros He Hfuel. rewrite parseClause_loop_S. unfold parsePipe.
  run. rewrite pipe_rune_at_n.
  change ((chr "|" =? utf8.RuneError) || (chr "|" =? chr ")")) with false.
  change (chr "|" =? chr "|") with true. cbv iota.
  run. rewrite pipe_width_at_n.
  unfold isEmpty. rewrite bool_decide_eq_false_2 by done.
  destruct fuel as [|fuel']; [lia|]. rewrite parseClause_loop_S.
  run. rewrite pipe_rune_after.
  replace ((rune_at v 0 =? utf8.RuneError) || (rune_at v 0 =? chr ")"))
    with true by (destruct Hv as [-> | ->]; done).
  cbv iota. run. reflexivity.
Qed.

Lemma trails_loop_step e st :
  p_in (st_p st) = u → (pos (st_p st) ≤ n)%nat →
  e ≠ empty_expr ∨ (pos (st_p st) < n)%nat →
  (2 * (lw - pos (st_p st)) < S fuel)%nat →
  trails (λ p, pos (st_p st) ≤ p < n)%nat
    (parseClause_loop (S fuel) e st)
    (parseClause_loop (S fuel) e (set_in w st)).
Proof.
  intros Hx Hp He Hfuel. pose proof pipe_lw as Hlw.
  destruct (decide (pos (st_p st) = n)) as [Hn|Hn].
  { right; left. destruct st as [[inp p wd] h]. simpl in *. subst inp p.
    unfold set_in. simpl. apply loop_panics; [|lia].
    destruct He as [?|?]; [done|lia]. }
  rewrite parseClause_loop_S.
  eapply trails_bind; [apply trails_peek; [done|lia]|].
  intros r st1 _ Hx1 Hp1. cbv beta in Hp1.
  destruct ((r =? utf8.RuneError) || (r =? chr ")")).
  { apply trails_graph_op; [graph_op|done|lia]. }
  destruct (r =? chr "|").
  - eapply trails_bind; [apply trails_parsePipe; [done|lia|lia]|].
    intros e' st2 _ Hx2 Hp2. cbv beta in Hp2.
    eapply trails_weaken; [|apply IH; [done|lia|right; lia|lia]].
    intros p. cbv beta. lia.
  - eapply trails_bind; [apply trails_parseTerm; [done|lia|lia]|].
    intros nxt st2 Hterm Hx2 Hp2. cbv beta in Hp2.
    apply parseTerm_end in Hterm.
    eapply trails_bind with (B := (λ p, p = pos (st_p st2))).
    { apply trails_graph_op; [graph_op|done..]. }
    intros e' st3 Hcat Hx3 Hp3. cbv beta in Hp3.
    apply concat_end in Hcat; [|by intros ->].
    eapply trails_weaken; [|apply IH; [done|lia| |lia]].
    + intros p. cbv beta. lia.
    + left. intros ->. by rewrite <- Hcat in Hterm.
Qed.

End step.

Lemma trails_parseClause_loop fuel : ∀ e st,
  p_in (st_p st) = u → (pos (st_p st) ≤ n)%nat →
  e ≠ empty_expr ∨ (pos (st_p st) < n)%nat →
  (2 * (lw - pos (st_p st)) < fuel)%nat →
  trails (λ p, pos (st_p st) ≤ p < n)%nat
    (parseClause_loop fuel e st) (parseClause_loop fuel e (set_in w st)).
Proof.
  induction fuel as [|fuel IH]; intros e st Hx Hp He Hfuel; [lia|].
  by apply trails_loop_step.
Qed.

End dangling_pipe.

Lemma parse_dangling_pipe (u v : list Z) s t h :
  rune_at v 0 = utf8.RuneError ∨ rune_at v 0 = chr ")" →
  u ≠ [] → parse u = Ok (s, t, h) →
  parse (u ++ chr "|" :: v) = Panic.
Proof.
  intros Hv Hne Hu. unfold parse in *.
  set (fw := (2 * length (u ++ chr "|" :: v) + 1)%nat).
  assert (Hle : (2 * length u + 1 ≤ fw)%nat).
  { unfold fw. rewrite length_app. simpl. lia. }
  destruct (parse_fuel_grows _ _ u Hle) as [Ho|Hg]; [congruence|].
  rewrite Hu in Hg. clear Hu Hle.
  unfold parse_fuel, parse_body, parseClause in *.
  assert (Hlen : (0 < length u)%nat) by (destruct u; simpl; [done|lia]).
  pose proof (trails_parseClause_loop u v Hv fw empty_expr
                (State (Parser u 0 0) []) eq_refl ltac:(simpl; lia)
                ltac:(right; simpl; lia) ltac:(unfold fw; simpl; lia)) as Hf.
  unfold set_in in Hf. simpl in Hf.
  rewrite run_bind in Hg. rewrite run_bind.
  destruct (parseClause_loop fw empty_expr (State (Parser u 0 0) []))
    as [[e [[inp p wd] h1]]| | |] eqn:Hx; try done.
  destruct Hf as [Hn|[->|[_ Hb]]];
    [by destruct (Hn e (State (Parser inp p wd) h1))|done|].
  destruct (Hb _ _ eq_refl) as [Hin Hp]. simpl in Hin, Hp. subst inp.
  exfalso.
  rewrite run_bind, run_get_pos in Hg. cbv beta iota in Hg.
  destruct (Nat.eqb_spec p (length u)) as [->|Hne']; [lia|]. cbn [negb] in Hg.
  rewrite run_bind in Hg. unfold backup in Hg. simpl in Hg.
  rewrite run_bind, run_peek in Hg. cbv beta iota in Hg.
  rewrite run_bind, run_get_pos in Hg. done.
Qed.

(** X22: an alternation without a right operand panics.  When a
    non-empty pattern [u] compiles, the pattern that goes on after [u]
    with a [|] and then ends, or goes on with a closing parenthesis or
    with a rune that does not decode (U+FFFD or an invalid byte), makes
    [Compile] panic: [parsePipe] calls [addEpsilon] through the nil entry
    of the empty right clause.  [Compile] returns no error there. *)
Theorem alternation_without_right_operand (u v : string) (r : Regexp)
    (h : heap) :
  Compile u = Ok (r, h) → u ≠ ""%string →
  rune_at (bytes_of_string v) 0 = utf8.RuneError
  ∨ rune_at (bytes_of_string v) 0 = chr ")" →
  Compile (u ++ String "|" v)%string = Panic.
Proof.
  unfold Compile. intros Hc Hne Hv.
  destruct (parse (bytes_of_string u)) as [[[s t] h0]| | |] eqn:Hp; try done.
  rewrite bytes_of_string_app.
  change (bytes_of_string (String "|" v)) with (chr "|" :: bytes_of_string v).
  rewrite (parse_dangling_pipe _ _ s t h0 Hv); [done| |exact Hp].
  by destruct u.
Qed.

Lemma alternation_without_right_operand_witness :
  Compile ("a*" ++ String "|" ")")%string = Panic.
Proof.
  apply (alternation_without_right_operand "a*" ")"
           (Build_Regexp (ptr 0%nat) (ptr 2%nat) "a*") star_heap).
  - vm_compute. reflexivity.
  - discriminate.
  - right. vm_compute. reflexivity.
Defined.

(** ** An alternation whose right operand begins with a loop *)

Lemma runes_ascii_app l1 l2 :
  Forall (λ b, 0 ≤ b < 128) l1 → runes (l1 ++ l2) = l1 ++ runes l2.
Proof.
  induction 1 as [|b l1 Hb _ IH]; [done|].
  simpl app. by rewrite runes_ascii_cons, IH.
Qed.

Lemma bytes_Repeat_b n :
  bytes_of_string (Repeat "b" n) = replicate n 98.
Proof. induction n as [|n IH]; [done|]. simpl. by rewrite <- IH. Qed.

Lemma alt_star_loop n tl :
  MatchString_loop alt_star_heap (ptr 4%nat)
    {[ptr 0%nat; ptr 1%nat; ptr 2%nat; ptr 3%nat; ptr 4%nat]} ∅
    (replicate n 98 ++ tl)
  = MatchString_loop alt_star_heap (ptr 4%nat)
      {[ptr 0%nat; ptr 1%nat; ptr 2%nat; ptr 3%nat; ptr 4%nat]} ∅ tl.
Proof.
  induction n as [|n IH]; [done|]. simpl replicate. simpl app.
  rewrite (MatchString_loop_step _ _ _ _ _ _
             {[ptr 0%nat; ptr 1%nat; ptr 2%nat; ptr 3%nat; ptr 4%nat]});
    [exact IH|by vm_compute|by vm_compute].
Qed.

(** X23: a loop at the start of the right operand re-enters the left
    operand.  [parsePipe] puts the epsilon edge to the left operand on the
    entry node of the right operand; when the right operand begins with a
    starred term, the loop of the star leads back to that entry node and
    so into the left operand.  The compiled [a|b*] accepts [a] and every
    repetition of [b], and it also accepts every repetition of [b]
    followed by [a]. *)
Theorem alternation_reentered_by_loop :
  ∃ r h, Compile "a|b*" = Ok (r, h)
         ∧ MatchString h r "a" = Ok true
         ∧ (∀ n, MatchString h r (Repeat "b" n) = Ok true)
         ∧ (∀ n, MatchString h r (Repeat "b" n ++ "a")%string = Ok true).
Proof.
  exists (Build_Regexp (ptr 1%nat) (ptr 4%nat) "a|b*"), alt_star_heap.
  split; [vm_compute; reflexivity|].
  split; [vm_compute; reflexivity|].
  assert (Hadd : add alt_star_heap ∅ (ptr 1%nat)
                 = Ok ({[ptr 0%nat; ptr 1%nat; ptr 2%nat; ptr 3%nat; ptr 4%nat]}
                       : nodeSet)) by (by vm_compute).
  split; intros n; unfold MatchString; simpl r_start; simpl r_term;
    rewrite Hadd; cbn [mbind result_bind].
  - rewrite bytes_Repeat_b, <- (app_nil_r (replicate n 98)).
    rewrite runes_ascii_app by (apply Forall_replicate; lia).
    rewrite alt_star_loop. by vm_compute.
  - rewrite bytes_of_string_app, bytes_Repeat_b.
    rewrite runes_ascii_app by (apply Forall_replicate; lia).
    rewrite alt_star_loop. by vm_compute.
Qed.

(** ** The patterns that compile follow the grammar *)

Lemma ensures_graph_op {A} (m : M A) st :
  graph_op m → ensures m st (λ _ st', st_p st' = st_p st).
Proof.
  intros Hg a st' Hr. destruct st as [pr h]. by apply graph_op_parser in Hr.
Qed.

Lemma Atom_nonempty a : Atom a → a ≠ [].
Proof. by destruct 1. Qed.

Lemma Term_nonempty t : Term t → t ≠ [].
Proof.
  destruct 1 as [a Ha|a q Ha Hq]; [by apply Atom_nonempty|].
  by destruct a.
Qed.

Lemma Tail_Clause cs : Tail False cs ↔ Clause cs.
Proof.
  split.
  - intros [Ht|(ts & cs' & -> & Ht & [[]|Hne] & Hc & Hne')];
      [by apply Clause_terms|by apply Clause_alt].
  - destruct 1 as [ts Ht|ts cs' Ht Hne Hc Hne']; [by left|right].
    exists ts, cs'. by split_and!; [..|right| |].
Qed.

Lemma Tail_weaken (P Q : Prop) cs : (P → Q) → Tail P cs → Tail Q cs.
Proof.
  intros HPQ [Ht|(ts & cs' & -> & Ht & Hor & Hc & Hne)]; [by left|right].
  exists ts, cs'. split_and!; [done..| |done|done].
  destruct Hor; [left; by apply HPQ|by right].
Qed.

Lemma Tail_cons (P : Prop) t cs : Term t → Tail True cs → Tail P (t ++ cs).
Proof.
  intros Ht [Hts|(ts & cs' & -> & Hts & _ & Hc & Hne)].
  - left. by apply Terms_cons.
  - right. exists (t ++ ts), cs'. rewrite <- app_assoc.
    split_and!; [done|by apply Terms_cons| |done..].
    right. intros [Hnil _]%app_eq_nil. by apply Term_nonempty in Ht.
Qed.

Section grammar.

Variable inp : list Z.

(** The runes between two positions of the pattern. *)
Definition seg (p : nat) (cs : list rune) (p' : nat) : Prop :=
  runes (drop p inp) = cs ++ runes (drop p' inp).

Lemma seg_nil p : seg p [] p.
Proof. done. Qed.

Lemma seg_app p1 p2 p3 cs1 cs2 :
  seg p1 cs1 p2 → seg p2 cs2 p3 → seg p1 (cs1 ++ cs2) p3.
Proof. unfold seg. intros -> ->. by rewrite app_assoc. Qed.

Lemma seg_next p :
  rune_at inp p ≠ utf8.RuneError →
  seg p [rune_at inp p] (p + width_at inp p).
Proof. intros Hr. apply runes_drop_step. by apply rune_lt. Qed.

(** The runes at which a clause ends. *)
Definition stops (p : nat) : Prop :=
  rune_at inp p = utf8.RuneError ∨ rune_at inp p = chr ")".

Lemma stops_tests p :
  stops p ↔ (rune_at inp p =? utf8.RuneError) || (rune_at inp p =? chr ")") = true.
Proof.
  unfold stops. rewrite orb_true_iff, !Z.eqb_eq. done.
Qed.

(** Where a clause ends the clause loop returns at once. *)
Lemma loop_stops fuel e st e' st' :
  p_in (st_p st) = inp → stops (pos (st_p st)) →
  parseClause_loop fuel e st = Ok (e', st') →
  e' = e ∧ p_in (st_p st') = inp ∧ pos (st_p st') = pos (st_p st).
Proof.
  intros Hin Hs. destruct fuel as [|fuel]; [done|]. rewrite parseClause_loop_S.
  destruct st as [[i p w] h]. simpl in *. subst i.
  rewrite run_bind, run_peek. cbv beta iota.
  apply stops_tests in Hs. rewrite Hs. by intros [= <- <-].
Qed.

(** What a call of the parser has read. *)
Definition reads (G : list rune → Prop) (st : state) (st' : state) : Prop :=
  p_in (st_p st') = inp
  ∧ ∃ cs, seg (pos (st_p st)) cs (pos (st_p st')) ∧ G cs.

Definition reads_clause (rec : M expr) : Prop :=
  ∀ st, p_in (st_p st) = inp →
        ensures rec st (λ e st',
          reads (λ cs, Clause cs ∧ (cs = [] → e = empty_expr)) st st'
          ∧ stops (pos (st_p st'))).

Lemma reads_consume {A} (k : rune → M A) st :
  p_in (st_p st) = inp →
  rune_at inp (pos (st_p st)) ≠ utf8.RuneError →
  (∀ r, graph_op (k r)) →
  ensures (p_next ≫= k) st (λ _ st',
    reads (λ cs, cs = [rune_at inp (pos (st_p st))]) st st').
Proof.
  intros Hin Hr Hg.
  eapply ensures_bind; [apply ensures_p_next|].
  intros r st1 (-> & Hin1 & _ & Hp1). rewrite Hin in *.
  eapply ensures_conseq; [by apply ensures_graph_op|].
  intros a st2 Hpr. cbv beta in *. unfold reads. rewrite Hpr, Hin1, Hp1.
  split; [done|]. eexists. split; [by apply seg_next|done].
Qed.

Lemma reads_parseLiteral st :
  p_in (st_p st) = inp →
  rune_at inp (pos (st_p st)) ≠ utf8.RuneError →
  ensures parseLiteral st (λ _ st',
    reads (λ cs, cs = [rune_at inp (pos (st_p st))]) st st').
Proof.
  intros Hin Hr. unfold parseLiteral.
  apply (reads_consume _ st Hin Hr). intros; graph_op.
Qed.

Lemma reads_parseDot st :
  p_in (st_p st) = inp →
  rune_at inp (pos (st_p st)) ≠ utf8.RuneError →
  ensures parseDot st (λ _ st',
    reads (λ cs, cs = [rune_at inp (pos (st_p st))]) st st').
Proof.
  intros Hin Hr. unfold parseDot.
  apply (reads_consume _ st Hin Hr). intros; graph_op.
Qed.

Lemma reads_parseMeta e st :
  p_in (st_p st) = inp →
  rune_at inp (pos (st_p st)) ≠ utf8.RuneError →
  ensures (parseMeta e) st (λ _ st',
    reads (λ cs, cs = [rune_at inp (pos (st_p st))]) st st').
Proof.
  intros Hin Hr. unfold parseMeta.
  apply (reads_consume _ st Hin Hr). intros; graph_op.
Qed.

Lemma reads_parseEscape st :
  p_in (st_p st) = inp →
  rune_at inp (pos (st_p st)) = chr "\" →
  ensures parseEscape st (λ _ st', reads Atom st st').
Proof.
  intros Hin Hr. unfold parseEscape.
  assert (Hr0 : rune_at inp (pos (st_p st)) ≠ utf8.RuneError) by (by rewrite Hr).
  eapply ensures_bind; [apply ensures_p_next|].
  intros r0 st1 (_ & Hin1 & _ & Hp1). rewrite Hin in *.
  eapply ensures_bind; [apply ensures_peek|].
  intros r st2 (-> & Hin2 & _ & Hp2). rewrite Hin1 in *.
  match goal with |- context [if ?c then _ else _] => destruct c eqn:Hc end;
    [|by apply ensures_never].
  assert (Hr2 : rune_at inp (pos (st_p st2)) ≠ utf8.RuneError).
  { rewrite Hp2. intros He. rewrite He in Hc. by vm_compute in Hc. }
  eapply ensures_conseq; [by apply reads_parseLiteral|].
  intros e st3 (Hin3 & cs & Hseg & ->). split; [done|].
  exists [chr "\"; rune_at inp (pos (st_p st1))]. split.
  - apply (seg_app _ (pos (st_p st1)) _ [chr "\"] [_]).
    + rewrite Hp1, <- Hr. by apply seg_next.
    + by rewrite <- Hp2.
  - by apply Atom_escape.
Qed.

Lemma reads_parseSubexp rec st :
  reads_clause rec →
  p_in (st_p st) = inp →
  rune_at inp (pos (st_p st)) = chr "(" →
  ensures (parseSubexp rec) st (λ _ st', reads Atom st st').
Proof.
  intros Hrec Hin Hr. unfold parseSubexp.
  assert (Hr0 : rune_at inp (pos (st_p st)) ≠ utf8.RuneError) by (by rewrite Hr).
  eapply ensures_bind; [apply ensures_get_pos|].
  intros start st0 (-> & ->).
  eapply ensures_bind; [apply ensures_p_next|].
  intros r0 st1 (_ & Hin1 & _ & Hp1). rewrite Hin in *.
  eapply ensures_bind; [by apply Hrec|].
  intros e st2 ((Hin2 & cs & Hseg2 & Hcs & _) & _).
  eapply ensures_bind; [apply ensures_p_next|].
  intros r st3 (-> & Hin3 & _ & Hp3). rewrite Hin2 in *.
  destruct (Z.eqb_spec (rune_at inp (pos (st_p st2))) (chr ")")) as [Hrp|Hrp].
  - assert (Hr2 : rune_at inp (pos (st_p st2)) ≠ utf8.RuneError)
      by (by rewrite Hrp).
    eapply ensures_conseq; [apply ensures_graph_op; graph_op|].
    intros e' st4 Hpr. cbv beta in Hpr. unfold reads. rewrite Hpr.
    split; [done|]. exists (chr "(" :: cs ++ [chr ")"]). split.
    + apply (seg_app _ (pos (st_p st1)) _ [chr "("]).
      { rewrite Hp1, <- Hr. by apply seg_next. }
      apply (seg_app _ (pos (st_p st2))); [done|].
      rewrite Hp3, <- Hrp. by apply seg_next.
    + by apply Atom_group.
  - apply ensures_never. intros e' st' Hrun.
    apply run_bind_Ok_inv in Hrun as (? & ? & _ & Hrun).
    apply run_bind_Ok_inv in Hrun as (? & ? & _ & Hrun).
    apply run_bind_Ok_inv in Hrun as (? & ? & _ & Hrun).
    apply run_bind_Ok_inv in Hrun as (? & ? & _ & Hrun). done.
Qed.

(** A rune at which a term may start that is neither [(], [\] nor [.]
    is a literal. *)
Lemma literal_tests r :
  (r =? utf8.RuneError) || (r =? chr ")") = false → (r =? chr "|") = false →
  is_quantifier r = false → (r =? chr "(") = false →
  (r =? chr "\") = false → (r =? chr ".") = false →
  is_meta r = false ∧ r ≠ utf8.RuneError.
Proof.
  intros [H1 H2]%orb_false_elim H3 Hq H4 H5 H6.
  unfold is_quantifier in Hq.
  apply orb_false_elim in Hq as [[Hq1 Hq2]%orb_false_elim Hq3].
  split; [|by apply Z.eqb_neq].
  unfold is_meta. by rewrite H6, Hq1, Hq2, Hq3, H4, H2, H3, H5.
Qed.

Lemma reads_parseTerm rec st :
  reads_clause rec →
  p_in (st_p st) = inp →
  (rune_at inp (pos (st_p st)) =? utf8.RuneError)
  || (rune_at inp (pos (st_p st)) =? chr ")") = false →
  (rune_at inp (pos (st_p st)) =? chr "|") = false →
  ensures (parseTerm rec) st (λ _ st', reads Term st st').
Proof.
  intros Hrec Hin Hs Hpipe. unfold parseTerm.
  eapply ensures_bind; [apply ensures_peek|].
  intros r st1 (-> & Hin1 & _ & Hp1). rewrite Hin in *.
  destruct (is_quantifier _) eqn:Hq; [by apply ensures_never|].
  eapply ensures_bind with (Q1 := λ _ st2, reads Atom st st2).
  { assert (Hst : ∀ st2, reads Atom st1 st2 → reads Atom st st2).
    { intros st2. unfold reads. by rewrite Hp1. }
    destruct (Z.eqb_spec (rune_at inp (pos (st_p st))) (chr "(")) as [H1|H1].
    { eapply ensures_conseq; [apply reads_parseSubexp; [done..|]|by intros; apply Hst].
      by rewrite Hp1. }
    destruct (Z.eqb_spec (rune_at inp (pos (st_p st))) (chr "\")) as [H2|H2].
    { eapply ensures_conseq; [apply reads_parseEscape; [done|]|by intros; apply Hst].
      by rewrite Hp1. }
    apply Z.eqb_neq in H1, H2.
    destruct (rune_at inp (pos (st_p st)) =? chr ".") eqn:H3.
    { apply Z.eqb_eq in H3. eapply ensures_conseq.
      { apply reads_parseDot; [done|]. by rewrite Hp1, H3. }
      intros e st2 (Hin2 & cs & Hseg & ->). apply Hst. split; [done|].
      eexists. split; [done|]. rewrite Hp1, H3. apply Atom_dot. }
    destruct (literal_tests _ Hs Hpipe Hq H1 H2 H3) as [Hm Hne].
    eapply ensures_conseq; [apply reads_parseLiteral; [done|by rewrite Hp1]|].
    intros e st2 (Hin2 & cs & Hseg & ->). apply Hst. split; [done|].
    eexists. split; [done|]. rewrite Hp1. by apply Atom_literal. }
  intros e st2 (Hin2 & a & Hseg2 & Ha).
  eapply ensures_bind; [apply ensures_peek|].
  intros r2 st3 (-> & Hin3 & _ & Hp3). rewrite Hin2 in *.
  destruct (is_quantifier (rune_at inp (pos (st_p st2)))) eqn:Hq2.
  - assert (Hr3 : rune_at inp (pos (st_p st3)) ≠ utf8.RuneError).
    { rewrite Hp3. intros He. rewrite He in Hq2. by vm_compute in Hq2. }
    eapply ensures_conseq; [by apply reads_parseMeta|].
    intros e' st4 (Hin4 & cs & Hseg4 & ->). split; [done|].
    exists (a ++ [rune_at inp (pos (st_p st3))]). split.
    + eapply seg_app; [exact Hseg2|]. by rewrite <- Hp3.
    + apply Term_quantified; [done|]. by rewrite Hp3.
  - intros e' st' [= <- <-]. split; [done|].
    exists a. split; [by rewrite Hp3|by apply Term_atom].
Qed.

Lemma reads_parsePipe rec lhs st :
  reads_clause rec →
  p_in (st_p st) = inp →
  rune_at inp (pos (st_p st)) = chr "|" →
  ensures (parsePipe rec lhs) st (λ _ st',
    reads (λ cs, ∃ cs', cs = chr "|" :: cs' ∧ Clause cs' ∧ cs' ≠ []) st st'
    ∧ lhs ≠ empty_expr ∧ stops (pos (st_p st'))).
Proof.
  intros Hrec Hin Hr. unfold parsePipe.
  assert (Hr0 : rune_at inp (pos (st_p st)) ≠ utf8.RuneError) by (by rewrite Hr).
  eapply ensures_bind; [apply ensures_p_next|].
  intros r0 st1 (_ & Hin1 & _ & Hp1). rewrite Hin in *.
  destruct (isEmpty lhs) eqn:Hemp.
  { apply ensures_never. intros a st' Hrun.
    apply run_bind_Ok_inv in Hrun as (? & ? & _ & Hrun).
    apply run_bind_Ok_inv in Hrun as (? & ? & _ & Hrun). done. }
  apply bool_decide_eq_false in Hemp.
  eapply ensures_bind; [by apply Hrec|].
  intros e st2 ((Hin2 & cs & Hseg2 & Hcs & Hnil) & Hstop).
  eapply ensures_bind with
    (Q1 := λ _ st3, st_p st3 = st_p st2 ∧ e ≠ empty_expr).
  { intros u st3 Hupd. split.
    - destruct st2 as [pr2 h2].
      by apply (graph_op_parser _ pr2 h2 u st3 (graph_op_update _ _)) in Hupd.
    - apply update_Ok_inv in Hupd as (a & o & Ha & _). by intros ->. }
  intros _ st3 [Hpr3 Hne].
  eapply ensures_conseq.
  { apply ensures_graph_op. graph_op. }
  intros e' st4 Hpr4. cbv beta in Hpr4. unfold reads. rewrite Hpr4, Hpr3.
  split_and!; [done| |done|done].
  exists (chr "|" :: cs). split.
  - apply (seg_app _ (pos (st_p st1)) _ [chr "|"]); [|done].
    rewrite Hp1, <- Hr. by apply seg_next.
  - exists cs. split_and!; [done..|]. intros ->. by apply Hne, Hnil.
Qed.

Lemma reads_parseClause_loop fuel : ∀ e st,
  p_in (st_p st) = inp →
  ensures (parseClause_loop fuel e) st (λ e' st',
    reads (λ cs, Tail (e ≠ empty_expr) cs ∧ (cs = [] → e' = e)) st st'
    ∧ stops (pos (st_p st'))).
Proof.
  induction fuel as [|fuel IH]; intros e st Hin; [by apply ensures_never|].
  assert (Hrec : reads_clause (parseClause_loop fuel empty_expr)).
  { intros st0 Hin0. eapply ensures_conseq; [by apply IH|].
    intros e' st' ((Hin' & cs & Hseg & Ht & Hnil) & Hstop).
    split; [|done]. split; [done|]. exists cs. split; [done|].
    split; [|done]. apply Tail_Clause.
    eapply Tail_weaken; [|exact Ht]. by intros []. }
  rewrite parseClause_loop_S.
  eapply ensures_bind; [apply ensures_peek|].
  intros r st1 (-> & Hin1 & _ & Hp1). rewrite Hin in *.
  destruct ((_ =? utf8.RuneError) || (_ =? chr ")")) eqn:Hs.
  { intros e' st' [= <- <-]. apply stops_tests in Hs. rewrite Hp1.
    split; [|done]. split; [done|]. exists []. split; [by rewrite Hp1|].
    split; [left; apply Terms_nil|done]. }
  destruct (Z.eqb_spec (rune_at inp (pos (st_p st))) (chr "|")) as [Hpipe|Hpipe].
  - eapply ensures_bind; [apply reads_parsePipe; [done..|by rewrite Hp1]|].
    intros e1 st2 ((Hin2 & cs & Hseg2 & cs' & -> & Hcs' & Hne') & Hlhs & Hstop).
    intros e2 st3 Hrun.
    apply loop_stops in Hrun as (-> & Hin3 & Hp3); [|done..].
    split; [|by unfold stops; rewrite Hp3]. split; [done|].
    exists (chr "|" :: cs'). split; [by rewrite Hp3, <- Hp1|].
    split; [|done]. right. exists [], cs'.
    split_and!; [done|apply Terms_nil|by left|done..].
  - apply Z.eqb_neq in Hpipe.
    eapply ensures_bind.
    { apply reads_parseTerm; [done..|by rewrite Hp1|by rewrite Hp1]. }
    intros nxt st2 (Hin2 & t & Hseg2 & Ht).
    eapply ensures_bind; [apply ensures_graph_op; graph_op|].
    intros e1 st3 Hpr3. cbv beta in Hpr3.
    eapply ensures_conseq; [apply IH; by rewrite Hpr3|].
    intros e2 st4 ((Hin4 & cs & Hseg4 & Hcs & _) & Hstop).
    split; [|done]. split; [done|]. exists (t ++ cs). split.
    + eapply seg_app; [by rewrite <- Hp1|]. by rewrite <- Hpr3.
    + split.
      * apply Tail_cons; [done|]. by eapply Tail_weaken; [|exact Hcs].
      * intros [Hnil _]%app_eq_nil. by apply Term_nonempty in Ht.
Qed.

End grammar.

Lemma parse_follows_grammar inp s t h :
  parse inp = Ok (s, t, h) → Clause (runes inp).
Proof.
  unfold parse, parse_fuel. generalize (2 * length inp + 1)%nat. intros fuel.
  destruct (parse_body fuel (length inp) (State (Parser inp 0 0) []))
    as [[[s' t'] st']| | |] eqn:Hrun; try done.
  intros _. revert Hrun. unfold parse_body, parseClause.
  intros Hrun. apply run_bind_Ok_inv in Hrun as (e & st1 & Hloop & Hrun).
  apply (reads_parseClause_loop inp fuel empty_expr
           (State (Parser inp 0 0) []) eq_refl) in Hloop
    as ((Hin1 & cs & Hseg & Hcs & _) & _).
  apply run_bind_Ok_inv in Hrun as (p & st2 & Hp & Hrun).
  apply ensures_get_pos in Hp as [-> ->]. simpl in Hseg.
  destruct (Nat.eqb_spec (pos (st_p st1)) (length inp)) as [Hlen|Hne];
    cbn [negb] in Hrun; last first.
  { apply run_bind_Ok_inv in Hrun as (? & ? & _ & Hrun).
    apply run_bind_Ok_inv in Hrun as (? & ? & _ & Hrun).
    apply run_bind_Ok_inv in Hrun as (? & ? & _ & Hrun). done. }
  unfold seg in Hseg. rewrite Hlen, drop_0, drop_all in Hseg. simpl in Hseg.
  rewrite app_nil_r in Hseg. rewrite Hseg. apply Tail_Clause.
  eapply Tail_weaken; [|exact Hcs]. by intros [].
Qed.

(** ** The patterns of the grammar compile *)

Lemma proceeds_bind {A B} (m : M A) (f : A → M B) st
    (Q1 : A → state → Prop) (Q : B → state → Prop) :
  proceeds m st Q1 → (∀ a st', Q1 a st' → proceeds (f a) st' Q) →
  proceeds (m ≫= f) st Q.
Proof.
  unfold proceeds. intros Hm Hf. rewrite run_bind.
  destruct (m st) as [[a st']| | |]; try done. by apply Hf.
Qed.

Lemma proceeds_conseq {A} (m : M A) st (Q Q' : A → state → Prop) :
  proceeds m st Q → (∀ a st', Q a st' → Q' a st') → proceeds m st Q'.
Proof.
  unfold proceeds. intros Hm HQ. destruct (m st) as [[a st']| | |]; auto.
Qed.

Lemma proceeds_ensures {A} (m : M A) st (Q Q' : A → state → Prop) :
  proceeds m st Q → ensures m st Q' →
  proceeds m st (λ a st', Q a st' ∧ Q' a st').
Proof.
  unfold proceeds, ensures. intros Hm He.
  destruct (m st) as [[a st']| | |]; try done. split; [done|by apply He].
Qed.

Lemma proceeds_ret {A} (a : A) st (Q : A → state → Prop) :
  Q a st → proceeds (mret a) st Q.
Proof. done. Qed.

Lemma proceeds_get_pos st :
  proceeds get_pos st (λ p st', p = pos (st_p st) ∧ st' = st).
Proof. done. Qed.

Lemma proceeds_alloc o st :
  proceeds (alloc o) st (λ n st',
    n = ptr (length (st_heap st)) ∧ st_p st' = st_p st
    ∧ length (st_heap st') = S (length (st_heap st))).
Proof.
  unfold proceeds, alloc. simpl. rewrite length_app. simpl.
  split_and!; [done..|lia].
Qed.

Lemma proceeds_update n f st :
  valid (st_heap st) n →
  proceeds (update n f) st (λ _ st',
    st_p st' = st_p st ∧ length (st_heap st') = length (st_heap st)).
Proof.
  destruct n as [|a]; [done|]. simpl. intros Ha.
  destruct (lookup_lt_is_Some_2 (st_heap st) a Ha) as [o Ho].
  destruct st as [pr h]. simpl in *. unfold proceeds.
  rewrite (run_update _ _ _ _ _ Ho). simpl. by rewrite length_insert.
Qed.

Lemma proceeds_concat e nxt st :
  expr_ok (st_heap st) e →
  proceeds (concat e nxt) st (λ e' st',
    st_p st' = st_p st ∧ length (st_heap st') = length (st_heap st)
    ∧ (nxt ≠ empty_expr → e' ≠ empty_expr)
    ∧ (expr_ok (st_heap st) nxt → expr_ok (st_heap st') e')).
Proof.
  intros He. unfold proceeds.
  destruct (decide (e = empty_expr)) as [->|Hne].
  { by rewrite concat_empty_l. }
  destruct (decide (nxt = empty_expr)) as [->|Hnn].
  { rewrite concat_empty_r. split_and!; [done..|]. by intros _. }
  destruct He as [?|[Hs Hend]]; [done|].
  destruct (e_end e) as [|a] eqn:Ha; [done|]. simpl in Hend.
  destruct (lookup_lt_is_Some_2 (st_heap st) a Hend) as [o Ho].
  destruct st as [pr h]. simpl in *.
  rewrite (concat_wire pr h e nxt a o Hne Hnn Ha Ho). simpl.
  rewrite length_insert. split_and!; [done..| |].
  - intros _ [= Hnil _]. by rewrite Hnil in Hs.
  - intros [?|[_ Hn]]; [done|]. right. simpl. by rewrite !valid_insert.
Qed.

Lemma Terms_app ts ts' : Terms ts → Terms ts' → Terms (ts ++ ts').
Proof.
  induction 1 as [|t ts Ht Hts IH]; intros Hts'; [done|].
  rewrite <- app_assoc. apply Terms_cons; [done|by apply IH].
Qed.

Lemma Atom_hd a : Atom a → starts_term (hd utf8.RuneError a).
Proof.
  destruct 1 as [r Hm Hr| |r Hr|cs Hcs]; [|done..]. simpl.
  destruct (is_meta_false r Hm) as (_ & _ & _ & _ & _ & Hrp & Hp & _).
  split_and!; [by apply is_meta_quantifier| |done].
  rewrite Hrp, orb_false_r. by apply Z.eqb_neq.
Qed.

Lemma hd_app_ne (d : rune) (l l' : list rune) :
  l ≠ [] → hd d (l ++ l') = hd d l.
Proof. by destruct l. Qed.

Lemma Term_hd t : Term t → starts_term (hd utf8.RuneError t).
Proof.
  destruct 1 as [a Ha|a q Ha Hq]; [by apply Atom_hd|].
  rewrite hd_app_ne by (by apply Atom_nonempty). by apply Atom_hd.
Qed.

Lemma ends_terms_not_quantifier r : ends_terms r → is_quantifier r = false.
Proof. by intros [->|[->| ->]]. Qed.

Lemma Terms_hd ts rest :
  Terms ts → ends_terms (hd utf8.RuneError rest) →
  is_quantifier (hd utf8.RuneError (ts ++ rest)) = false.
Proof.
  destruct 1 as [|t ts Ht Hts]; intros Hend.
  - by apply ends_terms_not_quantifier.
  - rewrite <- app_assoc, hd_app_ne by (by apply Term_nonempty).
    by destruct (Term_hd t Ht).
Qed.

Lemma parseTerm_unfold rec :
  parseTerm rec
  = (r ← peek;
     if is_quantifier r then p ← get_pos; fail (InvalidCharacter r p)
     else
       e ← parse_atom rec r;
       r ← peek;
       if is_quantifier r then parseMeta e else mret e).
Proof. done. Qed.

Lemma parse_atom_literal rec r :
  is_meta r = false → parse_atom rec r = parseLiteral.
Proof.
  intros (Hdot & _ & _ & _ & Hlp & _ & _ & Hbs)%is_meta_false.
  unfold parse_atom. by rewrite Hlp, Hbs, Hdot.
Qed.

Lemma builds_parse_atom (D : node → Prop) rec st :
  builds_clause rec → open_wf (st_heap st) D →
  rune_at (p_in (st_p st)) (pos (st_p st)) ≠ utf8.RuneError →
  ensures (parse_atom rec (rune_at (p_in (st_p st)) (pos (st_p st)))) st
    (λ e st', built D st e st' ∧ e ≠ empty_expr).
Proof.
  intros Hrec Hwf Hr. unfold parse_atom.
  destruct (_ =? chr "("); [by apply builds_parseSubexp|].
  destruct (_ =? chr "\"); [by apply builds_parseEscape|].
  destruct (_ =? chr "."); [by apply builds_parseDot|].
  by apply builds_parseLiteral.
Qed.

Section parses.

Variable inp : list Z.

(** The parser is on the pattern [inp], with the runes [cs] ahead. *)
Definition ahead (st : state) (cs : list rune) : Prop :=
  p_in (st_p st) = inp
  ∧ (pos (st_p st) ≤ length inp)%nat
  ∧ runes (drop (pos (st_p st)) inp) = cs.

Lemma ahead_hd st cs :
  ahead st cs → rune_at inp (pos (st_p st)) = hd utf8.RuneError cs.
Proof. intros (_ & _ & <-). apply rune_at_hd. Qed.

Lemma ahead_parser st st' cs : st_p st' = st_p st → ahead st cs → ahead st' cs.
Proof. unfold ahead. by intros ->. Qed.

Lemma ahead_cons st r cs :
  ahead st (r :: cs) →
  rune_at inp (pos (st_p st)) = r
  ∧ (pos (st_p st) + width_at inp (pos (st_p st)) ≤ length inp)%nat
  ∧ runes (drop (pos (st_p st) + width_at inp (pos (st_p st))) inp) = cs.
Proof.
  intros (Hin & Hle & Hr).
  assert (Hlt : (pos (st_p st) < length inp)%nat).
  { destruct (decide (pos (st_p st) < length inp)%nat); [done|].
    rewrite drop_ge in Hr by lia. done. }
  rewrite runes_drop_step in Hr by done. injection Hr as Hr Hcs.
  split_and!; [done| |done]. by apply width_at_bounds.
Qed.

Lemma proceeds_next st r cs :
  ahead st (r :: cs) →
  proceeds p_next st (λ r' st',
    r' = r ∧ ahead st' cs ∧ st_heap st' = st_heap st).
Proof.
  intros Hah. destruct (ahead_cons st r cs Hah) as (Hr & Hle & Hcs).
  destruct Hah as (Hin & _ & _). destruct st as [[i p w] h]. simpl in *.
  subst i. unfold proceeds. rewrite run_p_next. by split_and!.
Qed.

Lemma proceeds_peek st cs :
  ahead st cs →
  proceeds peek st (λ r st',
    r = hd utf8.RuneError cs ∧ ahead st' cs ∧ st_heap st' = st_heap st).
Proof.
  intros Hah. pose proof (ahead_hd st cs Hah) as Hr.
  destruct Hah as (Hin & Hle & Hcs). destruct st as [[i p w] h]. simpl in *.
  subst i. unfold proceeds. rewrite run_peek. by split_and!.
Qed.

Lemma proceeds_parseLiteral st r cs :
  ahead st (r :: cs) → proceeds parseLiteral st (λ _ st', ahead st' cs).
Proof.
  intros Hah. unfold parseLiteral.
  eapply proceeds_bind; [by apply proceeds_next|].
  intros r' st1 (-> & Hah1 & _).
  eapply proceeds_bind; [apply proceeds_alloc|].
  intros n st2 (_ & Hp2 & _). apply proceeds_ret. by eapply ahead_parser.
Qed.

Lemma proceeds_parseDot st r cs :
  ahead st (r :: cs) → proceeds parseDot st (λ _ st', ahead st' cs).
Proof.
  intros Hah. unfold parseDot.
  eapply proceeds_bind; [by apply proceeds_next|].
  intros r' st1 (-> & Hah1 & _).
  eapply proceeds_bind; [apply proceeds_alloc|].
  intros n st2 (_ & Hp2 & _). apply proceeds_ret. by eapply ahead_parser.
Qed.

Lemma proceeds_parseMeta term st q cs :
  ahead st (q :: cs) → is_quantifier q = true →
  valid (st_heap st) (e_start term) → valid (st_heap st) (e_end term) →
  proceeds (parseMeta term) st (λ _ st', ahead st' cs).
Proof.
  intros Hah Hq Hs He. unfold parseMeta.
  eapply proceeds_bind; [by apply proceeds_next|].
  intros mc st1 (-> & Hah1 & Hh1). rewrite <- Hh1 in Hs, He.
  eapply proceeds_bind with
    (Q1 := λ n st2, st_p st2 = st_p st1
                    ∧ (length (st_heap st1) ≤ length (st_heap st2))%nat).
  { destruct (is_quantifier_cases _ Hq) as [-> | [-> | ->]].
    - change (63 =? chr "+") with false. change (63 =? chr "*") with false.
      change (63 =? chr "?") with true. cbv iota.
      eapply proceeds_bind; [apply proceeds_alloc|].
      intros n st2 (-> & Hp2 & Hl2).
      eapply proceeds_bind.
      { apply proceeds_update. eapply valid_grow; [|done]. lia. }
      intros _ st3 (Hp3 & Hl3). apply proceeds_ret.
      split; [congruence|lia].
    - change (43 =? chr "+") with true. cbv iota.
      eapply proceeds_bind; [apply proceeds_alloc|].
      intros n st2 (-> & Hp2 & Hl2).
      eapply proceeds_bind; [apply proceeds_update; simpl; lia|].
      intros _ st3 (Hp3 & Hl3). apply proceeds_ret.
      split; [congruence|lia].
    - change (42 =? chr "+") with false. change (42 =? chr "*") with true.
      cbv iota.
      eapply proceeds_bind; [apply proceeds_alloc|].
      intros n st2 (-> & Hp2 & Hl2).
      eapply proceeds_bind; [apply proceeds_update; simpl; lia|].
      intros _ st3 (Hp3 & Hl3).
      eapply proceeds_bind.
      { apply proceeds_update. eapply valid_grow; [|done]. lia. }
      intros _ st4 (Hp4 & Hl4). apply proceeds_ret.
      split; [congruence|lia]. }
  intros n st2 (Hp2 & Hl2). unfold concatNode.
  eapply proceeds_conseq.
  { apply proceeds_concat. right. split; by eapply valid_grow. }
  intros e st3 (Hp3 & _). eapply ahead_parser; [|done]. congruence.
Qed.

(** Where a clause ends, the clause loop returns the fragment that it
    holds. *)
Lemma loop_returns fuel e st cs :
  ahead st cs →
  hd utf8.RuneError cs = utf8.RuneError ∨ hd utf8.RuneError cs = chr ")" →
  proceeds (parseClause_loop fuel e) st (λ e' st', e' = e ∧ ahead st' cs).
Proof.
  intros Hah Hs. destruct fuel as [|fuel]; [done|]. rewrite parseClause_loop_S.
  eapply proceeds_bind; [by apply proceeds_peek|].
  intros r st1 (-> & Hah1 & _).
  assert (Ht : (hd utf8.RuneError cs =? utf8.RuneError)
               || (hd utf8.RuneError cs =? chr ")") = true).
  { by destruct Hs as [-> | ->]. }
  rewrite Ht. by apply proceeds_ret.
Qed.

(** What the parser does on each phrase of the grammar. *)
Definition parses_atom (a : list rune) : Prop :=
  ∀ fuel (D : node → Prop) st rest,
    ahead st (a ++ rest) → open_wf (st_heap st) D →
    proceeds (parse_atom (parseClause_loop fuel empty_expr)
                (hd utf8.RuneError a)) st
      (λ _ st', ahead st' rest).

Definition parses_term (t : list rune) : Prop :=
  ∀ fuel (D : node → Prop) st rest,
    ahead st (t ++ rest) → is_quantifier (hd utf8.RuneError rest) = false →
    open_wf (st_heap st) D →
    proceeds (parseTerm (parseClause_loop fuel empty_expr)) st
      (λ _ st', ahead st' rest).

(** The clause loop reads the terms [ts] and goes on behind them. *)
Definition parses_terms (ts : list rune) : Prop :=
  ∀ fuel (D : node → Prop) st e rest (Q : expr → state → Prop),
    ahead st (ts ++ rest) → ends_terms (hd utf8.RuneError rest) →
    open_wf (st_heap st) (λ n, D n ∨ n = e_end e) →
    expr_ok (st_heap st) e →
    (∀ fuel' e1 st1,
       ahead st1 rest →
       open_wf (st_heap st1) (λ n, D n ∨ n = e_end e1) →
       expr_ok (st_heap st1) e1 →
       (ts ≠ [] ∨ e ≠ empty_expr → e1 ≠ empty_expr) →
       proceeds (parseClause_loop fuel' e1) st1 Q) →
    proceeds (parseClause_loop fuel e) st Q.

Definition parses_clause (cs : list rune) : Prop :=
  ∀ fuel (D : node → Prop) st rest,
    ahead st (cs ++ rest) →
    hd utf8.RuneError rest = utf8.RuneError
    ∨ hd utf8.RuneError rest = chr ")" →
    open_wf (st_heap st) D →
    proceeds (parseClause_loop fuel empty_expr) st
      (λ e st', ahead st' rest ∧ (cs ≠ [] → e ≠ empty_expr)).

Lemma builds_rec fuel : builds_clause (parseClause_loop fuel empty_expr).
Proof.
  intros D st Hwf. apply builds_parseClause_loop; [|by left].
  eapply open_wf_weaken; [exact Hwf|]. simpl. tauto.
Qed.

Lemma parses_literal r :
  is_meta r = false → r ≠ utf8.RuneError → parses_atom [r].
Proof.
  intros Hm Hr fuel D st rest Hah Hwf. simpl hd.
  rewrite parse_atom_literal by done. by eapply proceeds_parseLiteral.
Qed.

Lemma parses_dot : parses_atom [chr "."].
Proof.
  intros fuel D st rest Hah Hwf. simpl hd.
  change (parse_atom _ _) with parseDot. by eapply proceeds_parseDot.
Qed.

Lemma parses_escape r : is_escapable r = true → parses_atom [chr "\"; r].
Proof.
  intros Hr fuel D st rest Hah Hwf. simpl hd.
  change (parse_atom _ _) with parseEscape. unfold parseEscape.
  eapply proceeds_bind; [by apply proceeds_next|].
  intros r0 st1 (_ & Hah1 & _).
  eapply proceeds_bind; [by apply proceeds_peek|].
  intros r1 st2 (-> & Hah2 & _). simpl hd.
  unfold is_escapable in Hr. rewrite Hr. by eapply proceeds_parseLiteral.
Qed.

Lemma parses_group cs :
  parses_clause cs → parses_atom (chr "(" :: cs ++ [chr ")"]).
Proof.
  intros IH fuel D st rest Hah Hwf. simpl hd.
  rewrite <- app_comm_cons, <- app_assoc in Hah.
  change (parse_atom _ _) with (parseSubexp (parseClause_loop fuel empty_expr)).
  unfold parseSubexp.
  eapply proceeds_bind; [apply proceeds_get_pos|].
  intros start st0 (-> & ->).
  eapply proceeds_bind; [by apply proceeds_next|].
  intros r0 st1 (_ & Hah1 & Hh1).
  eapply proceeds_bind.
  { apply proceeds_ensures.
    - apply (IH fuel D st1 (chr ")" :: rest)); [done|by right|by rewrite Hh1].
    - apply (builds_rec fuel D). by rewrite Hh1. }
  intros e st2 ([Hah2 _] & (_ & Hl2 & _) & He2 & _).
  eapply proceeds_bind; [by apply proceeds_next|].
  intros r st3 (-> & Hah3 & Hh3).
  eapply proceeds_bind; [apply proceeds_alloc|].
  intros lp st4 (-> & Hp4 & Hl4).
  eapply proceeds_bind; [apply proceeds_alloc|].
  intros rp st5 (-> & Hp5 & Hl5).
  eapply proceeds_bind.
  { apply proceeds_concat. right. simpl. lia. }
  intros e1 st6 (Hp6 & Hl6 & _ & He6).
  unfold concatNode.
  eapply proceeds_bind.
  { apply proceeds_concat. apply He6. eapply expr_ok_grow; [|done].
    rewrite Hh3 in Hl4. lia. }
  intros e2 st7 (Hp7 & _). change (chr ")" =? chr ")") with true. cbv iota.
  apply proceeds_ret. eapply ahead_parser; [|done]. congruence.
Qed.

Lemma parses_term_head fuel (D : node → Prop) st a rest
    (Q : expr → state → Prop) :
  Atom a → parses_atom a →
  ahead st (a ++ rest) → open_wf (st_heap st) D →
  (∀ e st2, ahead st2 rest → valid (st_heap st2) (e_start e) →
            valid (st_heap st2) (e_end e) →
            proceeds (r ← peek; if is_quantifier r then parseMeta e else mret e)
              st2 Q) →
  proceeds (parseTerm (parseClause_loop fuel empty_expr)) st Q.
Proof.
  intros Ha IH Hah Hwf K. rewrite parseTerm_unfold.
  pose proof (Atom_nonempty a Ha) as Hne.
  destruct (Atom_hd a Ha) as (Hq & Hs & _).
  eapply proceeds_bind; [by apply proceeds_peek|].
  intros r st1 (-> & Hah1 & Hh1). rewrite hd_app_ne by done. rewrite Hq.
  assert (Hr : rune_at (p_in (st_p st1)) (pos (st_p st1))
               = hd utf8.RuneError a).
  { rewrite (proj1 Hah1), (ahead_hd st1 _ Hah1). by apply hd_app_ne. }
  eapply proceeds_bind.
  { apply proceeds_ensures.
    - apply (IH fuel D st1 rest); [done|by rewrite Hh1].
    - rewrite <- Hr. apply (builds_parse_atom D).
      + apply builds_rec.
      + by rewrite Hh1.
      + rewrite Hr. intros He. by rewrite He in Hs. }
  intros e st2 (Hah2 & (_ & [?|[Hes Hee]] & _) & Hne2); [done|].
  by apply K.
Qed.

Lemma parses_term_atom a : Atom a → parses_atom a → parses_term a.
Proof.
  intros Ha IH fuel D st rest Hah Hq Hwf.
  apply (parses_term_head fuel D st a rest); [done..|].
  intros e st2 Hah2 _ _.
  eapply proceeds_bind; [by apply proceeds_peek|].
  intros r st3 (-> & Hah3 & _). rewrite Hq. by apply proceeds_ret.
Qed.

Lemma parses_term_quantified a q :
  Atom a → parses_atom a → is_quantifier q = true → parses_term (a ++ [q]).
Proof.
  intros Ha IH Hq fuel D st rest Hah _ Hwf. rewrite <- app_assoc in Hah.
  apply (parses_term_head fuel D st a ([q] ++ rest)); [done..|].
  intros e st2 Hah2 Hes Hee.
  eapply proceeds_bind; [by apply proceeds_peek|].
  intros r st3 (-> & Hah3 & Hh3). simpl hd. rewrite Hq.
  eapply proceeds_parseMeta; [done|done|by rewrite Hh3..].
Qed.

Lemma parses_terms_nil : parses_terms [].
Proof.
  intros fuel D st e rest Q Hah Hend Hwf He K. apply K; [done..|].
  by intros [?|?].
Qed.

Lemma parses_terms_cons t ts :
  Term t → parses_term t → Terms ts → parses_terms ts →
  parses_terms (t ++ ts).
Proof.
  intros Ht IHt Hts IHts fuel D st e rest Q Hah Hend Hwf He K.
  destruct fuel as [|fuel]; [done|]. rewrite parseClause_loop_S.
  pose proof (Term_nonempty t Ht) as Hne.
  destruct (Term_hd t Ht) as (_ & Hs & Hp).
  rewrite <- app_assoc in Hah.
  eapply proceeds_bind; [by apply proceeds_peek|].
  intros r st1 (-> & Hah1 & Hh1). rewrite hd_app_ne by done. rewrite Hs, Hp.
  rewrite <- Hh1 in Hwf, He.
  eapply proceeds_bind.
  { apply proceeds_ensures.
    - apply (IHt fuel (λ n, D n ∨ n = e_end e) st1 (ts ++ rest));
        [done|by apply Terms_hd|done].
    - apply (builds_parseTerm (λ n, D n ∨ n = e_end e)); [apply builds_rec|done|].
      rewrite (proj1 Hah1), (ahead_hd st1 _ Hah1), hd_app_ne by done.
      intros Hr. by rewrite Hr in Hs. }
  intros nxt st2 (Hah2 & ((_ & Hl2 & _) & He2 & Hwf2) & Hne2).
  assert (He' : expr_ok (st_heap st2) e) by (by eapply expr_ok_grow).
  eapply proceeds_bind.
  { apply proceeds_ensures.
    - by apply proceeds_concat.
    - apply (ensures_concat D); [|done..].
      eapply open_wf_weaken; [exact Hwf2|]. simpl. tauto. }
  intros e1 st3 ((Hp3 & _ & Hne3 & _) & (_ & _ & He3 & Hwf3 & _)).
  apply (IHts fuel D st3 e1 rest Q); [by eapply ahead_parser|done..|].
  intros fuel' e2 st4 Hah4 Hwf4 He4 Hne4. apply K; [done..|].
  intros _. apply Hne4. right. by apply Hne3.
Qed.

Lemma parses_clause_terms ts : Terms ts → parses_terms ts → parses_clause ts.
Proof.
  intros Hts IH fuel D st rest Hah Hs Hwf.
  apply (IH fuel D st empty_expr rest); [done| | |by left|].
  - destruct Hs; [by left|by right; left].
  - eapply open_wf_weaken; [exact Hwf|]. simpl. tauto.
  - intros fuel' e1 st1 Hah1 _ _ Hne.
    eapply proceeds_conseq; [by apply loop_returns|].
    intros e' st' [-> Hah']. split; [done|]. intros Hnil. apply Hne. by left.
Qed.

Lemma proceeds_parsePipe rec lhs (D : node → Prop) st cs rest :
  ahead st (chr "|" :: cs ++ rest) →
  lhs ≠ empty_expr → expr_ok (st_heap st) lhs → open_wf (st_heap st) D →
  builds_clause rec →
  (∀ st', ahead st' (cs ++ rest) → open_wf (st_heap st') D →
          proceeds rec st'
            (λ e st'', ahead st'' rest ∧ (cs ≠ [] → e ≠ empty_expr))) →
  cs ≠ [] →
  proceeds (parsePipe rec lhs) st
    (λ e st', ahead st' rest ∧ e ≠ empty_expr).
Proof.
  intros Hah Hne Hlhs Hwf Hb Hrec Hcs. unfold parsePipe.
  eapply proceeds_bind; [by apply proceeds_next|].
  intros r0 st1 (_ & Hah1 & Hh1).
  unfold isEmpty. rewrite bool_decide_eq_false_2 by done.
  rewrite <- Hh1 in Hlhs, Hwf.
  eapply proceeds_bind.
  { apply proceeds_ensures; [by apply Hrec|by apply (Hb D)]. }
  intros e st2 ([Hah2 He2] & (_ & Hl2 & _) & [?|[Hes Hee]] & _);
    [by destruct (He2 Hcs)|].
  eapply proceeds_bind; [by apply proceeds_update|].
  intros _ st3 (Hp3 & Hl3).
  eapply proceeds_bind; [apply proceeds_alloc|].
  intros n st4 (-> & Hp4 & Hl4). unfold concatNode.
  eapply proceeds_bind.
  { apply proceeds_concat. right. split; eapply valid_grow; [|done| |done]; lia. }
  intros e1 st5 (Hp5 & Hl5 & Hne5 & _).
  eapply proceeds_bind.
  { apply proceeds_concat. eapply expr_ok_grow; [|done]. lia. }
  intros e2 st6 (Hp6 & _). apply proceeds_ret. split.
  - eapply ahead_parser; [|done]. congruence.
  - by apply Hne5.
Qed.

Lemma parses_clause_alt ts cs :
  Terms ts → parses_terms ts → ts ≠ [] → Clause cs → parses_clause cs →
  cs ≠ [] → parses_clause (ts ++ chr "|" :: cs).
Proof.
  intros Hts IHts Hne Hcs IHcs Hne' fuel D st rest Hah Hs Hwf.
  rewrite <- app_assoc in Hah.
  apply (IHts fuel D st empty_expr (chr "|" :: cs ++ rest));
    [done|by right; right| |by left|].
  { eapply open_wf_weaken; [exact Hwf|]. simpl. tauto. }
  intros fuel' e1 st1 Hah1 Hwf1 He1 Hne1.
  destruct fuel' as [|fuel']; [done|]. rewrite parseClause_loop_S.
  eapply proceeds_bind; [by apply proceeds_peek|].
  intros r st2 (-> & Hah2 & Hh2). simpl hd.
  change ((chr "|" =? utf8.RuneError) || (chr "|" =? chr ")")) with false.
  change (chr "|" =? chr "|") with true. cbv iota.
  rewrite <- Hh2 in Hwf1, He1.
  eapply proceeds_bind.
  { apply (proceeds_parsePipe _ e1 (λ n, D n ∨ n = e_end e1) st2 cs rest);
      [done|by apply Hne1; left|done|done|apply builds_rec| |done].
    intros st' Hah' Hwf'.
    by apply (IHcs fuel' (λ n, D n ∨ n = e_end e1) st' rest). }
  intros e2 st3 [Hah3 Hne3].
  eapply proceeds_conseq; [by apply loop_returns|].
  intros e' st' [-> Hah']. by split.
Qed.

Lemma parses_grammar :
  (∀ a, Atom a → parses_atom a) ∧ (∀ t, Term t → parses_term t)
  ∧ (∀ ts, Terms ts → parses_terms ts) ∧ (∀ cs, Clause cs → parses_clause cs).
Proof.
  apply syntax_mut.
  - apply parses_literal.
  - apply parses_dot.
  - apply parses_escape.
  - intros cs _. apply parses_group.
  - apply parses_term_atom.
  - intros a q Ha IH Hq. by apply parses_term_quantified.
  - apply parses_terms_nil.
  - apply parses_terms_cons.
  - apply parses_clause_terms.
  - apply parses_clause_alt.
Qed.

End parses.

Lemma parse_of_grammar inp :
  Clause (runes inp) → ∃ s t h, parse inp = Ok (s, t, h).
Proof.
  intros Hc. pose proof (parse_scans inp) as Hscan.
  unfold parse, parse_fuel in *. revert Hscan.
  generalize (2 * length inp + 1)%nat. intros fuel Hscan.
  assert (H : proceeds (parse_body fuel (length inp))
                (State (Parser inp 0 0) []) (λ _ _, True)).
  { unfold parse_body, parseClause.
    destruct (parses_grammar inp) as (_ & _ & _ & Hcl).
    eapply proceeds_bind.
    { apply proceeds_ensures.
      - apply (Hcl (runes inp) Hc fuel (λ _, False) _ []);
          [|by left|apply open_wf_nil].
        split_and!; simpl; [done|lia|by rewrite drop_0, app_nil_r].
      - apply (builds_rec fuel (λ _, False)). apply open_wf_nil. }
    intros e st1 ([(Hin & Hle & Hnil) _] & _ & He & _).
    eapply proceeds_bind; [apply proceeds_get_pos|].
    intros p st2 (-> & ->).
    apply runes_nil_inv in Hnil. apply (f_equal length) in Hnil.
    rewrite length_drop in Hnil. simpl in Hnil.
    destruct (Nat.eqb_spec (pos (st_p st1)) (length inp)) as [_|?]; [|lia].
    cbn [negb].
    eapply proceeds_bind; [apply proceeds_alloc|].
    intros term st3 (-> & Hp3 & Hl3). unfold concatNode.
    eapply proceeds_bind.
    { apply proceeds_concat. eapply expr_ok_grow; [|done]. lia. }
    intros e' st4 _. by apply proceeds_ret. }
  unfold proceeds in H.
  destruct (parse_body fuel (length inp) (State (Parser inp 0 0) []))
    as [[[s t] st]| | |]; [|done..]. by exists s, t, (st_heap st).
Qed.

(** X24: the patterns that compile are those of the grammar.  [Compile]
    returns a compiled pattern exactly when the runes of the pattern form
    a clause: a sequence of terms, or a non-empty sequence of terms, a
    [|] and a non-empty clause, where a term is an atom with or without
    one quantifier, and an atom is a rune that is neither a metacharacter
    nor [RuneError], a dot, a backslash and an escapable character, or a
    clause in parentheses.  On every other pattern [Compile] returns an
    error or panics. *)
Theorem Compile_accepts_the_grammar (pattern : string) :
  compiles pattern ↔ Clause (runes (bytes_of_string pattern)).
Proof.
  unfold compiles, Compile. split.
  - intros (r & h & Hc).
    destruct (parse (bytes_of_string pattern)) as [[[s t] h']| | |] eqn:Hp;
      [|done..].
    by apply parse_follows_grammar in Hp.
  - intros (s & t & h & ->)%parse_of_grammar. by eexists _, _.
Qed.

(** ** Patterns made of patterns *)

Lemma decode_app_valid s t :
  (utf8.DecodeRuneInString s).1 ≠ utf8.RuneError →
  utf8.DecodeRuneInString (s ++ t) = utf8.DecodeRuneInString s.
Proof.
  intros Hr. destruct s as [|b l]; [done|].
  pose proof (decode_width b l) as Hw.
  destruct (decide (2 ≤ (utf8.DecodeRuneInString (b :: l)).2)%nat) as [H2|H1].
  { by apply decode_app_wide. }
  destruct (decode_narrow b l ltac:(lia)) as [?|Hb]; [done|].
  revert Hr Hb H1. clear Hw.
  destruct l as [|b1 [|b2 [|b3 l]]]; simpl app; decode_first b; decode_tests.
Qed.

(** A string that decodes without [RuneError] decodes to the same runes
    in front of any other string. *)
Lemma runes_app_valid u v :
  utf8.RuneError ∉ runes u → runes (u ++ v) = runes u ++ runes v.
Proof.
  remember (length u) as n eqn:Hn. revert u Hn.
  induction n as [n IH] using lt_wf_ind. intros u -> Hu.
  destruct u as [|b l]; [done|].
  rewrite (runes_cons b l) in Hu. apply not_elem_of_cons in Hu as [Hr Hu].
  change ((b :: l) ++ v) with (b :: (l ++ v)).
  rewrite (runes_cons b (l ++ v)), (runes_cons b l).
  change (b :: (l ++ v)) with ((b :: l) ++ v).
  rewrite decode_app_valid by done.
  pose proof (decode_width b l) as Hw.
  destruct (utf8.DecodeRuneInString (b :: l)) as [r w]. simpl fst in *.
  simpl snd in *. rewrite drop_app_le by lia.
  rewrite (IH (length (drop w (b :: l)))); [done| |done|done].
  rewrite length_drop. simpl. lia.
Qed.

Lemma Clause_app cs cs' : Clause cs → Clause cs' → Clause (cs ++ cs').
Proof.
  induction 1 as [ts Hts|ts cs Hts Hne Hcs IH Hne']; intros Hc'.
  - destruct Hc' as [ts' Hts'|ts' cs' Hts' Hn1 Hcs' Hn2].
    + apply Clause_terms. by apply Terms_app.
    + rewrite app_assoc. apply Clause_alt; [by apply Terms_app| |done..].
      intros [_ ?]%app_eq_nil. done.
  - rewrite <- app_assoc. simpl. apply Clause_alt; [done..|by apply IH|].
    intros [? _]%app_eq_nil. done.
Qed.

Lemma Clause_alt_app cs cs' :
  Clause cs → cs ≠ [] → Clause cs' → cs' ≠ [] →
  Clause (cs ++ chr "|" :: cs').
Proof.
  induction 1 as [ts Hts|ts cs Hts Hne Hcs IH Hne']; intros Hn Hc' Hn'.
  - by apply Clause_alt.
  - rewrite <- app_assoc. simpl. apply Clause_alt; [done..|by apply IH|].
    intros [? _]%app_eq_nil. done.
Qed.

Lemma Clause_group cs : Clause cs → Clause (chr "(" :: cs ++ [chr ")"]).
Proof.
  intros Hc. apply Clause_terms.
  rewrite <- (app_nil_r (_ :: _)).
  apply Terms_cons; [|apply Terms_nil]. by apply Term_atom, Atom_group.
Qed.

Lemma Clause_group_quantified cs q :
  Clause cs → is_quantifier q = true →
  Clause ((chr "(" :: cs ++ [chr ")"]) ++ [q]).
Proof.
  intros Hc Hq. apply Clause_terms.
  rewrite <- (app_nil_r (_ ++ [q])).
  apply Terms_cons; [|apply Terms_nil].
  apply Term_quantified; [by apply Atom_group|done].
Qed.

Lemma compiles_Clause p : compiles p ↔ Clause (runes (bytes_of_string p)).
Proof.
  unfold compiles, Compile. split.
  - intros (r & h & Hc).
    destruct (parse (bytes_of_string p)) as [[[s t] h']| | |] eqn:Hp;
      [|done..].
    by apply parse_follows_grammar in Hp.
  - intros (s & t & h & ->)%parse_of_grammar. by eexists _, _.
Qed.

Lemma compiles_valid p : compiles p → utf8.RuneError ∉ runes (bytes_of_string p).
Proof. intros (r & h & Hc). by eapply Compile_Ok_no_RuneError. Qed.

Lemma runes_string_nonempty p : p ≠ ""%string → runes (bytes_of_string p) ≠ [].
Proof. intros Hp Hr%runes_nil_inv. by destruct p. Qed.

Lemma runes_group p :
  runes (bytes_of_string (String "(" (p ++ ")")))
  = chr "(" :: runes (bytes_of_string p) ++ [chr ")"].
Proof.
  change (bytes_of_string (String "(" (p ++ ")")))
    with (chr "(" :: bytes_of_string (p ++ ")")).
  rewrite runes_ascii_cons by done. rewrite bytes_of_string_app.
  change (bytes_of_string ")") with [chr ")"].
  by rewrite runes_app_ascii.
Qed.

(** X25: patterns in a row.  When two patterns compile, so does the one
    followed by the other. *)
Theorem Compile_concatenation (u v : string) :
  compiles u → compiles v → compiles (u ++ v).
Proof.
  intros Hu Hv. apply compiles_Clause. rewrite bytes_of_string_app.
  rewrite runes_app_valid by (by apply compiles_valid).
  by apply Clause_app; apply compiles_Clause.
Qed.

Lemma Compile_concatenation_witness : compiles ("a|b" ++ "(c)*").
Proof.
  apply (Compile_concatenation "a|b" "(c)*");
    unfold compiles; vm_compute; by eexists _, _.
Defined.

(** X26: an alternation of patterns.  When two patterns compile and
    neither is empty, so does the one, a [|] and the other. *)
Theorem Compile_alternation (u v : string) :
  compiles u → compiles v → u ≠ ""%string → v ≠ ""%string →
  compiles (u ++ String "|" v).
Proof.
  intros Hu Hv Hnu Hnv. apply compiles_Clause. rewrite bytes_of_string_app.
  rewrite runes_app_valid by (by apply compiles_valid).
  change (bytes_of_string (String "|" v)) with (chr "|" :: bytes_of_string v).
  rewrite runes_ascii_cons by done.
  apply Clause_alt_app;
    [by apply compiles_Clause|by apply runes_string_nonempty
    |by apply compiles_Clause|by apply runes_string_nonempty].
Qed.

Lemma Compile_alternation_witness : compiles ("a|b" ++ String "|" "(c)*").
Proof.
  apply (Compile_alternation "a|b" "(c)*");
    [unfold compiles; vm_compute; by eexists _, _..|done|done].
Defined.

(** X27: a group of a pattern.  When a pattern compiles, so does the
    pattern in parentheses, and so does the pattern in parentheses
    followed by one quantifier. *)
Theorem Compile_group (u : string) (q : ascii) :
  compiles u → is_quantifier (chr q) = true →
  compiles (String "(" (u ++ ")"))
  ∧ compiles (String "(" (u ++ ")") ++ String q "").
Proof.
  intros Hu Hq. apply compiles_Clause in Hu. split; apply compiles_Clause.
  - rewrite runes_group. by apply Clause_group.
  - rewrite bytes_of_string_app.
    change (bytes_of_string (String q "")) with [chr q].
    rewrite runes_app_ascii by (by apply quantifier_ascii).
    rewrite runes_group. by apply Clause_group_quantified.
Qed.

Lemma Compile_group_witness :
  compiles (String "(" ("a|b" ++ ")"))
  ∧ compiles (String "(" ("a|b" ++ ")") ++ String "*" "").
Proof.
  apply (Compile_group "a|b" "*"); [|done].
  unfold compiles. vm_compute. by eexists _, _.
Defined.
